(** * 3d-view: the scene pipeline of [main.go]

    A shallow embedding of the Go program.  [float64] is the kernel's
    binary64 [float], each operation rounded on its own (no fused
    multiply-add).  Slices, [*Polygon] and [*Space] live in an explicit heap,
    so that aliasing and in-place writes are visible.  The calls made on the
    [imdraw.IMDraw] drawing context are recorded in the order made.

    Part I is the program, Part II the vocabulary of the statements,
    Part III the lemmas, Part IV the properties of the specification,
    Part V further properties of the code. *)

From Stdlib Require Import ZArith Floats String List Lia.
From stdpp Require Import base option gmap list.

(** * Part I: the program *)

(** ** Values *)

Module Point.
Record t := mk { X : float; Y : float; Z : float }.
End Point.

Module Vector.
Record t := mk { X : float; Y : float; Z : float }.
End Vector.

Module Matrix.
Record t := mk { X : Vector.t; Y : Vector.t; Z : Vector.t }.
End Matrix.

(** [color.Color] values; the program only uses [colornames] constants,
    which are [color.RGBA] structs. *)
Record RGBA := mkRGBA { rgba_R : N; rgba_G : N; rgba_B : N; rgba_A : N }.

(** [pixel.Vec], the result of [pixel.V(x, y)]. *)
Record Vec := V { vec_X : float; vec_Y : float }.

(** A heap address; a Go pointer is [None] (nil) or [Some l]. *)
Definition loc := positive.
Definition ptr := option loc.

(** A slice header.  The program never re-slices, so the offset into the
    backing array is always 0; the backing array holds [cap] elements. *)
Record slice := Slice { base : ptr; len : nat; cap : nat }.

Definition nil_slice : slice := Slice None 0 0.

Module Polygon.
Record t := mk { Points : slice; Color : RGBA }.
End Polygon.

Module Space.
Record t := mk { Matrix : Matrix.t; Objects : slice }.
End Space.

Module ByCentroidDistance.
Record t := mk { ps : slice; refPoint : Point.t }.
End ByCentroidDistance.

(** What an address can hold: the backing array of a [[]Point], of a
    [[]PointsSet], of a [[]*Polygon], or a struct reached by pointer. *)
Inductive obj :=
| OPoints (a : list Point.t)
| OSets (a : list slice)
| OPtrs (a : list ptr)
| OPolygon (p : Polygon.t)
| OSpace (s : Space.t).

(** A call made on the drawing context [imd], in the order made. *)
Inductive call :=
| SetColor (c : RGBA)          (* imd.Color = c *)
| Push (v : Vec)               (* imd.Push(v) *)
| PolygonCall (thickness : float) (* imd.Polygon(thickness) *)
| DrawCall.                    (* imd.Draw(win) *)

Record state := State { heap : gmap loc obj; calls : list call }.

(** ** The monad of Go statements: state, and a panic that stops the run *)

Inductive outcome (A : Type) :=
| Done (a : A) (st : state)
| Panic (msg : string) (st : state).
Arguments Done {A} a st.
Arguments Panic {A} msg st.

Definition final {A} (o : outcome A) : state :=
  match o with Done _ st => st | Panic _ st => st end.

Definition M (A : Type) := state -> outcome A.

Definition ret {A} (a : A) : M A := fun st => Done a st.

Definition bind {A B} (m : M A) (k : A -> M B) : M B :=
  fun st => match m st with
            | Done a st' => k a st'
            | Panic msg st' => Panic msg st'
            end.

Definition panic {A} (msg : string) : M A := fun st => Panic msg st.

Declare Scope go_scope.
Delimit Scope go_scope with go.
Notation "x <- m ;; k" := (bind m (fun x => k))
  (at level 100, m at next level, right associativity) : go_scope.
Notation "m ;; k" := (bind m (fun _ => k))
  (at level 100, right associativity) : go_scope.
Local Open Scope go_scope.

Definition nil_deref : string :=
  "runtime error: invalid memory address or nil pointer dereference".
Definition out_of_range : string := "runtime error: index out of range".

(** [new(T)], [&T{...}] and the allocation inside [make] and [append]. *)
Definition new (o : obj) : M loc :=
  fun st => let l := fresh (dom (heap st)) in
            Done l (State (<[l := o]> (heap st)) (calls st)).

Definition deref (p : ptr) : M obj :=
  fun st => match p with
            | Some l => match heap st !! l with
                        | Some o => Done o st
                        | None => Panic nil_deref st
                        end
            | None => Panic nil_deref st
            end.

Definition write (p : ptr) (o : obj) : M unit :=
  fun st => match p with
            | Some l => match heap st !! l with
                        | Some _ => Done tt (State (<[l := o]> (heap st)) (calls st))
                        | None => Panic nil_deref st
                        end
            | None => Panic nil_deref st
            end.

Definition emit (c : call) : M unit :=
  fun st => Done tt (State (heap st) (calls st ++ [c])).

Definition get_heap : M (gmap loc obj) := fun st => Done (heap st) st.

(** Loops: [for_fold] threads the loop's local variable through the
    iterations. *)
Fixpoint for_fold {A B} (l : list A) (b : B) (body : A -> B -> M B) : M B :=
  match l with
  | [] => ret b
  | x :: r => b' <- body x b ;; for_fold r b' body
  end.

(** ** Slices *)

(** The element types the program puts in slices. *)
Class Elem (T : Type) := {
  zero : T;
  inj : list T -> obj;
  proj : obj -> option (list T);
  proj_inj : forall a, proj (inj a) = Some a
}.

Definition zeroPoint : Point.t := Point.mk 0 0 0.

#[export, refine] Instance Elem_Point : Elem Point.t :=
  {| zero := zeroPoint;
     inj := OPoints;
     proj := fun o => match o with OPoints a => Some a | _ => None end |}.
Proof. reflexivity. Defined.

#[export, refine] Instance Elem_slice : Elem slice :=
  {| zero := nil_slice;
     inj := OSets;
     proj := fun o => match o with OSets a => Some a | _ => None end |}.
Proof. reflexivity. Defined.

#[export, refine] Instance Elem_ptr : Elem ptr :=
  {| zero := None;
     inj := OPtrs;
     proj := fun o => match o with OPtrs a => Some a | _ => None end |}.
Proof. reflexivity. Defined.

Section Slices.
Context {T : Type} `{Elem T}.

(** The backing array of a slice. *)
Definition array_of (s : slice) : M (list T) :=
  o <- deref (base s) ;;
  match proj o with
  | Some a => ret a
  | None => panic nil_deref
  end.

(** [s[i]] *)
Definition index (s : slice) (i : nat) : M T :=
  if i <? len s then
    a <- array_of s ;;
    match a !! i with
    | Some x => ret x
    | None => panic out_of_range
    end
  else panic out_of_range.

(** [s[i] = v] *)
Definition set_index (s : slice) (i : nat) (v : T) : M unit :=
  if i <? len s then
    a <- array_of s ;;
    write (base s) (inj (<[i := v]> a))
  else panic out_of_range.

(** [make([]T, n)] *)
Definition make (n : nat) : M slice :=
  l <- new (inj (replicate n zero)) ;;
  ret (Slice (Some l) n n).

(** A slice literal [[]T{x1, ..., xn}]. *)
Definition literal (xs : list T) : M slice :=
  l <- new (inj xs) ;;
  ret (Slice (Some l) (length xs) (length xs)).

(** [for i, x := range s { body }]: the header is read once, each element
    when its turn comes. *)
Definition range_fold {B} (s : slice) (b : B) (body : nat -> T -> B -> M B) : M B :=
  for_fold (seq 0 (len s)) b (fun i b => x <- index s i ;; body i x b).

Definition range (s : slice) (body : nat -> T -> M unit) : M unit :=
  range_fold s tt (fun i x _ => body i x).

(** What a slice holds in a given heap (no element where the heap has no
    such array). *)
Definition contents (h : gmap loc obj) (s : slice) : list T :=
  match base s with
  | Some l => match h !! l with
              | Some o => match proj o with
                          | Some a => take (len s) a
                          | None => []
                          end
              | None => []
              end
  | None => []
  end.

End Slices.

(** ** The Go runtime and standard library under the program

    Not part of the repository, so taken as parameters: the capacity
    [runtime.growslice] picks; what [sort.Sort] does with the [Len], [Less]
    and [Swap] it is given; [math.Cos], [math.Sin] and [math.Pow]. *)

(** The run of a sorting algorithm: a finite tree of calls to [Less], whose
    answer decides how it goes on, and to [Swap]. *)
Inductive sort_steps :=
| SortDone
| CallLess (i j : nat) (k : bool -> sort_steps)
| CallSwap (i j : nat) (k : sort_steps).

Class GoRuntime := {
  nextslicecap : nat -> nat -> nat;
  sort_Sort_steps : nat -> sort_steps;
  math_Cos : float -> float;
  math_Sin : float -> float;
  math_Pow : float -> float -> float
}.

Section Program.
Context `{GoRuntime}.

(** [append(s, v)]: in place when there is room, else into a fresh, larger
    array that receives a copy of the elements. *)
Definition append {T} `{Elem T} (s : slice) (v : T) : M slice :=
  if len s <? cap s then
    a <- array_of s ;;
    write (base s) (inj (<[len s := v]> a)) ;;
    ret (Slice (base s) (S (len s)) (cap s))
  else
    old <- (if len s =? 0 then ret [] else array_of s) ;;
    let c := Nat.max (S (len s)) (nextslicecap (S (len s)) (cap s)) in
    l <- new (inj (take (len s) old ++ v :: replicate (c - S (len s)) zero)) ;;
    ret (Slice (Some l) (S (len s)) c).

(** [*p] for a [*Polygon] and a [*Space]. *)
Definition load_Polygon (p : ptr) : M Polygon.t :=
  o <- deref p ;;
  match o with OPolygon x => ret x | _ => panic nil_deref end.

Definition load_Space (s : ptr) : M Space.t :=
  o <- deref s ;;
  match o with OSpace x => ret x | _ => panic nil_deref end.

(** *** [func (p *Polygon) build(imd, win)] *)
Definition Polygon_build (p : ptr) : M unit :=
  poly <- load_Polygon p ;;
  range (Polygon.Points poly) (fun _ point =>
    poly <- load_Polygon p ;;
    emit (SetColor (Polygon.Color poly)) ;;
    emit (Push (V (Point.X point) (Point.Y point)))) ;;
  poly <- load_Polygon p ;;
  emit (SetColor (Polygon.Color poly)) ;;
  poly <- load_Polygon p ;;
  first <- index (Polygon.Points poly) 0 ;;
  poly <- load_Polygon p ;;
  first' <- index (Polygon.Points poly) 0 ;;
  emit (Push (V (Point.X first) (Point.Y first'))) ;;
  emit (PolygonCall 1) ;;
  emit DrawCall.

(** *** [func matrixMultiply(m Matrix, p Point) Point] *)
Definition matrixMultiply (m : Matrix.t) (p : Point.t) : Point.t :=
  let mx := Matrix.X m in
  let my := Matrix.Y m in
  let mz := Matrix.Z m in
  Point.mk
    (Point.X p * Vector.X mx + Point.Y p * Vector.X my + Point.Z p * Vector.X mz)
    (Point.X p * Vector.Y mx + Point.Y p * Vector.Y my + Point.Z p * Vector.Y mz)
    (Point.X p * Vector.Z mx + Point.Y p * Vector.Z my + Point.Z p * Vector.Z mz).

(** *** [func (p *Polygon) Transform(m Matrix) *Polygon] *)
Definition Polygon_Transform (p : ptr) (m : Matrix.t) : M ptr :=
  poly <- load_Polygon p ;;
  newPoints <- make (T:=Point.t) (len (Polygon.Points poly)) ;;
  poly <- load_Polygon p ;;
  range (Polygon.Points poly) (fun i point =>
    set_index newPoints i
      (Point.mk
         (Point.X point * Vector.X (Matrix.X m) + Point.Y point * Vector.X (Matrix.Y m)
          + Point.Z point * Vector.X (Matrix.Z m))
         (Point.X point * Vector.Y (Matrix.X m) + Point.Y point * Vector.Y (Matrix.Y m)
          + Point.Z point * Vector.Y (Matrix.Z m))
         (Point.X point * Vector.Z (Matrix.X m) + Point.Y point * Vector.Z (Matrix.Y m)
          + Point.Z point * Vector.Z (Matrix.Z m)))) ;;
  poly <- load_Polygon p ;;
  q <- new (OPolygon (Polygon.mk newPoints (Polygon.Color poly))) ;;
  ret (Some q).

(** [float64(n)] for a length [n]; exact below 2^53. *)
Definition float_of_len (n : nat) : float :=
  PrimFloat.of_uint63 (Uint63.of_Z (Z.of_nat n)).

(** *** [func computeCentroid(points []Point) Point] *)
Definition computeCentroid (points : slice) : M Point.t :=
  let n := float_of_len (len points) in
  sums <- range_fold points (0, 0, 0)%float (fun _ p '(sumX, sumY, sumZ) =>
            ret (sumX + Point.X p, sumY + Point.Y p, sumZ + Point.Z p)%float) ;;
  let '(sumX, sumY, sumZ) := sums in
  ret (Point.mk (sumX / n) (sumY / n) (sumZ / n)).

(** *** [func NewPolygon(points []Point, color color.Color) *Polygon] *)
Definition NewPolygon (points : slice) (color : RGBA) : M ptr :=
  if len points <? 3 then panic "A polygon must have at least 3 points"
  else
    l <- new (OPolygon (Polygon.mk points color)) ;;
    ret (Some l).

(** *** [func euclideanDistance(a, b Point) float64] *)
Definition euclideanDistance (a b : Point.t) : float :=
  PrimFloat.sqrt
    (math_Pow (Point.X b - Point.X a) 2 + math_Pow (Point.Y b - Point.Y a) 2
     + math_Pow (Point.Z b - Point.Z a) 2).

(** *** [func (bd ByCentroidDistance) Len() int] *)
Definition ByCentroidDistance_Len (bd : ByCentroidDistance.t) : M nat :=
  ret (len (ByCentroidDistance.ps bd)).

(** *** [func (bd ByCentroidDistance) Swap(i, j int)]

    [bd.ps[i], bd.ps[j] = bd.ps[j], bd.ps[i]]: both right-hand sides are
    read, then the two elements are written, left one first. *)
Definition ByCentroidDistance_Swap (bd : ByCentroidDistance.t) (i j : nat) : M unit :=
  psJ <- index (T:=slice) (ByCentroidDistance.ps bd) j ;;
  psI <- index (T:=slice) (ByCentroidDistance.ps bd) i ;;
  set_index (ByCentroidDistance.ps bd) i psJ ;;
  set_index (ByCentroidDistance.ps bd) j psI.

(** *** [func (bd ByCentroidDistance) Less(i, j int) bool] *)
Definition ByCentroidDistance_Less (bd : ByCentroidDistance.t) (i j : nat) : M bool :=
  psI <- index (T:=slice) (ByCentroidDistance.ps bd) i ;;
  centroidI <- computeCentroid psI ;;
  psJ <- index (T:=slice) (ByCentroidDistance.ps bd) j ;;
  centroidJ <- computeCentroid psJ ;;
  ret (euclideanDistance centroidJ (ByCentroidDistance.refPoint bd)
       <? euclideanDistance centroidI (ByCentroidDistance.refPoint bd))%float.

(** [sort.Sort(bd)]: it asks [bd.Len()] once and then makes the calls to
    [bd.Less] and [bd.Swap] that the algorithm decides on. *)
Fixpoint run_sort (bd : ByCentroidDistance.t) (steps : sort_steps) : M unit :=
  match steps with
  | SortDone => ret tt
  | CallLess i j k => b <- ByCentroidDistance_Less bd i j ;; run_sort bd (k b)
  | CallSwap i j k => ByCentroidDistance_Swap bd i j ;; run_sort bd k
  end.

Definition sort_Sort (bd : ByCentroidDistance.t) : M unit :=
  n <- ByCentroidDistance_Len bd ;;
  run_sort bd (sort_Sort_steps n).

(** *** [func NewSpace() *Space] *)
Definition identityMatrix : Matrix.t :=
  Matrix.mk (Vector.mk 1 0 0) (Vector.mk 0 1 0) (Vector.mk 0 0 1).

Definition NewSpace : M ptr :=
  l <- new (OSpace (Space.mk identityMatrix nil_slice)) ;;
  ret (Some l).

(** *** [func (s *Space) Rotate(rotationMatrix Matrix)]

    The fields of [s.Matrix] are read, the new matrix is built, and then
    stored in [s.Matrix]. *)
Definition Space_Rotate (s : ptr) (rotationMatrix : Matrix.t) : M unit :=
  sp <- load_Space s ;;
  let sX := Matrix.X (Space.Matrix sp) in
  let sY := Matrix.Y (Space.Matrix sp) in
  let sZ := Matrix.Z (Space.Matrix sp) in
  let rX := Matrix.X rotationMatrix in
  let rY := Matrix.Y rotationMatrix in
  let rZ := Matrix.Z rotationMatrix in
  let transformedMatrix :=
    Matrix.mk
      (Vector.mk
         (Vector.X sX * Vector.X rX + Vector.Y sX * Vector.X rY + Vector.Z sX * Vector.X rZ)
         (Vector.X sX * Vector.Y rX + Vector.Y sX * Vector.Y rY + Vector.Z sX * Vector.Y rZ)
         (Vector.X sX * Vector.Z rX + Vector.Y sX * Vector.Z rY + Vector.Z sX * Vector.Z rZ))
      (Vector.mk
         (Vector.X sY * Vector.X rX + Vector.Y sY * Vector.X rY + Vector.Z sY * Vector.X rZ)
         (Vector.X sY * Vector.Y rX + Vector.Y sY * Vector.Y rY + Vector.Z sY * Vector.Y rZ)
         (Vector.X sY * Vector.Z rX + Vector.Y sY * Vector.Z rY + Vector.Z sY * Vector.Z rZ))
      (Vector.mk
         (Vector.X sZ * Vector.X rX + Vector.Y sZ * Vector.X rY + Vector.Z sZ * Vector.X rZ)
         (Vector.X sZ * Vector.Y rX + Vector.Y sZ * Vector.Y rY + Vector.Z sZ * Vector.Y rZ)
         (Vector.X sZ * Vector.Z rX + Vector.Y sZ * Vector.Z rY + Vector.Z sZ * Vector.Z rZ)) in
  sp <- load_Space s ;;
  write s (OSpace (Space.mk transformedMatrix (Space.Objects sp))).

(** *** [func (s *Space) RotateX/RotateY/RotateZ(angle float64)] *)
Definition Space_RotateX (s : ptr) (angle : float) : M unit :=
  let rotationMatrix :=
    Matrix.mk (Vector.mk 1 0 0)
              (Vector.mk 0 (math_Cos angle) (math_Sin angle))
              (Vector.mk 0 (- math_Sin angle) (math_Cos angle)) in
  Space_Rotate s rotationMatrix.

Definition Space_RotateY (s : ptr) (angle : float) : M unit :=
  let rotationMatrix :=
    Matrix.mk (Vector.mk (math_Cos angle) 0 (- math_Sin angle))
              (Vector.mk 0 1 0)
              (Vector.mk (math_Sin angle) 0 (math_Cos angle)) in
  Space_Rotate s rotationMatrix.

Definition Space_RotateZ (s : ptr) (angle : float) : M unit :=
  let rotationMatrix :=
    Matrix.mk (Vector.mk (math_Cos angle) (math_Sin angle) 0)
              (Vector.mk (- math_Sin angle) (math_Cos angle) 0)
              (Vector.mk 0 0 1) in
  Space_Rotate s rotationMatrix.

(** *** [func (s *Space) AddObject(p *Polygon)] *)
Definition Space_AddObject (s : ptr) (p : ptr) : M unit :=
  sp <- load_Space s ;;
  objects <- append (Space.Objects sp) p ;;
  sp <- load_Space s ;;
  write s (OSpace (Space.mk (Space.Matrix sp) objects)).

(** *** [func (s *Space) Draw(imd, win)]

    [depth_pass] is the first half of [Draw], up to and including
    [sort.Sort]; it hands back the local slice [polygons]. *)
Definition referencePoint : Point.t := Point.mk 0 0 200.

Definition depth_pass (s : ptr) : M slice :=
  sp <- load_Space s ;;
  polygons <- make (T:=slice) (len (Space.Objects sp)) ;;
  sp <- load_Space s ;;
  range (T:=ptr) (Space.Objects sp) (fun i obj =>
    points <- make (T:=Point.t) 3 ;;
    poly <- load_Polygon obj ;;
    points <- range_fold (Polygon.Points poly) points (fun _ point points =>
      sp <- load_Space s ;;
      append points (matrixMultiply (Space.Matrix sp) point)) ;;
    set_index polygons i points) ;;
  sort_Sort (ByCentroidDistance.mk polygons referencePoint) ;;
  ret polygons.

Definition Space_Draw (s : ptr) : M unit :=
  _ <- depth_pass s ;;
  sp <- load_Space s ;;
  range (T:=ptr) (Space.Objects sp) (fun _ obj =>
    sp <- load_Space s ;;
    newObj <- Polygon_Transform obj (Space.Matrix sp) ;;
    Polygon_build newObj).

(** *** [func run()]

    The window ([pixelgl.NewWindow], [win.Clear], [win.Update],
    [win.Closed]) and [time.Sleep] belong to collaborators outside the
    program.  [run_setup err] is [run] from [NewSpace()] to
    [space.RotateX(-0.33)], where [err] is the error [pixelgl.NewWindow]
    returned ([None] for [nil]); [run_frame] is one turn of its loop: a
    fresh drawing context from [imdraw.New], then [Draw], then
    [RotateY(0.033)].  The two angles are the float64 values nearest to
    [-0.33] and [0.033]. *)
Definition colornames_Black : RGBA := mkRGBA 0 0 0 255.
Definition colornames_Aliceblue : RGBA := mkRGBA 240 248 255 255.

(** [imdraw.New(nil)]: a new drawing context, on which no call has been
    made yet; from here on the calls recorded are those made on it. *)
Definition imdraw_New : M unit := fun st => Done tt (State (heap st) []).

Definition run_setup (err : option string) : M ptr :=
  space <- NewSpace ;;
  (match err with Some e => panic e | None => ret tt end) ;;
  let p1 := Point.mk (-50) 0 (-50) in
  let p2 := Point.mk 0 100 0 in
  let p3 := Point.mk 50 0 (-50) in
  let p4 := Point.mk (-50) 0 50 in
  let p5 := Point.mk 50 0 50 in
  (points <- literal [Point.mk (-300) 0 0; Point.mk (-300) 0 0; Point.mk 300 0 0] ;;
   polygon <- NewPolygon points colornames_Black ;;
   Space_AddObject space polygon) ;;
  (points <- literal [Point.mk 0 (-300) 0; Point.mk 0 (-300) 0; Point.mk 0 300 0] ;;
   polygon <- NewPolygon points colornames_Black ;;
   Space_AddObject space polygon) ;;
  (points <- literal [Point.mk 0 0 300; Point.mk 0 0 300; Point.mk 0 0 (-300)] ;;
   polygon <- NewPolygon points colornames_Black ;;
   Space_AddObject space polygon) ;;
  (points <- literal [p1; p4; p5] ;;
   polygon <- NewPolygon points colornames_Black ;;
   Space_AddObject space polygon) ;;
  (points <- literal [p1; p2; p4] ;;
   polygon <- NewPolygon points colornames_Aliceblue ;;
   Space_AddObject space polygon) ;;
  (points <- literal [p2; p3; p5] ;;
   polygon <- NewPolygon points colornames_Aliceblue ;;
   Space_AddObject space polygon) ;;
  (points <- literal [p1; p2; p3] ;;
   polygon <- NewPolygon points colornames_Aliceblue ;;
   Space_AddObject space polygon) ;;
  (points <- literal [p2; p4; p5] ;;
   polygon <- NewPolygon points colornames_Aliceblue ;;
   Space_AddObject space polygon) ;;
  Space_RotateX space (-0x1.51eb851eb851fp-2) ;;
  ret space.

Definition run_frame (space : ptr) : M unit :=
  imdraw_New ;;
  Space_Draw space ;;
  Space_RotateY space 0x1.0e5604189374cp-5.

(** The loop of [run], for as many turns as [win.Closed()] lets it make. *)
Fixpoint run_frames (turns : nat) (space : ptr) : M unit :=
  match turns with
  | 0 => ret tt
  | S turns' => run_frame space ;; run_frames turns' space
  end.

(** [run], when [pixelgl.NewWindow] returns [err] and the window is closed
    after [turns] turns. *)
Definition run (err : option string) (turns : nat) : M unit :=
  space <- run_setup err ;;
  run_frames turns space.

End Program.

(** ** A runtime to run examples with

    [sort.Sort] on at most 12 elements is an insertion sort; [growslice]
    doubles a small capacity; the program raises to the power 2 only.
    [math.Cos] and [math.Sin] are replaced by the polynomials
    [1 - x^2/2 + x^4/24] and [x - x^3/6], which agree with them at [0]. *)

(** [for j := i; j > 0 && Less(j, j-1); j-- { Swap(j, j-1) }], then [k]. *)
Fixpoint insert_steps (j : nat) (k : sort_steps) : sort_steps :=
  match j with
  | 0 => k
  | S j' => CallLess (S j') j'
              (fun b => if b then CallSwap (S j') j' (insert_steps j' k) else k)
  end.

(** [for i := 1; i < n; i++ { ... }], over the list of the values of [i]. *)
Fixpoint insertion_steps (todo : list nat) : sort_steps :=
  match todo with
  | [] => SortDone
  | i :: r => insert_steps i (insertion_steps r)
  end.

#[export] Instance reference_runtime : GoRuntime :=
  {| nextslicecap := fun newLen oldCap =>
       if 2 * oldCap <? newLen then newLen else 2 * oldCap;
     sort_Sort_steps := fun n => insertion_steps (seq 1 (n - 1));
     math_Cos := fun x => (1 - x * x / 2 + x * x * x * x / 24)%float;
     math_Sin := fun x => (x - x * x * x / 6)%float;
     math_Pow := fun x y => if (y =? 2)%float then (x * x)%float else nan |}.

(** A runtime whose [sort.Sort] swaps the first two elements and stops. *)
Definition swapping_runtime : GoRuntime :=
  {| nextslicecap := fun newLen _ => newLen;
     sort_Sort_steps := fun n => if 2 <=? n then CallSwap 0 1 SortDone else SortDone;
     math_Cos := fun x => x;
     math_Sin := fun x => x;
     math_Pow := fun x _ => x |}.

(** * Part II: the vocabulary of the statements *)

(** ** Runs

    [wp m st Q E]: running [m] from [st] ends normally in a result and a
    state satisfying [Q], or panics in a state satisfying [E]. *)
Definition wp {A} (m : M A) (st : state) (Q : A -> state -> Prop)
    (E : state -> Prop) : Prop :=
  match m st with
  | Done a st' => Q a st'
  | Panic _ st' => E st'
  end.

(** What a run returned, if it returned. *)
Definition returned {A} (o : outcome A) : option A :=
  match o with Done a _ => Some a | Panic _ _ => None end.

(** ** The heap *)

(** [holds h s xs]: in heap [h], [s] is a well-formed slice (its backing
    array is there and has room for [cap s >= len s] elements) holding
    [xs]. *)
Definition holds {T} `{Elem T} (h : gmap loc obj) (s : slice) (xs : list T) : Prop :=
  exists l a, base s = Some l /\ h !! l = Some (inj a) /\
              take (len s) a = xs /\ len s <= cap s /\ cap s <= length a.

(** [polygon_at h p pts c]: in heap [h], [p] points to a polygon of color
    [c] whose [Points] slice holds [pts]. *)
Definition polygon_at (h : gmap loc obj) (p : ptr) (pts : list Point.t)
    (c : RGBA) : Prop :=
  exists l poly, p = Some l /\ h !! l = Some (OPolygon poly) /\
                 Polygon.Color poly = c /\ holds h (Polygon.Points poly) pts.

(** [scene_at h s m polys]: in heap [h], [s] points to a scene with matrix
    [m] whose [Objects] are, in order, polygons with the points and colors
    listed in [polys]. *)
Definition scene_at (h : gmap loc obj) (s : ptr) (m : Matrix.t)
    (polys : list (list Point.t * RGBA)) : Prop :=
  exists l sp ptrs,
    s = Some l /\ h !! l = Some (OSpace sp) /\ Space.Matrix sp = m /\
    holds h (Space.Objects sp) ptrs /\
    Forall2 (fun p pc => polygon_at h p (fst pc) (snd pc)) ptrs polys.

(** The matrix stored in the scene at [s]. *)
Definition stored_matrix (s : ptr) (st : state) : option Matrix.t :=
  match s with
  | Some l => match heap st !! l with
              | Some (OSpace sp) => Some (Space.Matrix sp)
              | _ => None
              end
  | None => None
  end.

(** [frames h0 m R]: started in any heap that extends [h0], [m] ends (or
    panics) in a heap that still extends [h0], so every array and struct of
    [h0] is where and what it was; a normal result satisfies [R]. *)
Definition frames (h0 : gmap loc obj) {A} (m : M A) (R : A -> Prop) : Prop :=
  forall st, h0 ⊆ heap st ->
    wp m st (fun a st' => h0 ⊆ heap st' /\ R a) (fun st' => h0 ⊆ heap st').

(** A pointer that is nil or was allocated after [h0]. *)
Definition local_to (h0 : gmap loc obj) (p : ptr) : Prop :=
  forall l, p = Some l -> l ∉ dom h0.

(** ** The drawing context *)

(** The calls one vertex costs, the calls of a whole outline, and the calls
    of a frame, polygon after polygon. *)
Definition vertex_calls (c : RGBA) (p : Point.t) : list call :=
  [SetColor c; Push (V (Point.X p) (Point.Y p))].

Definition build_calls (pts : list Point.t) (c : RGBA) : list call :=
  flat_map (vertex_calls c) (pts ++ [hd zeroPoint pts])
  ++ [PolygonCall 1; DrawCall].

Definition frame_calls (m : Matrix.t) (polys : list (list Point.t * RGBA)) : list call :=
  flat_map (fun pc => build_calls (map (matrixMultiply m) (fst pc)) (snd pc)) polys.

(** The vertices a sequence of calls pushes, each with the color that
    [imd.Color] has at that moment ([cur] to start with). *)
Fixpoint pushed (cur : option RGBA) (cs : list call) : list (Vec * option RGBA) :=
  match cs with
  | [] => []
  | SetColor c :: r => pushed (Some c) r
  | Push v :: r => (v, cur) :: pushed cur r
  | _ :: r => pushed cur r
  end.

(** ** The depth pass *)

(** The point set [Draw] builds for a polygon with points [pts]: the three
    zero points [make([]Point, 3)] starts with, then the transformed
    points that [append] adds. *)
Definition padded (m : Matrix.t) (pts : list Point.t) : list Point.t :=
  replicate 3 zeroPoint ++ map (matrixMultiply m) pts.

(** The sums [computeCentroid] accumulates, and the point it returns, as
    functions of the points the slice holds. *)
Definition coordinate_sums (pts : list Point.t) : float * float * float :=
  fold_left (fun '(sumX, sumY, sumZ) p =>
               (sumX + Point.X p, sumY + Point.Y p, sumZ + Point.Z p)%float)
            pts (0, 0, 0)%float.

Definition centroid_of (pts : list Point.t) : Point.t :=
  let n := float_of_len (length pts) in
  let '(sumX, sumY, sumZ) := coordinate_sums pts in
  Point.mk (sumX / n) (sumY / n) (sumZ / n).

(** A sorting run that only names indices below [n]. *)
Fixpoint steps_in_range (n : nat) (steps : sort_steps) : Prop :=
  match steps with
  | SortDone => True
  | CallLess i j k => i < n /\ j < n /\ forall b, steps_in_range n (k b)
  | CallSwap i j k => i < n /\ j < n /\ steps_in_range n k
  end.

(** While [sort.Sort] runs on the slice over the array at [lp], the heap
    is [h1] with that array, [a] to start with, rearranged; no call is made
    on the drawing context. *)
Definition sorting (h1 : gmap loc obj) (lp : loc) (a : list slice)
    (c0 : list call) (st : state) : Prop :=
  exists a', heap st = <[lp := OSets a']> h1 /\ a' ≡ₚ a /\ calls st = c0.

(** A stable sort of a list, for the order the specification describes:
    [before] lists the elements to the left of [x], nearest first. *)
Fixpoint sink {A} (less : A -> A -> bool) (x : A) (before : list A) : list A :=
  match before with
  | [] => [x]
  | y :: r => if less x y then y :: sink less x r else x :: y :: r
  end.

Definition sorted_by {A} (less : A -> A -> bool) (l : list A) : list A :=
  rev (fold_left (fun before x => sink less x before) l []).

(** The order the specification describes: the polygons' transformed
    points, sorted by descending distance from the centroid of exactly those
    points to the reference point. *)
Definition described_depth_order `{GoRuntime} (m : Matrix.t)
    (polys : list (list Point.t)) : list (list Point.t) :=
  sorted_by
    (fun a b => (euclideanDistance (centroid_of b) referencePoint
                 <? euclideanDistance (centroid_of a) referencePoint)%float)
    (map (map (matrixMultiply m)) polys).

(** The point sets of the local slice [polygons] when the depth pass of
    [Draw] is over, in their final order. *)
Definition depth_order `{GoRuntime} (s : ptr) : M (list (list Point.t)) :=
  polygons <- depth_pass s ;;
  h <- get_heap ;;
  ret (map (contents h) (contents (T:=slice) h polygons)).

(** ** Matrices *)

(** The product the specification describes for [rotate]: each row of the
    current matrix, as a row vector, times the delta matrix. *)
Definition rowTimesMatrix (v : Vector.t) (d : Matrix.t) : Vector.t :=
  let p := matrixMultiply d (Point.mk (Vector.X v) (Vector.Y v) (Vector.Z v)) in
  Vector.mk (Point.X p) (Point.Y p) (Point.Z p).

Definition matrixProduct (m d : Matrix.t) : Matrix.t :=
  Matrix.mk (rowTimesMatrix (Matrix.X m) d) (rowTimesMatrix (Matrix.Y m) d)
            (rowTimesMatrix (Matrix.Z m) d).

Definition rows (m : Matrix.t) : list (list float) :=
  map (fun v => [Vector.X v; Vector.Y v; Vector.Z v])
      [Matrix.X m; Matrix.Y m; Matrix.Z m].

(** Neither NaN nor an infinity. *)
Definition finite64 (x : float) : bool :=
  match Prim2SF x with
  | S754_zero _ | S754_finite _ _ _ => true
  | _ => false
  end.

(** [+0] or [-0]. *)
Definition zero64 (x : float) : bool :=
  match Prim2SF x with
  | S754_zero _ => true
  | _ => false
  end.

(** The same float, or two zeros that may differ in sign. *)
Definition same64 (x y : float) : Prop :=
  x = y \/ (zero64 x = true /\ zero64 y = true).

Definition finiteVector (v : Vector.t) : bool :=
  finite64 (Vector.X v) && finite64 (Vector.Y v) && finite64 (Vector.Z v).

Definition finiteMatrix (m : Matrix.t) : bool :=
  finiteVector (Matrix.X m) && finiteVector (Matrix.Y m) && finiteVector (Matrix.Z m).

(** Go's [==] on every entry. *)
Definition Vector_eqb (a b : Vector.t) : bool :=
  (Vector.X a =? Vector.X b)%float && (Vector.Y a =? Vector.Y b)%float
  && (Vector.Z a =? Vector.Z b)%float.

Definition Matrix_eqb (a b : Matrix.t) : bool :=
  Vector_eqb (Matrix.X a) (Matrix.X b) && Vector_eqb (Matrix.Y a) (Matrix.Y b)
  && Vector_eqb (Matrix.Z a) (Matrix.Z b).

(** A matrix with [1] on the diagonal and a zero of either sign elsewhere. *)
Definition unit_like (r : Matrix.t) : Prop :=
  Vector.X (Matrix.X r) = 1%float /\ zero64 (Vector.Y (Matrix.X r)) = true /\
  zero64 (Vector.Z (Matrix.X r)) = true /\
  zero64 (Vector.X (Matrix.Y r)) = true /\ Vector.Y (Matrix.Y r) = 1%float /\
  zero64 (Vector.Z (Matrix.Y r)) = true /\
  zero64 (Vector.X (Matrix.Z r)) = true /\ zero64 (Vector.Y (Matrix.Z r)) = true /\
  Vector.Z (Matrix.Z r) = 1%float.

(** ** Examples to run the program on *)

Definition black : RGBA := mkRGBA 0 0 0 255.
Definition red : RGBA := mkRGBA 255 0 0 255.
Definition empty_state : state := State ∅ [].

Definition far_triangle : list Point.t :=
  [Point.mk (-1) 0 400; Point.mk 1 0 400; Point.mk 0 1 400].
Definition near_triangle : list Point.t :=
  [Point.mk (-1) 0 100; Point.mk 1 0 100; Point.mk 0 1 100].

(** A scene set up the way [run] does it: the far triangle is added first,
    the near one second. *)
Definition two_triangles `{GoRuntime} : M ptr :=
  space <- NewSpace ;;
  far <- literal far_triangle ;;
  p1 <- NewPolygon far black ;;
  Space_AddObject space p1 ;;
  near <- literal near_triangle ;;
  p2 <- NewPolygon near red ;;
  Space_AddObject space p2 ;;
  ret space.

Definition scene_state : state := final (two_triangles empty_state).

(** A heap with one three-point array. *)
Definition literal_state : state := final (literal far_triangle empty_state).

(** The state of [two_triangles] just before its first [NewPolygon]: the
    new scene and the array of the far triangle; and the state right after
    that [NewPolygon]. *)
Definition far_points_state : state :=
  final ((space <- NewSpace ;; literal far_triangle) empty_state).

Definition far_polygon_state : state :=
  final (NewPolygon (Slice (Some 2%positive) 3 3) black far_points_state).

(** [==] on the three coordinates. *)
Definition Point_eqb (a b : Point.t) : bool :=
  (Point.X a =? Point.X b)%float && (Point.Y a =? Point.Y b)%float
  && (Point.Z a =? Point.Z b)%float.

(** A scene whose matrix has an infinite entry. *)
Definition infinite_matrix : Matrix.t :=
  Matrix.mk (Vector.mk infinity 0 0) (Vector.mk 0 1 0) (Vector.mk 0 0 1).

Definition infinite_scene : state :=
  State {[ 1%positive := OSpace (Space.mk infinite_matrix nil_slice) ]} [].

(** ** Further vocabulary *)

(** [lists h s xs]: [s] holds [xs] in [h], or [s] is an empty slice without
    room (as the nil slice is) and [xs] is empty. *)
Definition lists {T} `{Elem T} (h : gmap loc obj) (s : slice) (xs : list T) : Prop :=
  holds h s xs \/ (len s = 0 /\ cap s = 0 /\ xs = []).

(** [scene_at], for a scene whose [Objects] may still be the nil slice. *)
Definition scene_with (h : gmap loc obj) (s : ptr) (m : Matrix.t)
    (polys : list (list Point.t * RGBA)) : Prop :=
  exists l sp ptrs,
    s = Some l /\ h !! l = Some (OSpace sp) /\ Space.Matrix sp = m /\
    lists h (Space.Objects sp) ptrs /\
    Forall2 (fun p pc => polygon_at h p (fst pc) (snd pc)) ptrs polys.

(** An address that holds a scene or an array of polygon pointers, or
    nothing yet. *)
Definition no_polygon_data (h : gmap loc obj) (l : loc) : Prop :=
  forall o, h !! l = Some o -> (exists sp, o = OSpace sp) \/ (exists a, o = OPtrs a).

(** The matrices [RotateX], [RotateY] and [RotateZ] build. *)
Definition rotationX `{GoRuntime} (angle : float) : Matrix.t :=
  Matrix.mk (Vector.mk 1 0 0)
            (Vector.mk 0 (math_Cos angle) (math_Sin angle))
            (Vector.mk 0 (- math_Sin angle) (math_Cos angle)).

Definition rotationY `{GoRuntime} (angle : float) : Matrix.t :=
  Matrix.mk (Vector.mk (math_Cos angle) 0 (- math_Sin angle))
            (Vector.mk 0 1 0)
            (Vector.mk (math_Sin angle) 0 (math_Cos angle)).

(** The vertices of the outline of a polygon under the matrix [m]: every
    point times [m], then the first one again, without [Z], in the
    polygon's color. *)
Definition outline_vertices (m : Matrix.t) (pc : list Point.t * RGBA)
    : list (Vec * option RGBA) :=
  let transformed := map (matrixMultiply m) (fst pc) in
  map (fun p => (V (Point.X p) (Point.Y p), Some (snd pc)))
      (transformed ++ [hd zeroPoint transformed]).

(** The polygons [run] adds to its scene: three axes, then the floor and
    the four sides of the pyramid. *)
Definition run_polys : list (list Point.t * RGBA) :=
  let p1 := Point.mk (-50) 0 (-50) in
  let p2 := Point.mk 0 100 0 in
  let p3 := Point.mk 50 0 (-50) in
  let p4 := Point.mk (-50) 0 50 in
  let p5 := Point.mk 50 0 50 in
  [([Point.mk (-300) 0 0; Point.mk (-300) 0 0; Point.mk 300 0 0], colornames_Black);
   ([Point.mk 0 (-300) 0; Point.mk 0 (-300) 0; Point.mk 0 300 0], colornames_Black);
   ([Point.mk 0 0 300; Point.mk 0 0 300; Point.mk 0 0 (-300)], colornames_Black);
   ([p1; p4; p5], colornames_Black);
   ([p1; p2; p4], colornames_Aliceblue);
   ([p2; p3; p5], colornames_Aliceblue);
   ([p1; p2; p3], colornames_Aliceblue);
   ([p2; p4; p5], colornames_Aliceblue)].

(** The matrix of the scene after [turns] turns of the loop of [run]. *)
Definition matrix_after `{GoRuntime} (turns : nat) (m : Matrix.t) : Matrix.t :=
  Nat.iter turns (fun m' => matrixProduct m' (rotationY 0x1.0e5604189374cp-5)) m.

(** The array of a slice after [Swap(i, j)], given the array before. *)
Definition swapped {A} (i j : nat) (a : list A) : list A :=
  match a !! i, a !! j with
  | Some x, Some y => <[j := x]> (<[i := y]> a)
  | _, _ => a
  end.

(** ** Further examples *)

(** A [[]PointsSet] of two point sets, and a [ByCentroidDistance] over it. *)
Definition sets_example : M slice :=
  far <- literal far_triangle ;;
  near <- literal near_triangle ;;
  literal [far; near].

Definition sets_state : state := final (sets_example empty_state).

Definition sets_bd : ByCentroidDistance.t :=
  ByCentroidDistance.mk (Slice (Some 3%positive) 2 2) referencePoint.

(** A heap with a polygon made as [&Polygon{Color: black}], without
    [NewPolygon]: it has no points. *)
Definition pointless_state : state :=
  State {[ 1%positive := OPolygon (Polygon.mk nil_slice black) ]} [].

(** The heap right after [NewSpace()]. *)
Definition new_space_state : state := final (NewSpace empty_state).

(** The scene of two triangles after [AddObject(nil)]. *)
Definition nil_object_state : state :=
  final ((space <- two_triangles ;; Space_AddObject space None) empty_state).

(** ** Runs that panic

    [panics m st E]: running [m] from [st] panics, with a message and in a
    state satisfying [E]. *)
Definition panics {A} (m : M A) (st : state) (E : string -> state -> Prop) : Prop :=
  match m st with
  | Done _ _ => False
  | Panic msg st' => E msg st'
  end.

(** The scene of two triangles with a third polygon that has no points,
    made as [&Polygon{Points: make([]Point, 0), Color: red}]. *)
Definition pointless_scene `{GoRuntime} : M ptr :=
  space <- two_triangles ;;
  points <- make (T:=Point.t) 0 ;;
  polygon <- new (OPolygon (Polygon.mk points red)) ;;
  Space_AddObject space (Some polygon) ;;
  ret space.

Definition pointless_scene_state : state := final (pointless_scene empty_state).

(** * Part III: lemmas *)

(** ** Rules for runs *)

Lemma wp_ret {A} (a : A) st (Q : A -> state -> Prop) E :
  Q a st -> wp (ret a) st Q E.
Proof. exact id. Qed.

Lemma wp_panic {A} msg st (Q : A -> state -> Prop) (E : state -> Prop) :
  E st -> wp (panic msg) st Q E.
Proof. exact id. Qed.

Lemma wp_bind {A B} (m : M A) (k : A -> M B) st Q E :
  wp m st (fun a st' => wp (k a) st' Q E) E -> wp (bind m k) st Q E.
Proof. unfold wp, bind. destruct (m st); auto. Qed.

Lemma wp_conseq {A} (m : M A) st (Q Q' : A -> state -> Prop) (E E' : state -> Prop) :
  wp m st Q E ->
  (forall a st', Q a st' -> Q' a st') ->
  (forall st', E st' -> E' st') ->
  wp m st Q' E'.
Proof. unfold wp. destruct (m st); auto. Qed.

Lemma wp_Done {A} (m : M A) st (Q : A -> state -> Prop) :
  wp m st Q (fun _ => False) -> exists a st', m st = Done a st' /\ Q a st'.
Proof. unfold wp. destruct (m st); [eauto | tauto]. Qed.

Lemma wp_new o st (Q : loc -> state -> Prop) E :
  (forall l, l ∉ dom (heap st) ->
             Q l (State (<[l := o]> (heap st)) (calls st))) ->
  wp (new o) st Q E.
Proof. intros HQ. apply HQ, is_fresh. Qed.

Lemma wp_deref l o st (Q : obj -> state -> Prop) E :
  heap st !! l = Some o -> Q o st -> wp (deref (Some l)) st Q E.
Proof. unfold wp, deref. intros ->. auto. Qed.

Lemma wp_write l o o' st (Q : unit -> state -> Prop) E :
  heap st !! l = Some o' ->
  Q tt (State (<[l := o]> (heap st)) (calls st)) ->
  wp (write (Some l) o) st Q E.
Proof. unfold wp, write. intros ->. auto. Qed.

Lemma wp_emit c st (Q : unit -> state -> Prop) E :
  Q tt (State (heap st) (calls st ++ [c])) -> wp (emit c) st Q E.
Proof. exact id. Qed.

(** The loop rule: [I done b st] holds after the iterations over [done]. *)
Lemma wp_for_fold_from {A B} (I : list A -> B -> state -> Prop) E
    (body : A -> B -> M B) (todo done : list A) b st :
  I done b st ->
  (forall pre x b st, (exists post, done ++ todo = pre ++ x :: post) ->
     I pre b st -> wp (body x b) st (fun b' st' => I (pre ++ [x]) b' st') E) ->
  wp (for_fold todo b body) st (fun b' st' => I (done ++ todo) b' st') E.
Proof.
  revert done b st. induction todo as [|x todo IH]; intros done b st HI Hbody; simpl.
  - rewrite app_nil_r. apply wp_ret, HI.
  - apply wp_bind.
    eapply wp_conseq; [apply (Hbody done x b st); eauto | | auto].
    intros b' st' HI'. simpl in HI'.
    replace (done ++ x :: todo) with ((done ++ [x]) ++ todo)
      by (rewrite <- app_assoc; reflexivity).
    apply IH; [exact HI'|].
    intros pre y b0 st0 [post Hpost] Hpre. apply Hbody; [|exact Hpre].
    exists post. rewrite <- Hpost, <- app_assoc. reflexivity.
Qed.

Lemma wp_for_fold {A B} (I : list A -> B -> state -> Prop) E
    (body : A -> B -> M B) (l : list A) b st :
  I [] b st ->
  (forall pre x b st, (exists post, l = pre ++ x :: post) ->
     I pre b st -> wp (body x b) st (fun b' st' => I (pre ++ [x]) b' st') E) ->
  wp (for_fold l b body) st (fun b' st' => I l b' st') E.
Proof. intros. apply (wp_for_fold_from I E body l []); auto. Qed.

(** ** Slices in the heap *)

Section SliceRules.
Context {T : Type} `{Elem T}.

Lemma holds_length h s (xs : list T) : holds h s xs -> length xs = len s.
Proof.
  intros (l & a & _ & _ & <- & Hlen & Hcap). rewrite length_take. lia.
Qed.

Lemma holds_mono h h' s (xs : list T) : h ⊆ h' -> holds h s xs -> holds h' s xs.
Proof.
  intros Hsub (l & a & Hb & Hl & Hrest). exists l, a.
  split; [exact Hb|]. split; [|exact Hrest].
  eapply lookup_weaken; eauto.
Qed.

Lemma holds_contents h s (xs : list T) : holds h s xs -> contents h s = xs.
Proof.
  intros (l & a & Hb & Hl & Hxs & _). unfold contents.
  rewrite Hb, Hl, proj_inj. exact Hxs.
Qed.

(** Writing at another address leaves a slice as it was. *)
Lemma holds_insert_ne h s (xs : list T) l o :
  base s <> Some l -> holds h s xs -> holds (<[l := o]> h) s xs.
Proof.
  intros Hne (l' & a & Hb & Hl & Hrest). exists l', a.
  split; [exact Hb|]. split; [|exact Hrest].
  rewrite lookup_insert_ne; [exact Hl|]. congruence.
Qed.

Lemma wp_array_of s l a st (Q : list T -> state -> Prop) E :
  base s = Some l -> heap st !! l = Some (inj a) -> Q a st ->
  wp (array_of s) st Q E.
Proof.
  intros Hb Hl HQ. unfold array_of. apply wp_bind. rewrite Hb.
  eapply wp_deref; [exact Hl|]. rewrite proj_inj. apply wp_ret, HQ.
Qed.

Lemma wp_index s xs i x st (Q : T -> state -> Prop) E :
  holds (heap st) s xs -> xs !! i = Some x -> Q x st ->
  wp (index s i) st Q E.
Proof.
  intros (l & a & Hb & Hl & Hxs & Hlen & Hcap) Hi HQ. unfold index.
  assert (i < len s) as Hlt.
  { apply lookup_lt_Some in Hi. rewrite <- Hxs, length_take in Hi. lia. }
  apply Nat.ltb_lt in Hlt as ->.
  apply wp_bind. eapply wp_array_of; eauto.
  rewrite <- Hxs in Hi. rewrite lookup_take_Some in Hi. destruct Hi as [-> _].
  apply wp_ret, HQ.
Qed.

Lemma wp_set_index s l a i v st (Q : unit -> state -> Prop) E :
  base s = Some l -> heap st !! l = Some (inj a) -> i < len s ->
  Q tt (State (<[l := inj (<[i := v]> a)]> (heap st)) (calls st)) ->
  wp (set_index s i v) st Q E.
Proof.
  intros Hb Hl Hlt HQ. unfold set_index.
  apply Nat.ltb_lt in Hlt as ->.
  apply wp_bind. eapply wp_array_of; eauto.
  rewrite Hb. eapply wp_write; eauto.
Qed.

Lemma wp_make n st (Q : slice -> state -> Prop) E :
  (forall l, l ∉ dom (heap st) ->
     Q (Slice (Some l) n n)
       (State (<[l := inj (replicate n zero)]> (heap st)) (calls st))) ->
  wp (make n) st Q E.
Proof.
  intros HQ. unfold make. apply wp_bind, wp_new. intros l Hl.
  apply wp_ret, HQ, Hl.
Qed.

Lemma seq_split_at n pre (x : nat) post :
  seq 0 n = pre ++ x :: post -> x = length pre /\ x < n.
Proof.
  intros Heq.
  assert (seq 0 n !! length pre = Some x) as Hx.
  { rewrite Heq. rewrite lookup_app_r by lia. rewrite Nat.sub_diag. reflexivity. }
  apply lookup_seq in Hx. lia.
Qed.

(** The rule for [range]: [I k b st] holds when [k] elements are done. *)
Lemma wp_range_fold {B} (I : nat -> B -> state -> Prop) E s (xs : list T)
    (body : nat -> T -> B -> M B) b st :
  length xs = len s ->
  I 0 b st ->
  (forall k b st, k < len s -> I k b st -> holds (heap st) s xs) ->
  (forall k x b st, xs !! k = Some x -> I k b st ->
     wp (body k x b) st (I (S k)) E) ->
  wp (range_fold s b body) st (I (len s)) E.
Proof.
  intros Hlen H0 Hholds Hbody. unfold range_fold.
  eapply wp_conseq;
    [apply (wp_for_fold (fun done b st => I (length done) b st) E) | | auto].
  - exact H0.
  - intros pre k b0 st0 [post Hsplit] Hpre.
    apply seq_split_at in Hsplit as [-> Hlt].
    destruct (lookup_lt_is_Some_2 xs (length pre)) as [x Hx]; [lia|].
    apply wp_bind. eapply wp_index; eauto.
    rewrite length_app, Nat.add_1_r. apply Hbody; auto.
  - intros b' st'. rewrite length_seq. auto.
Qed.

End SliceRules.

(** ** Polygons and scenes in the heap *)

Lemma polygon_at_mono h h' p pts c :
  h ⊆ h' -> polygon_at h p pts c -> polygon_at h' p pts c.
Proof.
  intros Hsub (l & poly & Hp & Hl & Hc & Hpts). exists l, poly.
  repeat split; auto.
  - eapply lookup_weaken; eauto.
  - eapply holds_mono; eauto.
Qed.

Lemma scene_at_mono h h' s m polys :
  h ⊆ h' -> scene_at h s m polys -> scene_at h' s m polys.
Proof.
  intros Hsub (l & sp & ptrs & Hs & Hl & Hm & Hobjs & Hpolys).
  exists l, sp, ptrs. repeat split; auto.
  - eapply lookup_weaken; eauto.
  - eapply holds_mono; eauto.
  - eapply Forall2_impl; [exact Hpolys|]. intros p pc. apply polygon_at_mono, Hsub.
Qed.

Section ProgramRules.
Context `{GoRuntime}.

Lemma wp_load_Polygon l poly st (Q : Polygon.t -> state -> Prop) E :
  heap st !! l = Some (OPolygon poly) -> Q poly st ->
  wp (load_Polygon (Some l)) st Q E.
Proof.
  intros Hl HQ. unfold load_Polygon. apply wp_bind.
  eapply wp_deref; eauto.
Qed.

Lemma wp_load_Space l sp st (Q : Space.t -> state -> Prop) E :
  heap st !! l = Some (OSpace sp) -> Q sp st ->
  wp (load_Space (Some l)) st Q E.
Proof.
  intros Hl HQ. unfold load_Space. apply wp_bind.
  eapply wp_deref; eauto.
Qed.

Lemma insert_transformed {A B} (f : A -> B) (z : B) (pts : list A) k x :
  pts !! k = Some x ->
  <[k := f x]> (map f (take k pts) ++ replicate (length pts - k) z)
  = map f (take (S k) pts) ++ replicate (length pts - S k) z.
Proof.
  intros Hk. pose proof (lookup_lt_Some _ _ _ Hk) as Hlt.
  assert (length (map f (take k pts)) = k) as Hlen
    by (rewrite length_map, length_take; lia).
  rewrite insert_app_r_alt by lia. rewrite Hlen, Nat.sub_diag.
  replace (length pts - k) with (S (length pts - S k)) by lia. simpl.
  erewrite take_S_r by eauto. rewrite map_app, <- app_assoc. reflexivity.
Qed.

(** [Transform] allocates the new points and the new polygon, and writes
    nowhere else. *)
Lemma wp_Polygon_Transform l poly pts m st :
  heap st !! l = Some (OPolygon poly) ->
  holds (heap st) (Polygon.Points poly) pts ->
  wp (Polygon_Transform (Some l) m) st
     (fun q st' => exists ln lq,
        q = Some lq /\ (ln ∉ dom (heap st)) /\ (lq ∉ dom (heap st)) /\ ln <> lq /\
        calls st' = calls st /\
        heap st' =
          <[lq := OPolygon (Polygon.mk (Slice (Some ln) (length pts) (length pts))
                                        (Polygon.Color poly))]>
            (<[ln := OPoints (map (matrixMultiply m) pts)]> (heap st)))
     (fun _ => False).
Proof.
  intros Hl Hpts. pose proof (holds_length _ _ _ Hpts) as Hlen.
  unfold Polygon_Transform.
  apply wp_bind. eapply wp_load_Polygon; eauto.
  apply wp_bind. apply wp_make. intros ln Hln. rewrite <- Hlen.
  assert (l <> ln) as Hne.
  { intros ->. apply Hln, elem_of_dom. eauto. }
  apply wp_bind. eapply wp_load_Polygon.
  { simpl. rewrite lookup_insert_ne by congruence. eauto. }
  apply wp_bind. unfold range.
  set (I := fun (k : nat) (_ : unit) (st' : state) =>
              calls st' = calls st /\
              heap st' = <[ln := OPoints (map (matrixMultiply m) (take k pts)
                                          ++ replicate (length pts - k) zeroPoint)]>
                           (heap st)).
  eapply wp_conseq;
    [apply (wp_range_fold I (fun _ => False)) with (xs := pts) | | auto].
  - exact Hlen.
  - split; [reflexivity|]. simpl. rewrite Nat.sub_0_r. reflexivity.
  - intros k b st' _ [_ Hh]. rewrite Hh.
    apply holds_mono with (h := heap st); [|exact Hpts].
    apply insert_subseteq, not_elem_of_dom, Hln.
  - intros k x b st' Hk [Hc Hh].
    eapply wp_set_index with (l := ln); [reflexivity | | | ].
    + rewrite Hh, lookup_insert_eq. reflexivity.
    + simpl. apply lookup_lt_Some in Hk. lia.
    + split; [exact Hc|]. simpl. rewrite Hh, insert_insert_eq.
      f_equal. f_equal. apply (insert_transformed (matrixMultiply m)). exact Hk.
  - intros _ st' [Hc Hh]. rewrite <- Hlen, firstn_all, Nat.sub_diag in Hh.
    simpl in Hh. rewrite app_nil_r in Hh.
    apply wp_bind. eapply wp_load_Polygon.
    { rewrite Hh, lookup_insert_ne by congruence. eauto. }
    apply wp_bind, wp_new. intros lq Hlq. apply wp_ret.
    rewrite Hh, dom_insert_L in Hlq.
    exists ln, lq. simpl. rewrite Hh.
    repeat split; auto; set_solver.
Qed.

(** [build] only reads the heap, and makes the calls of [build_calls]. *)
Lemma wp_Polygon_build l poly pts st :
  heap st !! l = Some (OPolygon poly) ->
  holds (heap st) (Polygon.Points poly) pts ->
  pts <> [] ->
  wp (Polygon_build (Some l)) st
     (fun _ st' => heap st' = heap st /\
                   calls st' = calls st ++ build_calls pts (Polygon.Color poly))
     (fun _ => False).
Proof.
  intros Hl Hpts Hne. pose proof (holds_length _ _ _ Hpts) as Hlen.
  set (c := Polygon.Color poly).
  unfold Polygon_build.
  apply wp_bind. eapply wp_load_Polygon; eauto.
  apply wp_bind. unfold range.
  set (I := fun (k : nat) (_ : unit) (st' : state) =>
              heap st' = heap st /\
              calls st' = calls st ++ flat_map (vertex_calls c) (take k pts)).
  eapply wp_conseq;
    [apply (wp_range_fold I (fun _ => False)) with (xs := pts) | | auto].
  - exact Hlen.
  - split; [reflexivity|]. simpl. rewrite app_nil_r. reflexivity.
  - intros k b st' _ [Hh _]. rewrite Hh. exact Hpts.
  - intros k x b st' Hk [Hh Hc].
    apply wp_bind. eapply wp_load_Polygon; [rewrite Hh; eauto|].
    apply wp_bind, wp_emit, wp_emit. split; [exact Hh|]. simpl.
    rewrite Hc. erewrite take_S_r by eauto.
    rewrite flat_map_app, <- !app_assoc. reflexivity.
  - intros _ st' [Hh Hc]. rewrite <- Hlen, firstn_all in Hc.
    destruct pts as [|first rest]; [congruence|].
    assert (holds (heap st') (Polygon.Points poly) (first :: rest)) as Hpts'
      by (rewrite Hh; exact Hpts).
    apply wp_bind. eapply wp_load_Polygon; [rewrite Hh; eauto|].
    apply wp_bind, wp_emit.
    apply wp_bind. eapply wp_load_Polygon; [simpl; rewrite Hh; eauto|].
    apply wp_bind. eapply wp_index; [exact Hpts' | reflexivity |].
    apply wp_bind. eapply wp_load_Polygon; [simpl; rewrite Hh; eauto|].
    apply wp_bind. eapply wp_index; [exact Hpts' | reflexivity |].
    apply wp_bind, wp_emit, wp_bind, wp_emit, wp_emit.
    split; [exact Hh|]. simpl. rewrite Hc. unfold build_calls. simpl.
    rewrite !flat_map_app. simpl. rewrite <- !app_assoc. reflexivity.
Qed.

End ProgramRules.

Section AppendRule.
Context `{GoRuntime} {T : Type} `{Elem T}.

Lemma wp_append s (xs : list T) v st (Q : slice -> state -> Prop) E :
  holds (heap st) s xs ->
  (forall l' a' c',
     base s = Some l' \/ l' ∉ dom (heap st) ->
     take (S (len s)) a' = xs ++ [v] ->
     S (len s) <= c' -> c' <= length a' ->
     Q (Slice (Some l') (S (len s)) c')
       (State (<[l' := inj a']> (heap st)) (calls st))) ->
  wp (append s v) st Q E.
Proof.
  intros (l & a & Hb & Hl & Hxs & Hlen & Hcap) HQ. unfold append.
  destruct (len s <? cap s) eqn:Hroom.
  - apply Nat.ltb_lt in Hroom.
    apply wp_bind. eapply wp_array_of; eauto.
    apply wp_bind. rewrite Hb. eapply wp_write; eauto.
    apply wp_ret. apply HQ; [auto | | lia | rewrite length_insert; lia].
    erewrite take_S_r by (apply list_lookup_insert_eq; lia).
    rewrite take_insert_ge by lia. rewrite Hxs. reflexivity.
  - apply Nat.ltb_ge in Hroom.
    set (old := if len s =? 0 then ret [] else array_of s).
    assert (wp old st (fun o st' => st' = st /\ take (len s) o = xs
                                    /\ length (take (len s) o) = len s) E) as Hold.
    { unfold old. destruct (len s =? 0) eqn:Hz.
      - apply Nat.eqb_eq in Hz. apply wp_ret. rewrite Hz in *.
        rewrite take_0 in Hxs. subst xs. auto.
      - eapply wp_array_of; eauto. repeat split; auto.
        rewrite length_take. lia. }
    apply wp_bind. eapply wp_conseq; [exact Hold | | auto].
    intros o st' (-> & Ho & Holen). simpl.
    apply wp_bind, wp_new. intros l' Hl'. apply wp_ret.
    apply HQ; [auto | | lia |].
    + rewrite take_app_ge by lia. rewrite Holen, Ho.
      replace (S (len s) - len s) with 1 by lia. reflexivity.
    + rewrite length_app, Holen. simpl. rewrite length_replicate. lia.
Qed.

End AppendRule.

(** ** The depth pass of [Draw] *)

Section DrawRules.
Context `{GoRuntime}.

(** A point set is not disturbed by a write to an array of point sets. *)
Lemma holds_points_insert_sets h sl (xs : list Point.t) lp a a' :
  h !! lp = Some (OSets a) -> holds h sl xs ->
  holds (<[lp := OSets a']> h) sl xs.
Proof.
  intros Hlp Hh. apply holds_insert_ne; [|exact Hh].
  destruct Hh as (l & b & Hb & Hl & _). rewrite Hb. intros [= ->].
  rewrite Hl in Hlp. discriminate.
Qed.

(** The inner loop of [Draw]: it appends the transformed points to the
    local slice [points] and writes only to arrays allocated after [hb]. *)
Lemma wp_append_transformed hb ls sp poly pts points ys st :
  hb !! ls = Some (OSpace sp) ->
  holds hb (Polygon.Points poly) pts ->
  hb ⊆ heap st ->
  holds (heap st) points ys ->
  (exists lq, base points = Some lq /\ lq ∉ dom hb) ->
  wp (range_fold (Polygon.Points poly) points (fun _ point points =>
        sp <- load_Space (Some ls) ;;
        append points (matrixMultiply (Space.Matrix sp) point))) st
     (fun points' st' =>
        hb ⊆ heap st' /\ calls st' = calls st /\
        holds (heap st') points' (ys ++ map (matrixMultiply (Space.Matrix sp)) pts) /\
        exists lq, base points' = Some lq /\ lq ∉ dom hb)
     (fun _ => False).
Proof.
  intros Hls Hpts Hsub Hys Hloc.
  pose proof (holds_length _ _ _ Hpts) as Hlen.
  set (J := fun (j : nat) (points' : slice) (st' : state) =>
              hb ⊆ heap st' /\ calls st' = calls st /\
              holds (heap st') points'
                    (ys ++ map (matrixMultiply (Space.Matrix sp)) (take j pts)) /\
              exists lq, base points' = Some lq /\ lq ∉ dom hb).
  eapply wp_conseq;
    [apply (wp_range_fold J (fun _ => False)) with (xs := pts) | | auto].
  - exact Hlen.
  - unfold J. simpl. rewrite app_nil_r. auto.
  - intros k b st' _ (Hsub' & _). eapply holds_mono; eauto.
  - intros k x points' st' Hk (Hsub' & Hc & Hys' & lq & Hbq & Hlq).
    apply wp_bind. eapply wp_load_Space; [eapply lookup_weaken; eauto|].
    eapply wp_append; [exact Hys'|].
    intros l' a' c' Hl' Htake Hc1 Hc2.
    assert (l' ∉ dom hb) as Hfresh.
    { destruct Hl' as [Hl' | Hl'].
      - rewrite Hbq in Hl'. injection Hl' as <-. exact Hlq.
      - intros Hin. apply Hl'. exact (subseteq_dom _ _ Hsub' _ Hin). }
    unfold J. simpl. split; [|split; [exact Hc|split]].
    + apply insert_subseteq_r; [|exact Hsub']. apply not_elem_of_dom, Hfresh.
    + exists l', a'. simpl. rewrite lookup_insert_eq.
      repeat split; auto.
      rewrite Htake. erewrite take_S_r by eauto.
      rewrite map_app, app_assoc. reflexivity.
    + exists l'. auto.
  - intros points' st' HJ. unfold J in HJ.
    rewrite <- Hlen, firstn_all in HJ. exact HJ.
Qed.

(** The first half of [Draw]: it leaves every array and struct of [h0] as
    it was, makes no call, and ends with the array of the local slice
    [polygons] holding the padded point sets in the order [sort.Sort] left
    them in. *)
Lemma coordinate_sums_snoc pts p :
  coordinate_sums (pts ++ [p])
  = (let '(sumX, sumY, sumZ) := coordinate_sums pts in
     (sumX + Point.X p, sumY + Point.Y p, sumZ + Point.Z p)%float).
Proof.
  unfold coordinate_sums. rewrite fold_left_app. simpl.
  destruct (fold_left _ pts _) as [[sumX sumY] sumZ]. reflexivity.
Qed.

(** [computeCentroid] only reads, and returns [centroid_of] the points the
    slice holds. *)
Lemma wp_computeCentroid s xs st (Q : Point.t -> state -> Prop) E :
  holds (heap st) s xs -> Q (centroid_of xs) st ->
  wp (computeCentroid s) st Q E.
Proof.
  intros Hxs HQ. pose proof (holds_length _ _ _ Hxs) as Hlen.
  unfold computeCentroid. apply wp_bind.
  set (I := fun (k : nat) (sums : float * float * float) (st' : state) =>
              st' = st /\ sums = coordinate_sums (take k xs)).
  eapply wp_conseq; [apply (wp_range_fold I E) with (xs := xs) | | auto].
  - exact Hlen.
  - split; reflexivity.
  - intros k b st' _ [-> _]. exact Hxs.
  - intros k p [[sumX sumY] sumZ] st' Hk [-> Hsums]. apply wp_ret.
    split; [reflexivity|]. erewrite take_S_r by eauto.
    rewrite coordinate_sums_snoc, <- Hsums. reflexivity.
  - intros sums st' [-> Hsums]. rewrite <- Hlen, firstn_all in Hsums.
    unfold centroid_of in HQ. rewrite <- Hsums, Hlen in HQ.
    destruct sums as [[sumX sumY] sumZ]. apply wp_ret, HQ.
Qed.

Section SortRules.
Variables (h1 : gmap loc obj) (lp : loc) (a : list slice) (refPoint : Point.t).
Variable c0 : list call.
Let sorting := sorting h1 lp a c0.
Hypothesis Hlp : h1 !! lp = Some (OSets a).
Hypothesis Hsets : forall sl, sl ∈ a -> exists xs : list Point.t, holds h1 sl xs.

Let bd : ByCentroidDistance.t :=
  ByCentroidDistance.mk (Slice (Some lp) (length a) (length a)) refPoint.

Lemma sorting_holds_ps st a' :
  heap st = <[lp := OSets a']> h1 -> a' ≡ₚ a ->
  holds (heap st) (ByCentroidDistance.ps bd) a'.
Proof.
  intros Hh Hperm. exists lp, a'. simpl. rewrite Hh, lookup_insert_eq.
  apply Permutation_length in Hperm. rewrite <- Hperm, firstn_all. auto.
Qed.

Lemma sorting_holds_set st a' sl :
  heap st = <[lp := OSets a']> h1 -> a' ≡ₚ a -> sl ∈ a' ->
  exists xs : list Point.t, holds (heap st) sl xs.
Proof.
  intros Hh Hperm Hin. rewrite Hperm in Hin.
  destruct (Hsets sl Hin) as [xs Hxs]. exists xs. rewrite Hh.
  eapply holds_points_insert_sets; eauto.
Qed.

Lemma wp_Less `{GoRuntime} i j st (Q : bool -> state -> Prop) E :
  sorting st -> i < length a -> j < length a ->
  (forall b, Q b st) ->
  wp (ByCentroidDistance_Less bd i j) st Q E.
Proof.
  intros (a' & Hh & Hperm & Hc) Hi Hj HQ. simpl in Hh.
  pose proof (sorting_holds_ps st a' Hh Hperm) as Hps.
  pose proof (Permutation_length Hperm) as Hlen.
  destruct (lookup_lt_is_Some_2 a' i) as [psI HpsI]; [lia|].
  destruct (lookup_lt_is_Some_2 a' j) as [psJ HpsJ]; [lia|].
  destruct (sorting_holds_set st a' psI Hh Hperm) as [xsI HxsI];
    [eapply list_elem_of_lookup_2; eauto|].
  destruct (sorting_holds_set st a' psJ Hh Hperm) as [xsJ HxsJ];
    [eapply list_elem_of_lookup_2; eauto|].
  unfold ByCentroidDistance_Less.
  apply wp_bind. eapply wp_index; [exact Hps | exact HpsI |].
  apply wp_bind. eapply wp_computeCentroid; [exact HxsI|].
  apply wp_bind. eapply wp_index; [exact Hps | exact HpsJ |].
  apply wp_bind. eapply wp_computeCentroid; [exact HxsJ|].
  apply wp_ret, HQ.
Qed.

Lemma wp_Swap i j st (Q : unit -> state -> Prop) E :
  sorting st -> i < length a -> j < length a ->
  (forall st', sorting st' -> Q tt st') ->
  wp (ByCentroidDistance_Swap bd i j) st Q E.
Proof.
  intros (a' & Hh & Hperm & Hc) Hi Hj HQ. simpl in Hh.
  pose proof (sorting_holds_ps st a' Hh Hperm) as Hps.
  pose proof (Permutation_length Hperm) as Hlen.
  destruct (lookup_lt_is_Some_2 a' i) as [psI HpsI]; [lia|].
  destruct (lookup_lt_is_Some_2 a' j) as [psJ HpsJ]; [lia|].
  unfold ByCentroidDistance_Swap.
  apply wp_bind. eapply wp_index; [exact Hps | exact HpsJ |].
  apply wp_bind. eapply wp_index; [exact Hps | exact HpsI |].
  apply wp_bind.
  eapply wp_set_index with (l := lp) (a := a');
    [reflexivity | rewrite Hh; apply lookup_insert_eq | simpl; lia |].
  eapply wp_set_index with (l := lp) (a := <[i := psJ]> a');
    [reflexivity | simpl; apply lookup_insert_eq | simpl; lia |].
  apply HQ. exists (<[j := psI]> (<[i := psJ]> a')). simpl.
  split; [rewrite Hh, !insert_insert_eq; reflexivity|]. split; [|exact Hc].
  etrans; [|exact Hperm]. apply Permutation_insert_swap; assumption.
Qed.

Lemma wp_run_sort `{GoRuntime} steps st :
  steps_in_range (length a) steps -> sorting st ->
  wp (run_sort bd steps) st (fun _ st' => sorting st') (fun _ => False).
Proof.
  revert st. induction steps as [|i j k IH|i j k IH]; intros st Hrange Hst; simpl.
  - apply wp_ret, Hst.
  - destruct Hrange as (Hi & Hj & Hk).
    apply wp_bind. apply wp_Less; auto.
  - destruct Hrange as (Hi & Hj & Hk).
    apply wp_bind. apply wp_Swap; auto.
Qed.

End SortRules.

(** The first half of [Draw]: it leaves every array and struct of [h0] as
    it was, makes no call, and ends with the array of the local slice
    [polygons] holding the padded point sets, rearranged by [sort.Sort]. *)
Lemma wp_depth_pass h0 s m polys st :
  (forall n, steps_in_range n (sort_Sort_steps n)) ->
  scene_at h0 s m polys ->
  h0 ⊆ heap st ->
  wp (depth_pass s) st
     (fun ps st' =>
        h0 ⊆ heap st' /\ calls st' = calls st /\
        exists lp sets a',
          ps = Slice (Some lp) (length polys) (length polys) /\
          Forall2 (fun sl pc => holds (heap st') sl (padded m (fst pc))) sets polys /\
          a' ≡ₚ sets /\
          heap st' !! lp = Some (OSets a'))
     (fun _ => False).
Proof.
  intros Hsort (ls & sp & ptrs & -> & Hls & <- & Hobjs & Hpolys) Hsub.
  pose proof (holds_length _ _ _ Hobjs) as Hlen.
  pose proof (Forall2_length _ _ _ Hpolys) as Hlen2.
  unfold depth_pass.
  apply wp_bind. eapply wp_load_Space; [eapply lookup_weaken; eauto|].
  apply wp_bind, wp_make. intros lp Hlp.
  assert (lp ∉ dom h0) as Hlp0.
  { intros Hin. exact (Hlp (subseteq_dom _ _ Hsub _ Hin)). }
  assert (h0 ⊆ <[lp := OSets (replicate (len (Space.Objects sp)) nil_slice)]> (heap st))
    as Hsub1.
  { apply insert_subseteq_r; [apply not_elem_of_dom, Hlp0 | exact Hsub]. }
  apply wp_bind. eapply wp_load_Space; [eapply lookup_weaken; eauto|].
  assert (len (Space.Objects sp) = length polys) as Hn by lia.
  set (I := fun (k : nat) (_ : unit) (st' : state) =>
              h0 ⊆ heap st' /\ calls st' = calls st /\
              exists a, heap st' !! lp = Some (OSets a) /\ length a = length polys /\
                        Forall2 (fun sl pc => holds (heap st') sl
                                   (padded (Space.Matrix sp) (fst pc)))
                                (take k a) (take k polys)).
  apply wp_bind. unfold range.
  eapply wp_conseq;
    [apply (wp_range_fold I (fun _ => False)) with (xs := ptrs) | | auto].
  - exact Hlen.
  - unfold I. simpl. split; [exact Hsub1|]. split; [reflexivity|].
    eexists. rewrite lookup_insert_eq. split; [reflexivity|].
    rewrite length_replicate. split; [exact Hn|]. constructor.
  - intros k b st' _ (Hsub' & _). eapply holds_mono; eauto.
  - intros k obj b st' Hk (Hsub' & Hc & a & Ha & Hla & Hsets).
    destruct (Forall2_lookup_l _ _ _ _ _ Hpolys Hk) as ([pts c] & Hpc & Hpoly).
    destruct Hpoly as (lo & poly & -> & Hlo & Hcol & Hpts). simpl in *.
    apply wp_bind, wp_make. intros lq Hlq.
    set (h2 := <[lq := OPoints (replicate 3 zeroPoint)]> (heap st')).
    assert (heap st' ⊆ h2) as Hsub2.
    { apply insert_subseteq, not_elem_of_dom, Hlq. }
    apply wp_bind. eapply wp_load_Polygon.
    { simpl. eapply lookup_weaken; [|exact Hsub2]. eapply lookup_weaken; eauto. }
    apply wp_bind.
    eapply wp_conseq;
      [eapply (wp_append_transformed (heap st') ls sp poly pts) with
         (ys := replicate 3 zeroPoint) | | auto].
    + eapply lookup_weaken; eauto.
    + eapply holds_mono; eauto.
    + exact Hsub2.
    + exists lq, (replicate 3 zeroPoint). simpl. unfold h2.
      rewrite lookup_insert_eq. repeat split; auto.
    + exists lq. auto.
    + intros points st'' (Hsub'' & Hc'' & Hpoints & _). simpl in Hc''.
      assert (heap st'' !! lp = Some (OSets a)) as Ha''
        by (eapply lookup_weaken; eauto).
      eapply wp_set_index with (l := lp) (a := a); [reflexivity | exact Ha'' | | ].
      { simpl. apply lookup_lt_Some in Hk. lia. }
      unfold I. simpl. split; [|split; [congruence|]].
      * apply insert_subseteq_r; [apply not_elem_of_dom, Hlp0|].
        etrans; eauto.
      * exists (<[k := points]> a). rewrite lookup_insert_eq, length_insert.
        split; [reflexivity|]. split; [exact Hla|].
        assert (k < length a) as Hka by (apply lookup_lt_Some in Hk; lia).
        erewrite take_S_r by (apply list_lookup_insert_eq; exact Hka).
        erewrite (take_S_r polys) by eauto.
        rewrite take_insert_ge by lia.
        apply Forall2_app.
        -- eapply Forall2_impl; [exact Hsets|]. intros sl pc Hsl. simpl in Hsl.
           eapply holds_points_insert_sets; [exact Ha''|].
           eapply holds_mono; eauto.
        -- constructor; [|constructor]. simpl.
           eapply holds_points_insert_sets; [exact Ha''|]. exact Hpoints.
  - intros ? st' (Hsub' & Hc & a & Ha & Hla & Hsets).
    rewrite Hn in Hsets. rewrite firstn_all in Hsets.
    rewrite <- Hla, firstn_all in Hsets.
    apply wp_bind. unfold sort_Sort, ByCentroidDistance_Len.
    apply wp_bind, wp_ret. simpl. rewrite Hn, <- Hla.
    assert (forall sl, sl ∈ a -> exists xs : list Point.t, holds (heap st') sl xs)
      as Hall.
    { intros sl Hin. apply list_elem_of_lookup in Hin as [i Hi].
      destruct (Forall2_lookup_l _ _ _ _ _ Hsets Hi) as (pc & _ & Hsl). eauto. }
    eapply wp_conseq;
      [apply (wp_run_sort (heap st') lp a referencePoint (calls st') Ha Hall);
         [apply Hsort | exists a; split; [symmetry; apply insert_id, Ha | auto]]
      | | auto].
    intros ? st'' (a' & Hh & Hperm & Hc''). apply wp_ret.
    split; [|split; [congruence|]].
    + rewrite Hh. apply insert_subseteq_r; [apply not_elem_of_dom, Hlp0 | exact Hsub'].
    + exists lp, a, a'. rewrite Hla.
      split; [reflexivity|]. split; [|split; [exact Hperm|]].
      * eapply Forall2_impl; [exact Hsets|]. intros sl pc Hsl. simpl in Hsl.
        rewrite Hh. eapply holds_points_insert_sets; eauto.
      * rewrite Hh. apply lookup_insert_eq.
Qed.

End DrawRules.

(** ** The second half of [Draw] *)

Section DrawLoop.
Context `{GoRuntime}.

(** The heap [Transform] leaves behind: the old heap plus the new points
    and the new polygon. *)
Lemma transformed_heap (h : gmap loc obj) ln lq pts c :
  ln ∉ dom h -> lq ∉ dom h -> ln <> lq ->
  let h' := <[lq := OPolygon (Polygon.mk (Slice (Some ln) (length pts) (length pts)) c)]>
              (<[ln := OPoints pts]> h) in
  h ⊆ h' /\ polygon_at h' (Some lq) pts c.
Proof.
  intros Hln Hlq Hne h'. split.
  - unfold h'. apply insert_subseteq_r; [apply not_elem_of_dom, Hlq|].
    apply insert_subseteq, not_elem_of_dom, Hln.
  - eexists lq, _. unfold h'. rewrite lookup_insert_eq.
    split; [reflexivity|]. split; [reflexivity|]. split; [reflexivity|].
    exists ln, pts. simpl.
    rewrite lookup_insert_ne by congruence. rewrite lookup_insert_eq.
    rewrite firstn_all. auto.
Qed.

Lemma wp_Space_Draw s m polys st :
  (forall n, steps_in_range n (sort_Sort_steps n)) ->
  scene_at (heap st) s m polys ->
  Forall (fun pc => fst pc <> []) polys ->
  wp (Space_Draw s) st
     (fun _ st' => heap st ⊆ heap st' /\
                   calls st' = calls st ++ frame_calls m polys)
     (fun _ => False).
Proof.
  intros Hsort Hscene Hne. unfold Space_Draw.
  apply wp_bind.
  eapply wp_conseq;
    [apply (wp_depth_pass (heap st) s m polys); [exact Hsort | exact Hscene | reflexivity]
    | | auto].
  intros ps st1 (Hsub1 & Hc1 & _). simpl.
  destruct Hscene as (ls & sp & ptrs & -> & Hls & <- & Hobjs & Hpolys).
  pose proof (holds_length _ _ _ Hobjs) as Hlen.
  pose proof (Forall2_length _ _ _ Hpolys) as Hlen2.
  apply wp_bind. eapply wp_load_Space; [eapply lookup_weaken; eauto|].
  set (I := fun (k : nat) (_ : unit) (st' : state) =>
              heap st ⊆ heap st' /\
              calls st' = calls st ++ frame_calls (Space.Matrix sp) (take k polys)).
  unfold range.
  eapply wp_conseq;
    [apply (wp_range_fold I (fun _ => False)) with (xs := ptrs) | | auto].
  - exact Hlen.
  - unfold I. simpl. rewrite app_nil_r. auto.
  - intros k b st' _ (Hsub' & _). eapply holds_mono; eauto.
  - intros k obj b st' Hk (Hsub' & Hc).
    destruct (Forall2_lookup_l _ _ _ _ _ Hpolys Hk) as ([pts c] & Hpc & Hpoly).
    destruct Hpoly as (lo & poly & -> & Hlo & Hcol & Hpts). simpl in *.
    assert (pts <> []) as Hpne.
    { rewrite Forall_lookup in Hne. exact (Hne _ _ Hpc). }
    apply wp_bind. eapply wp_load_Space; [eapply lookup_weaken; eauto|].
    apply wp_bind.
    eapply wp_conseq;
      [apply (wp_Polygon_Transform lo poly pts);
         [eapply lookup_weaken; eauto | eapply holds_mono; eauto] | | auto].
    intros q st'' (ln & lq & -> & Hln & Hlq & Hnq & Hc'' & Hh''). simpl.
    pose proof (transformed_heap (heap st') ln lq
                  (map (matrixMultiply (Space.Matrix sp)) pts) (Polygon.Color poly)
                  Hln Hlq Hnq) as [Hsub'' Hnew].
    simpl in Hsub'', Hnew. rewrite length_map in Hsub'', Hnew.
    rewrite <- Hh'' in Hsub'', Hnew.
    destruct Hnew as (lq' & poly' & Heq & Hlq' & Hcol' & Hpts').
    assert (lq' = lq) as -> by congruence.
    eapply wp_conseq;
      [apply (wp_Polygon_build lq poly' _ st'' Hlq' Hpts') | | auto].
    + destruct pts; [congruence | discriminate].
    + intros ? st3 (Hh3 & Hc3). unfold I. split.
      * rewrite Hh3. etrans; eauto.
      * rewrite Hc3, Hc'', Hc. erewrite take_S_r by eauto.
        unfold frame_calls. rewrite flat_map_app. simpl.
        rewrite app_nil_r, <- app_assoc, Hcol', Hcol. reflexivity.
  - intros _ st' (Hsub' & Hc). split; [exact Hsub'|].
    rewrite Hc. rewrite <- Hlen, Hlen2, firstn_all. reflexivity.
Qed.

End DrawLoop.

(** ** Frames: what a run leaves untouched *)

Section Frames.
Variable h0 : gmap loc obj.

Lemma frames_ret {A} (a : A) (R : A -> Prop) : R a -> frames h0 (ret a) R.
Proof. intros HR st Hst. apply wp_ret. auto. Qed.

Lemma frames_panic {A} msg (R : A -> Prop) : frames h0 (panic msg) R.
Proof. intros st Hst. apply wp_panic. auto. Qed.

Lemma frames_bind {A B} (m : M A) (k : A -> M B) (R : A -> Prop) (R' : B -> Prop) :
  frames h0 m R -> (forall a, R a -> frames h0 (k a) R') ->
  frames h0 (bind m k) R'.
Proof.
  intros Hm Hk st Hst. apply wp_bind.
  eapply wp_conseq; [apply Hm, Hst | | auto].
  intros a st' [Hst' Ha]. apply Hk; auto.
Qed.

Lemma frames_for_fold {A B} (l : list A) (b : B) (body : A -> B -> M B)
    (R : B -> Prop) :
  R b -> (forall x b, R b -> frames h0 (body x b) R) ->
  frames h0 (for_fold l b body) R.
Proof.
  revert b. induction l as [|x l IH]; intros b Hb Hbody; simpl.
  - apply frames_ret, Hb.
  - eapply frames_bind; [apply Hbody, Hb|]. intros b' Hb'. apply IH; auto.
Qed.

(** Reading and calling the drawing context do not touch the heap. *)
Lemma frames_deref p : frames h0 (deref p) (fun _ => True).
Proof.
  intros st Hst. unfold wp, deref.
  destruct p as [l|]; [destruct (heap st !! l)|]; auto.
Qed.

Lemma frames_emit c : frames h0 (emit c) (fun _ => True).
Proof. intros st Hst. apply wp_emit. auto. Qed.

(** Allocation hands out an address that [h0] does not have. *)
Lemma frames_new o : frames h0 (new o) (fun l => l ∉ dom h0).
Proof.
  intros st Hst. apply wp_new. intros l Hl. simpl.
  assert (l ∉ dom h0) as Hl0.
  { intros Hin. exact (Hl (subseteq_dom _ _ Hst _ Hin)). }
  split; [|exact Hl0].
  apply insert_subseteq_r; [apply not_elem_of_dom, Hl0 | exact Hst].
Qed.

(** A write is harmless when it goes to an address that [h0] does not
    have. *)
Lemma frames_write p o : local_to h0 p -> frames h0 (write p o) (fun _ => True).
Proof.
  intros Hp st Hst. unfold wp, write.
  destruct p as [l|]; [|auto]. destruct (heap st !! l); [|auto]. simpl.
  split; [|exact I].
  apply insert_subseteq_r; [apply not_elem_of_dom, Hp; reflexivity | exact Hst].
Qed.

Section FrameSlices.
Context {T : Type} `{Elem T}.

Lemma frames_array_of s : frames h0 (array_of (T:=T) s) (fun _ => True).
Proof.
  unfold array_of. eapply frames_bind; [apply frames_deref|].
  intros o _. destruct (proj o); [apply frames_ret, I | apply frames_panic].
Qed.

Lemma frames_index s i : frames h0 (index (T:=T) s i) (fun _ => True).
Proof.
  unfold index. destruct (i <? len s); [|apply frames_panic].
  eapply frames_bind; [apply frames_array_of|].
  intros a _. destruct (a !! i); [apply frames_ret, I | apply frames_panic].
Qed.

Lemma frames_set_index s i (v : T) :
  local_to h0 (base s) -> frames h0 (set_index s i v) (fun _ => True).
Proof.
  intros Hs. unfold set_index. destruct (i <? len s); [|apply frames_panic].
  eapply frames_bind; [apply frames_array_of|].
  intros a _. apply frames_write, Hs.
Qed.

Lemma frames_make n : frames h0 (make (T:=T) n) (fun s => local_to h0 (base s)).
Proof.
  unfold make. eapply frames_bind; [apply frames_new|].
  intros l Hl. apply frames_ret. intros l' [= <-]. exact Hl.
Qed.

Lemma frames_range_fold {B} s (b : B) (body : nat -> T -> B -> M B) (R : B -> Prop) :
  R b -> (forall i x b, R b -> frames h0 (body i x b) R) ->
  frames h0 (range_fold s b body) R.
Proof.
  intros Hb Hbody. unfold range_fold. apply frames_for_fold; [exact Hb|].
  intros i b' Hb'. eapply frames_bind; [apply frames_index|].
  intros x _. apply Hbody, Hb'.
Qed.

Lemma frames_range s (body : nat -> T -> M unit) :
  (forall i x, frames h0 (body i x) (fun _ => True)) ->
  frames h0 (range s body) (fun _ => True).
Proof. intros Hbody. apply frames_range_fold; auto. Qed.

Lemma frames_append `{GoRuntime} s (v : T) :
  local_to h0 (base s) ->
  frames h0 (append s v) (fun s' => local_to h0 (base s')).
Proof.
  intros Hs. unfold append. destruct (len s <? cap s).
  - eapply frames_bind; [apply frames_array_of|]. intros a _.
    eapply frames_bind; [apply frames_write, Hs|]. intros _ _.
    apply frames_ret. exact Hs.
  - eapply frames_bind with (R := fun _ => True).
    { destruct (len s =? 0); [apply frames_ret, I | apply frames_array_of]. }
    intros old _. simpl.
    eapply frames_bind; [apply frames_new|]. intros l Hl.
    apply frames_ret. intros l' [= <-]. exact Hl.
Qed.

End FrameSlices.

Context `{GoRuntime}.

Lemma frames_load_Polygon p : frames h0 (load_Polygon p) (fun _ => True).
Proof.
  unfold load_Polygon. eapply frames_bind; [apply frames_deref|].
  intros o _. destruct o; first [apply frames_ret, I | apply frames_panic].
Qed.

Lemma frames_load_Space s : frames h0 (load_Space s) (fun _ => True).
Proof.
  unfold load_Space. eapply frames_bind; [apply frames_deref|].
  intros o _. destruct o; first [apply frames_ret, I | apply frames_panic].
Qed.

Lemma frames_computeCentroid points :
  frames h0 (computeCentroid points) (fun _ => True).
Proof.
  unfold computeCentroid.
  eapply frames_bind with (R := fun _ => True).
  - apply frames_range_fold; [exact I|].
    intros i p [[sumX sumY] sumZ] _. apply frames_ret, I.
  - intros [[sumX sumY] sumZ] _. apply frames_ret, I.
Qed.

Lemma frames_Less bd i j :
  frames h0 (ByCentroidDistance_Less bd i j) (fun _ => True).
Proof.
  unfold ByCentroidDistance_Less.
  eapply frames_bind; [apply frames_index|]. intros psI _.
  eapply frames_bind; [apply frames_computeCentroid|]. intros centroidI _.
  eapply frames_bind; [apply frames_index|]. intros psJ _.
  eapply frames_bind; [apply frames_computeCentroid|]. intros centroidJ _.
  apply frames_ret, I.
Qed.

(** [Swap] writes to the array of [bd.ps] and nowhere else. *)
Lemma frames_Swap bd i j :
  local_to h0 (base (ByCentroidDistance.ps bd)) ->
  frames h0 (ByCentroidDistance_Swap bd i j) (fun _ => True).
Proof.
  intros Hps. unfold ByCentroidDistance_Swap.
  eapply frames_bind; [apply frames_index|]. intros psJ _.
  eapply frames_bind; [apply frames_index|]. intros psI _.
  eapply frames_bind; [apply frames_set_index, Hps|]. intros _ _.
  apply frames_set_index, Hps.
Qed.

Lemma frames_run_sort bd steps :
  local_to h0 (base (ByCentroidDistance.ps bd)) ->
  frames h0 (run_sort bd steps) (fun _ => True).
Proof.
  intros Hps. induction steps as [|i j k IH|i j k IH]; simpl.
  - apply frames_ret, I.
  - eapply frames_bind; [apply frames_Less|]. intros b _. apply IH.
  - eapply frames_bind; [apply frames_Swap, Hps|]. intros _ _. apply IH.
Qed.

Lemma frames_sort_Sort bd :
  local_to h0 (base (ByCentroidDistance.ps bd)) ->
  frames h0 (sort_Sort bd) (fun _ => True).
Proof.
  intros Hps. unfold sort_Sort, ByCentroidDistance_Len.
  eapply frames_bind with (R := fun _ => True); [apply frames_ret, I|].
  intros n _. apply frames_run_sort, Hps.
Qed.

Lemma frames_Polygon_build p : frames h0 (Polygon_build p) (fun _ => True).
Proof.
  unfold Polygon_build.
  repeat first
    [ apply frames_emit
    | apply frames_range; intros
    | eapply frames_bind;
      [first [apply frames_load_Polygon | apply frames_emit | apply frames_index
             | apply frames_range; intros ] | intros ] ].
Qed.

Lemma frames_Polygon_Transform p m :
  frames h0 (Polygon_Transform p m) (fun _ => True).
Proof.
  unfold Polygon_Transform.
  eapply frames_bind; [apply frames_load_Polygon|]. intros poly _.
  eapply frames_bind; [apply frames_make|]. intros newPoints Hnew.
  eapply frames_bind; [apply frames_load_Polygon|]. intros poly' _.
  eapply frames_bind.
  { apply frames_range. intros i point. apply frames_set_index, Hnew. }
  intros _ _.
  eapply frames_bind; [apply frames_load_Polygon|]. intros poly'' _.
  eapply frames_bind; [apply frames_new|]. intros q _.
  apply frames_ret, I.
Qed.

Lemma frames_depth_pass s :
  frames h0 (depth_pass s) (fun _ => True).
Proof.
  unfold depth_pass.
  eapply frames_bind; [apply frames_load_Space|]. intros sp _.
  eapply frames_bind; [apply frames_make|]. intros polygons Hpolygons.
  eapply frames_bind; [apply frames_load_Space|]. intros sp' _.
  eapply frames_bind.
  { apply frames_range. intros i obj.
    eapply frames_bind; [apply frames_make|]. intros points Hpoints.
    eapply frames_bind; [apply frames_load_Polygon|]. intros poly _.
    eapply frames_bind.
    { apply frames_range_fold with (R := fun s' => local_to h0 (base s'));
        [exact Hpoints|].
      intros j point points' Hpoints'.
      eapply frames_bind; [apply frames_load_Space|]. intros sp'' _.
      apply frames_append, Hpoints'. }
    intros points' Hpoints'. apply frames_set_index, Hpolygons. }
  intros _ _.
  eapply frames_bind; [apply frames_sort_Sort, Hpolygons|]. intros _ _.
  apply frames_ret, I.
Qed.

Lemma frames_Space_Draw s : frames h0 (Space_Draw s) (fun _ => True).
Proof.
  unfold Space_Draw.
  eapply frames_bind; [apply frames_depth_pass|]. intros _ _.
  eapply frames_bind; [apply frames_load_Space|]. intros sp _.
  apply frames_range. intros i obj.
  eapply frames_bind; [apply frames_load_Space|]. intros sp' _.
  eapply frames_bind; [apply frames_Polygon_Transform|]. intros newObj _.
  apply frames_Polygon_build.
Qed.

End Frames.

(** ** float64 facts behind the zero-angle rotations *)

Lemma SFmul_one s m e :
  bounded prec emax m e = true ->
  SFmul prec emax (S754_finite s m e) (S754_finite false 4503599627370496 (-52))
  = S754_finite s m e.
Proof.
  intros Hb. unfold bounded, canonical_mantissa in Hb.
  apply andb_prop in Hb as [Hcan Hle].
  apply Z.eqb_eq in Hcan. apply Z.leb_le in Hle.
  unfold SFmul. rewrite xorb_false_r, Pos.mul_comm.
  unfold binary_round_aux, shr_fexp.
  match goal with |- context [(?a * m)%positive] =>
    let t := eval lazy beta iota fix delta [Pos.mul PosDef.Pos.mul] in (a * m)%positive in
    change (a * m)%positive with t end.
  set (mm := (_~0)%positive).
  assert (Zdigits2 (Z.pos mm) = Z.pos (digits2_pos m) + 52)%Z as Hd.
  { unfold mm. cbn [Zdigits2 digits2_pos]. lia. }
  rewrite Hd.
  unfold fexp, SpecFloat.emin, prec, emax in *.
  change IntDef.Z.max with Z.max in *.
  replace (Z.max (Z.pos (digits2_pos m) + 52 + (e + -52) - 53) (3 - 1024 - 53)
           - (e + -52))%Z with 52%Z by lia.
  unfold mm.
  cbn [shr shr_record_of_loc SpecFloat.iter_pos shr_1 orb shr_m shr_r shr_s
       loc_of_shr_record round_nearest_even Zdigits2].
  replace (e + -52 + 52)%Z with e by lia.
  rewrite Hcan, Z.sub_diag. cbn [shr shr_m].
  apply Z.leb_le in Hle. rewrite Hle. reflexivity.
Qed.

Lemma mul_one x : finite64 x = true -> (x * 1)%float = x.
Proof.
  unfold finite64. intros Hx. apply Prim2SF_inj. rewrite mul_spec.
  pose proof (Prim2SF_valid x) as Hv.
  change (Prim2SF 1) with (S754_finite false 4503599627370496 (-52)).
  destruct (Prim2SF x) as [sx|sx| |sx mx ex]; try discriminate.
  - simpl. rewrite xorb_false_r. reflexivity.
  - apply SFmul_one. exact Hv.
Qed.

Lemma mul_zero x z :
  finite64 x = true -> zero64 z = true -> zero64 (x * z) = true.
Proof.
  unfold finite64, zero64. rewrite mul_spec.
  destruct (Prim2SF x), (Prim2SF z); simpl; congruence.
Qed.

Lemma add_zeros z z' :
  zero64 z = true -> zero64 z' = true -> zero64 (z + z') = true.
Proof.
  unfold zero64. rewrite add_spec.
  destruct (Prim2SF z) as [[]| | |], (Prim2SF z') as [[]| | |]; simpl; congruence.
Qed.

Lemma add_zero_r t a z :
  same64 t a -> finite64 a = true -> zero64 z = true -> same64 (t + z) a.
Proof.
  intros [-> | [Ht Ha]] Hfin Hz.
  - unfold finite64 in Hfin. unfold zero64 in Hz.
    destruct (Prim2SF a) as [sa|sa| |sa ma ea] eqn:Ea; try discriminate.
    + right. split; [apply add_zeros; unfold zero64; [rewrite Ea|]; auto|].
      unfold zero64. rewrite Ea. reflexivity.
    + left. apply Prim2SF_inj. rewrite add_spec, Ea.
      destruct (Prim2SF z); try discriminate. reflexivity.
  - right. split; [apply add_zeros; auto | exact Ha].
Qed.

Lemma add_zero_l z a :
  zero64 z = true -> finite64 a = true -> same64 (z + a) a.
Proof.
  intros Hz Hfin. unfold finite64 in Hfin.
  destruct (Prim2SF a) as [sa|sa| |sa ma ea] eqn:Ea; try discriminate.
  - right. split; [apply add_zeros; auto|]; unfold zero64; rewrite Ea; reflexivity.
  - left. apply Prim2SF_inj. rewrite add_spec, Ea. unfold zero64 in Hz.
    destruct (Prim2SF z); try discriminate. reflexivity.
Qed.

Lemma same64_eqb x y : same64 x y -> finite64 y = true -> (x =? y)%float = true.
Proof.
  unfold finite64, zero64. rewrite FloatAxioms.eqb_spec.
  intros [-> | [Hx Hy]] Hfin.
  - destruct (Prim2SF y) as [sa|sa| |sa ma ea]; try discriminate; [reflexivity|].
    unfold SFeqb, SFcompare. rewrite Z.compare_refl, Pos.compare_cont_refl.
    destruct sa; reflexivity.
  - unfold zero64 in *.
    destruct (Prim2SF x), (Prim2SF y); try discriminate. reflexivity.
Qed.

(** A row times a column with one entry [1] and two zeros gives back the
    entry that met the [1]. *)
Lemma one_hot_1 a b c z1 z2 :
  finite64 a = true -> finite64 b = true -> finite64 c = true ->
  zero64 z1 = true -> zero64 z2 = true ->
  (a * 1 + b * z1 + c * z2 =? a)%float = true.
Proof.
  intros Ha Hb Hc H1 H2. apply same64_eqb; [|exact Ha].
  apply add_zero_r; [|exact Ha | apply mul_zero; auto].
  apply add_zero_r; [|exact Ha | apply mul_zero; auto].
  left. apply mul_one, Ha.
Qed.

Lemma one_hot_2 a b c z1 z2 :
  finite64 a = true -> finite64 b = true -> finite64 c = true ->
  zero64 z1 = true -> zero64 z2 = true ->
  (a * z1 + b * 1 + c * z2 =? b)%float = true.
Proof.
  intros Ha Hb Hc H1 H2. apply same64_eqb; [|exact Hb].
  apply add_zero_r; [|exact Hb | apply mul_zero; auto].
  rewrite (mul_one b Hb). apply add_zero_l; [apply mul_zero; auto | exact Hb].
Qed.

Lemma one_hot_3 a b c z1 z2 :
  finite64 a = true -> finite64 b = true -> finite64 c = true ->
  zero64 z1 = true -> zero64 z2 = true ->
  (a * z1 + b * z2 + c * 1 =? c)%float = true.
Proof.
  intros Ha Hb Hc H1 H2. apply same64_eqb; [|exact Hc].
  rewrite (mul_one c Hc). apply add_zero_l; [|exact Hc].
  apply add_zeros; apply mul_zero; auto.
Qed.

Lemma finiteVector_inv v :
  finiteVector v = true ->
  finite64 (Vector.X v) = true /\ finite64 (Vector.Y v) = true /\
  finite64 (Vector.Z v) = true.
Proof.
  unfold finiteVector. intros Hv.
  apply andb_prop in Hv as [Hv Hz]. apply andb_prop in Hv as [Hx Hy]. auto.
Qed.

Lemma row_times_unit_like v r :
  finiteVector v = true -> unit_like r ->
  Vector_eqb (rowTimesMatrix v r) v = true.
Proof.
  intros Hv (Hxx & Hxy & Hxz & Hyx & Hyy & Hyz & Hzx & Hzy & Hzz).
  apply finiteVector_inv in Hv as (Hx & Hy & Hz).
  unfold Vector_eqb, rowTimesMatrix, matrixMultiply. simpl.
  rewrite Hxx, Hyy, Hzz.
  rewrite one_hot_1, one_hot_2, one_hot_3 by assumption. reflexivity.
Qed.

Lemma product_unit_like m r :
  finiteMatrix m = true -> unit_like r ->
  Matrix_eqb (matrixProduct m r) m = true.
Proof.
  unfold finiteMatrix. intros Hm Hr.
  apply andb_prop in Hm as [Hm Hz]. apply andb_prop in Hm as [Hx Hy].
  unfold Matrix_eqb, matrixProduct. simpl.
  rewrite !row_times_unit_like by assumption. reflexivity.
Qed.

(** ** Further shared facts *)

Lemma pushed_outline c t pts cur :
  pushed cur (flat_map (vertex_calls c) pts ++ [PolygonCall t; DrawCall])
  = map (fun p => (V (Point.X p) (Point.Y p), Some c)) pts.
Proof.
  revert cur. induction pts as [|p pts IH]; intros cur; simpl.
  - reflexivity.
  - rewrite IH. reflexivity.
Qed.

(** What [Rotate] does to a scene that is in the heap. *)
Lemma Space_Rotate_run (l : loc) (sp : Space.t) (D : Matrix.t) (st : state) :
  heap st !! l = Some (OSpace sp) ->
  Space_Rotate (Some l) D st =
  Done tt (State (<[l := OSpace (Space.mk (matrixProduct (Space.Matrix sp) D)
                                          (Space.Objects sp))]> (heap st))
                 (calls st)).
Proof.
  intros Hl.
  assert (wp (Space_Rotate (Some l) D) st
             (fun _ st' =>
                st' = State (<[l := OSpace (Space.mk (matrixProduct (Space.Matrix sp) D)
                                                     (Space.Objects sp))]> (heap st))
                            (calls st))
             (fun _ => False)) as Hwp.
  { unfold Space_Rotate. apply wp_bind. eapply wp_load_Space; [exact Hl|].
    cbv zeta. apply wp_bind. eapply wp_load_Space; [exact Hl|].
    eapply wp_write; [exact Hl|]. reflexivity. }
  apply wp_Done in Hwp as ([] & st' & Hrun & ->). exact Hrun.
Qed.

(** The two runtimes of the examples only name indices of the slice. *)
Lemma insert_steps_in_range n j k :
  j < n -> steps_in_range n k -> steps_in_range n (insert_steps j k).
Proof.
  intros Hj Hk. induction j as [|j IH]; simpl; [exact Hk|].
  split; [lia|]. split; [lia|]. intros [|]; [|exact Hk].
  simpl. split; [lia|]. split; [lia|]. apply IH. lia.
Qed.

Lemma insertion_steps_in_range n todo :
  Forall (fun i => i < n) todo -> steps_in_range n (insertion_steps todo).
Proof.
  induction 1 as [|i todo Hi _ IH]; simpl; [exact I|].
  apply insert_steps_in_range; assumption.
Qed.

Lemma reference_sort_in_range n :
  steps_in_range n (sort_Sort_steps (GoRuntime:=reference_runtime) n).
Proof.
  simpl. apply insertion_steps_in_range, Forall_forall.
  intros i Hi. apply elem_of_seq in Hi. lia.
Qed.

Lemma swapping_sort_in_range n :
  steps_in_range n (sort_Sort_steps (GoRuntime:=swapping_runtime) n).
Proof.
  unfold sort_Sort_steps, swapping_runtime.
  destruct (2 <=? n) eqn:Hn; [|exact I].
  apply Nat.leb_le in Hn. simpl. repeat split; lia.
Qed.

(** The scene of [scene_state], as [scene_at] describes it. *)
Lemma far_points_in_scene_state :
  holds (heap scene_state) (Slice (Some 2%positive) 3 3) far_triangle.
Proof. exists 2%positive, far_triangle. repeat split; simpl; lia. Defined.

Lemma far_polygon_in_scene_state :
  polygon_at (heap scene_state) (Some 3%positive) far_triangle black.
Proof.
  exists 3%positive, (Polygon.mk (Slice (Some 2%positive) 3 3) black).
  split; [reflexivity|]. split; [reflexivity|]. split; [reflexivity|].
  exact far_points_in_scene_state.
Defined.

Lemma near_polygon_in_scene_state :
  polygon_at (heap scene_state) (Some 6%positive) near_triangle red.
Proof.
  exists 6%positive, (Polygon.mk (Slice (Some 5%positive) 3 3) red).
  split; [reflexivity|]. split; [reflexivity|]. split; [reflexivity|].
  exists 5%positive, near_triangle. repeat split; simpl; lia.
Defined.

Lemma scene_state_scene :
  scene_at (heap scene_state) (Some 1%positive) identityMatrix
           [(far_triangle, black); (near_triangle, red)].
Proof.
  exists 1%positive, (Space.mk identityMatrix (Slice (Some 7%positive) 2 2)),
         [Some 3%positive; Some 6%positive].
  split; [reflexivity|]. split; [reflexivity|]. split; [reflexivity|]. split.
  - exists 7%positive, [Some 3%positive; Some 6%positive].
    repeat split; simpl; lia.
  - constructor; [exact far_polygon_in_scene_state|].
    constructor; [exact near_polygon_in_scene_state|]. constructor.
Defined.

(** ** More float64 facts: order, square root, difference *)

Lemma SFcompare_Lt_antisym x y :
  SFcompare x y = Some Lt -> SFcompare y x = Some Gt.
Proof.
  destruct x as [sx|sx| |sx mx ex], y as [sy|sy| |sy my ey]; simpl;
    try discriminate;
    try (destruct sx; (discriminate || reflexivity));
    try (destruct sy; (discriminate || reflexivity));
    try (destruct sx, sy; (discriminate || reflexivity)).
  all: rewrite (Z.compare_antisym ex ey).
  all: destruct sx, sy; try (discriminate || reflexivity).
  all: destruct (ex ?= ey)%Z; simpl; try (discriminate || reflexivity).
  all: pose proof (Pos.compare_cont_antisym mx my Eq) as Ha; simpl in Ha;
    rewrite <- Ha;
    destruct (Pos.compare_cont Eq mx my); simpl; (discriminate || reflexivity).
Qed.

(** [<] on float64 is asymmetric and irreflexive, NaN included. *)
Lemma ltb_asym x y : (x <? y)%float = true -> (y <? x)%float = false.
Proof.
  rewrite !ltb_spec. unfold SFltb. intros Hxy.
  destruct (SFcompare (Prim2SF x) (Prim2SF y)) as [[]|] eqn:Hc; try discriminate.
  rewrite (SFcompare_Lt_antisym _ _ Hc). reflexivity.
Qed.

Lemma ltb_irrefl x : (x <? x)%float = false.
Proof.
  destruct (x <? x)%float eqn:Hx; [|reflexivity].
  pose proof (ltb_asym x x Hx). congruence.
Qed.

(** A square root is never below zero. *)
Lemma sqrt_not_negative x : (PrimFloat.sqrt x <? 0)%float = false.
Proof.
  rewrite ltb_spec, sqrt_spec. change (Prim2SF 0) with (S754_zero false).
  unfold SF64sqrt, SFsqrt.
  destruct (Prim2SF x) as [sx|[]| |[] mx ex]; try reflexivity.
  destruct (SFsqrt_core_binary prec emax (Z.pos mx) ex) as [[mz ez] lz].
  unfold binary_round_aux.
  destruct (shr_fexp prec emax mz ez lz) as [mrs' e'].
  destruct (shr_fexp prec emax _ e' loc_Exact) as [mrs'' e''].
  destruct (shr_m mrs''); try reflexivity.
  destruct (e'' <=? emax - prec)%Z; reflexivity.
Qed.

(** A finite number minus itself is [+0]. *)
Lemma sub_self x : finite64 x = true -> (x - x)%float = 0%float.
Proof.
  unfold finite64. intros Hx. apply Prim2SF_inj. rewrite sub_spec.
  change (Prim2SF 0) with (S754_zero false).
  destruct (Prim2SF x) as [[]|sx| |sx mx ex]; try discriminate; try reflexivity.
  unfold SF64sub, SFsub. rewrite Z.sub_diag. reflexivity.
Qed.

(** ** More float64 facts: products with 1 and 0 on the left, transitivity *)

Lemma SFmul_comm x y : SFmul prec emax x y = SFmul prec emax y x.
Proof.
  destruct x as [sx|sx| |sx mx ex], y as [sy|sy| |sy my ey]; simpl;
    try reflexivity; try (rewrite (xorb_comm sx sy); reflexivity).
  rewrite (xorb_comm sx sy), (Pos.mul_comm mx my), (Z.add_comm ex ey). reflexivity.
Qed.

Lemma mul_comm x y : (x * y)%float = (y * x)%float.
Proof. apply Prim2SF_inj. rewrite !mul_spec. apply SFmul_comm. Qed.

Lemma hot_left_1 a b c :
  finite64 a = true -> finite64 b = true -> finite64 c = true ->
  (1 * a + 0 * b + 0 * c =? a)%float = true.
Proof.
  intros Ha Hb Hc. rewrite (mul_comm 1 a), (mul_comm 0 b), (mul_comm 0 c).
  apply one_hot_1; auto.
Qed.

Lemma hot_left_2 a b c :
  finite64 a = true -> finite64 b = true -> finite64 c = true ->
  (0 * a + 1 * b + 0 * c =? b)%float = true.
Proof.
  intros Ha Hb Hc. rewrite (mul_comm 0 a), (mul_comm 1 b), (mul_comm 0 c).
  apply same64_eqb; [|exact Hb].
  apply add_zero_r; [|exact Hb | apply mul_zero; auto].
  rewrite (mul_one b Hb). apply add_zero_l; [apply mul_zero; auto | exact Hb].
Qed.

Lemma hot_left_3 a b c :
  finite64 a = true -> finite64 b = true -> finite64 c = true ->
  (0 * a + 0 * b + 1 * c =? c)%float = true.
Proof.
  intros Ha Hb Hc. rewrite (mul_comm 0 a), (mul_comm 0 b), (mul_comm 1 c).
  apply same64_eqb; [|exact Hc].
  rewrite (mul_one c Hc). apply add_zero_l; [|exact Hc].
  apply add_zeros; apply mul_zero; auto.
Qed.

(** The identity matrix times a matrix with finite entries. *)
Lemma identity_product D :
  finiteMatrix D = true -> Matrix_eqb (matrixProduct identityMatrix D) D = true.
Proof.
  unfold finiteMatrix. intros HD.
  apply andb_prop in HD as [HD Hz]. apply andb_prop in HD as [Hx Hy].
  apply finiteVector_inv in Hx as (Hxx & Hxy & Hxz).
  apply finiteVector_inv in Hy as (Hyx & Hyy & Hyz).
  apply finiteVector_inv in Hz as (Hzx & Hzy & Hzz).
  unfold Matrix_eqb, Vector_eqb, matrixProduct, rowTimesMatrix, matrixMultiply. simpl.
  rewrite !hot_left_1, !hot_left_2, !hot_left_3 by assumption. reflexivity.
Qed.

Lemma SFcompare_Lt_trans x y z :
  SFcompare x y = Some Lt -> SFcompare y z = Some Lt -> SFcompare x z = Some Lt.
Proof.
  destruct x as [sx|sx| |sx mx ex], y as [sy|sy| |sy my ey], z as [sz|sz| |sz mz ez];
    simpl; try discriminate; try reflexivity;
    try (destruct sx; (discriminate || reflexivity));
    try (destruct sy; (discriminate || reflexivity));
    try (destruct sz; (discriminate || reflexivity));
    try (destruct sx, sy; (discriminate || reflexivity));
    try (destruct sy, sz; (discriminate || reflexivity));
    try (destruct sx, sz; (discriminate || reflexivity));
    try (destruct sx, sy, sz; (discriminate || reflexivity)).
  all: destruct sx, sy, sz; try (discriminate || reflexivity).
  all: try (destruct (ex ?= ey)%Z, (Pos.compare_cont Eq mx my); simpl;
            (discriminate || reflexivity)).
  all: try (destruct (ey ?= ez)%Z, (Pos.compare_cont Eq my mz); simpl;
            (discriminate || reflexivity)).
  all: change (Pos.compare_cont Eq) with Pos.compare.
  all: destruct (Z.compare_spec ex ey), (Z.compare_spec ey ez), (Z.compare_spec ex ez);
    try lia; try discriminate; try reflexivity.
  all: destruct (Pos.compare_spec mx my), (Pos.compare_spec my mz),
         (Pos.compare_spec mx mz); simpl; try lia; try discriminate; try reflexivity.
Qed.

Lemma ltb_trans x y z :
  (x <? y)%float = true -> (y <? z)%float = true -> (x <? z)%float = true.
Proof.
  rewrite !ltb_spec. unfold SFltb. intros Hxy Hyz.
  destruct (SFcompare (Prim2SF x) (Prim2SF y)) as [[]|] eqn:Hc1; try discriminate.
  destruct (SFcompare (Prim2SF y) (Prim2SF z)) as [[]|] eqn:Hc2; try discriminate.
  rewrite (SFcompare_Lt_trans _ _ _ Hc1 Hc2). reflexivity.
Qed.

(** ** [Swap] and [Less] on their own *)

Lemma swapped_lookup {A} (i j : nat) (a : list A) x y :
  a !! i = Some x -> a !! j = Some y ->
  swapped i j a = <[j := x]> (<[i := y]> a).
Proof. intros Hi Hj. unfold swapped. rewrite Hi, Hj. reflexivity. Qed.

Lemma swapped_length {A} (i j : nat) (a : list A) :
  length (swapped i j a) = length a.
Proof.
  unfold swapped. destruct (a !! i), (a !! j); try reflexivity.
  rewrite !length_insert. reflexivity.
Qed.

(** Swapping twice gives the array back. *)
Lemma swapped_swapped {A} (i j : nat) (a : list A) :
  swapped i j (swapped i j a) = a.
Proof.
  destruct (a !! i) as [x|] eqn:Hi.
  2: { assert (swapped i j a = a) as Hsame
         by (unfold swapped; rewrite Hi; reflexivity).
       rewrite !Hsame. reflexivity. }
  destruct (a !! j) as [y|] eqn:Hj.
  2: { assert (swapped i j a = a) as Hsame
         by (unfold swapped; rewrite Hi, Hj; reflexivity).
       rewrite !Hsame. reflexivity. }
  pose proof (lookup_lt_Some _ _ _ Hi) as Hli.
  pose proof (lookup_lt_Some _ _ _ Hj) as Hlj.
  rewrite (swapped_lookup i j a x y Hi Hj).
  assert ((<[j := x]> (<[i := y]> a)) !! j = Some x) as Hj'.
  { apply list_lookup_insert_eq. rewrite length_insert. exact Hlj. }
  assert ((<[j := x]> (<[i := y]> a)) !! i = Some (if decide (i = j) then x else y))
    as Hi'.
  { destruct (decide (i = j)) as [->|Hne]; [exact Hj'|].
    rewrite list_lookup_insert_ne by congruence.
    apply list_lookup_insert_eq. exact Hli. }
  rewrite (swapped_lookup i j _ _ _ Hi' Hj').
  apply list_eq. intros k.
  destruct (decide (k = j)) as [->|Hkj].
  - rewrite list_lookup_insert_eq by (rewrite !length_insert; exact Hlj).
    destruct (decide (i = j)) as [->|Hne]; congruence.
  - rewrite list_lookup_insert_ne by congruence.
    destruct (decide (k = i)) as [->|Hki].
    + rewrite list_lookup_insert_eq by (rewrite !length_insert; exact Hli). congruence.
    + rewrite !list_lookup_insert_ne by congruence. reflexivity.
Qed.

(** What [Swap(i, j)] does when both indices are below [Len()]: the two
    elements of the array change places, and nothing else changes. *)
Lemma wp_Swap_in_range bd l arr i j st (Q : unit -> state -> Prop) E :
  base (ByCentroidDistance.ps bd) = Some l ->
  heap st !! l = Some (OSets arr) ->
  len (ByCentroidDistance.ps bd) <= length arr ->
  i < len (ByCentroidDistance.ps bd) -> j < len (ByCentroidDistance.ps bd) ->
  Q tt (State (<[l := OSets (swapped i j arr)]> (heap st)) (calls st)) ->
  wp (ByCentroidDistance_Swap bd i j) st Q E.
Proof.
  intros Hb Hl Hlen Hi Hj HQ.
  destruct (lookup_lt_is_Some_2 arr i) as [y Hy]; [lia|].
  destruct (lookup_lt_is_Some_2 arr j) as [x Hx]; [lia|].
  rewrite (swapped_lookup i j arr y x Hy Hx) in HQ.
  unfold ByCentroidDistance_Swap, index.
  apply Nat.ltb_lt in Hj as Hjb. apply Nat.ltb_lt in Hi as Hib. rewrite Hjb, Hib.
  apply wp_bind, wp_bind. eapply wp_array_of; [exact Hb | exact Hl |].
  rewrite Hx. apply wp_ret.
  apply wp_bind, wp_bind. eapply wp_array_of; [exact Hb | exact Hl |].
  rewrite Hy. apply wp_ret.
  apply wp_bind. eapply wp_set_index; [exact Hb | exact Hl | exact Hi |].
  eapply wp_set_index; [exact Hb | simpl; apply lookup_insert_eq | exact Hj |].
  simpl. rewrite insert_insert_eq. exact HQ.
Qed.

Lemma swapped_at {A} (i j : nat) (a : list A) :
  i < length a -> j < length a ->
  swapped i j a !! i = a !! j /\ swapped i j a !! j = a !! i /\
  forall k, k <> i -> k <> j -> swapped i j a !! k = a !! k.
Proof.
  intros Hi Hj.
  destruct (lookup_lt_is_Some_2 a i Hi) as [y Hy].
  destruct (lookup_lt_is_Some_2 a j Hj) as [x Hx].
  rewrite (swapped_lookup i j a y x Hy Hx).
  assert ((<[j := y]> (<[i := x]> a)) !! j = Some y) as Hj'.
  { apply list_lookup_insert_eq. rewrite length_insert. exact Hj. }
  split; [|split].
  - destruct (decide (i = j)) as [->|Hne]; [congruence|].
    rewrite list_lookup_insert_ne by congruence.
    rewrite list_lookup_insert_eq by exact Hi. congruence.
  - congruence.
  - intros k Hki Hkj. rewrite !list_lookup_insert_ne by congruence. reflexivity.
Qed.

Lemma take_swapped {A} (n i j : nat) (a : list A) :
  i < n -> j < n -> n <= length a ->
  take n (swapped i j a) = swapped i j (take n a).
Proof.
  intros Hi Hj Hn. unfold swapped.
  rewrite !lookup_take_lt by assumption.
  destruct (a !! i), (a !! j); try reflexivity.
  rewrite !take_insert_lt by assumption. reflexivity.
Qed.

(** The state after [Swap(i, j)] on a well-formed slice. *)
Lemma Swap_run bd sets i j st :
  holds (heap st) (ByCentroidDistance.ps bd) sets ->
  i < len (ByCentroidDistance.ps bd) -> j < len (ByCentroidDistance.ps bd) ->
  exists l arr,
    base (ByCentroidDistance.ps bd) = Some l /\
    heap st !! l = Some (OSets arr) /\
    take (len (ByCentroidDistance.ps bd)) arr = sets /\
    len (ByCentroidDistance.ps bd) <= length arr /\
    ByCentroidDistance_Swap bd i j st
    = Done tt (State (<[l := OSets (swapped i j arr)]> (heap st)) (calls st)).
Proof.
  intros (l & arr & Hb & Hl & Htake & Hlen & Hcap) Hi Hj.
  exists l, arr. repeat split; auto; [lia|].
  assert (wp (ByCentroidDistance_Swap bd i j) st
             (fun _ st' => st' = State (<[l := OSets (swapped i j arr)]> (heap st))
                                       (calls st))
             (fun _ => False)) as Hwp.
  { eapply wp_Swap_in_range; eauto. lia. }
  apply wp_Done in Hwp as ([] & st' & Hrun & ->). exact Hrun.
Qed.

(** ** [Less] on its own *)

Section LessRules.
Context `{GoRuntime}.

Lemma Less_run bd sets psets i j xi xj st :
  holds (heap st) (ByCentroidDistance.ps bd) sets ->
  Forall2 (fun sl pts => holds (heap st) sl pts) sets psets ->
  psets !! i = Some xi -> psets !! j = Some xj ->
  ByCentroidDistance_Less bd i j st
  = Done (euclideanDistance (centroid_of xj) (ByCentroidDistance.refPoint bd)
          <? euclideanDistance (centroid_of xi) (ByCentroidDistance.refPoint bd))%float
         st.
Proof.
  intros Hps Hsets Hi Hj.
  destruct (Forall2_lookup_r _ _ _ _ _ Hsets Hi) as (psI & HpsI & HxI).
  destruct (Forall2_lookup_r _ _ _ _ _ Hsets Hj) as (psJ & HpsJ & HxJ).
  assert (wp (ByCentroidDistance_Less bd i j) st
             (fun b st' => st' = st /\
                b = (euclideanDistance (centroid_of xj) (ByCentroidDistance.refPoint bd)
                     <? euclideanDistance (centroid_of xi) (ByCentroidDistance.refPoint bd))%float)
             (fun _ => False)) as Hwp.
  { unfold ByCentroidDistance_Less.
    apply wp_bind. eapply wp_index; [exact Hps | exact HpsI |].
    apply wp_bind. eapply wp_computeCentroid; [exact HxI|].
    apply wp_bind. eapply wp_index; [exact Hps | exact HpsJ |].
    apply wp_bind. eapply wp_computeCentroid; [exact HxJ|].
    apply wp_ret. auto. }
  apply wp_Done in Hwp as (b & st' & Hrun & -> & ->). exact Hrun.
Qed.

End LessRules.

Lemma sets_state_sets :
  holds (heap sets_state) (ByCentroidDistance.ps sets_bd)
        [Slice (Some 1%positive) 3 3; Slice (Some 2%positive) 3 3].
Proof.
  exists 3%positive, [Slice (Some 1%positive) 3 3; Slice (Some 2%positive) 3 3].
  repeat split; simpl; lia.
Defined.

Lemma sets_state_points :
  Forall2 (fun sl pts => holds (heap sets_state) sl pts)
          [Slice (Some 1%positive) 3 3; Slice (Some 2%positive) 3 3]
          [far_triangle; near_triangle].
Proof.
  constructor; [|constructor; [|constructor]].
  - exists 1%positive, far_triangle. repeat split; simpl; lia.
  - exists 2%positive, near_triangle. repeat split; simpl; lia.
Defined.

(** ** Scenes under [AddObject] and [Rotate] *)

Lemma lists_mono {T} `{Elem T} h h' s (xs : list T) :
  h ⊆ h' -> lists h s xs -> lists h' s xs.
Proof.
  intros Hsub [Hh | Hnil]; [left; eapply holds_mono; eauto | right; exact Hnil].
Qed.

Lemma scene_at_with h s m polys : scene_at h s m polys -> scene_with h s m polys.
Proof.
  intros (l & sp & ptrs & Hs & Hl & Hm & Hobjs & Hpolys).
  exists l, sp, ptrs. repeat split; auto. left. exact Hobjs.
Qed.

Lemma scene_with_mono h h' s m polys :
  h ⊆ h' -> scene_with h s m polys -> scene_with h' s m polys.
Proof.
  intros Hsub (l & sp & ptrs & Hs & Hl & Hm & Hobjs & Hpolys).
  exists l, sp, ptrs. repeat split; auto.
  - eapply lookup_weaken; eauto.
  - eapply lists_mono; eauto.
  - eapply Forall2_impl; [exact Hpolys|]. intros p pc. apply polygon_at_mono, Hsub.
Qed.

(** A write to an address that holds no polygon and no points leaves every
    polygon as it was. *)
Lemma polygon_at_insert h l o p pts c :
  no_polygon_data h l -> polygon_at h p pts c -> polygon_at (<[l := o]> h) p pts c.
Proof.
  intros Hno (lp & poly & -> & Hlp & Hc & la & a & Hb & Hla & Hrest).
  assert (lp <> l) as Hne1.
  { intros ->. destruct (Hno _ Hlp) as [[sp Hsp] | [b Hb']]; discriminate. }
  assert (la <> l) as Hne2.
  { intros ->. destruct (Hno _ Hla) as [[sp Hsp] | [b Hb']]; discriminate. }
  exists lp, poly. split; [reflexivity|].
  split; [rewrite lookup_insert_ne by congruence; exact Hlp|].
  split; [exact Hc|].
  exists la, a. split; [exact Hb|].
  split; [rewrite lookup_insert_ne by congruence; exact Hla | exact Hrest].
Qed.

Lemma no_polygon_data_fresh h l : l ∉ dom h -> no_polygon_data h l.
Proof.
  intros Hl o Ho. exfalso. apply Hl, elem_of_dom. eauto.
Qed.

Lemma no_polygon_data_insert h l l' o :
  no_polygon_data h l -> l <> l' -> no_polygon_data (<[l' := o]> h) l.
Proof. intros Hno Hne o' Ho'. rewrite lookup_insert_ne in Ho' by congruence. eauto. Qed.

Section SceneRules.
Context `{GoRuntime}.

(** [append] on a slice that may be the nil slice. *)
Lemma wp_append_lists {T} `{Elem T} s (xs : list T) v st (Q : slice -> state -> Prop) E :
  lists (heap st) s xs ->
  (forall l' a' c',
     (exists a, base s = Some l' /\ heap st !! l' = Some (inj a)) \/ l' ∉ dom (heap st) ->
     take (S (len s)) a' = xs ++ [v] ->
     S (len s) <= c' -> c' <= length a' ->
     Q (Slice (Some l') (S (len s)) c')
       (State (<[l' := inj a']> (heap st)) (calls st))) ->
  wp (append s v) st Q E.
Proof.
  intros [(l & a & Hb & Hl & Hxs & Hlen & Hcap) | (Hlen & Hcap & ->)] HQ.
  - unfold append. destruct (len s <? cap s) eqn:Hroom.
    + apply Nat.ltb_lt in Hroom.
      apply wp_bind. eapply wp_array_of; eauto.
      apply wp_bind. rewrite Hb. eapply wp_write; eauto.
      apply wp_ret. apply HQ; [left; eauto | | lia | rewrite length_insert; lia].
      erewrite take_S_r by (apply list_lookup_insert_eq; lia).
      rewrite take_insert_ge by lia. rewrite Hxs. reflexivity.
    + apply Nat.ltb_ge in Hroom.
      set (old := if len s =? 0 then ret [] else array_of s).
      assert (wp old st (fun o st' => st' = st /\ take (len s) o = xs
                                      /\ length (take (len s) o) = len s) E) as Hold.
      { unfold old. destruct (len s =? 0) eqn:Hz.
        - apply Nat.eqb_eq in Hz. apply wp_ret. rewrite Hz in *.
          rewrite take_0 in Hxs. subst xs. auto.
        - eapply wp_array_of; eauto. repeat split; auto.
          rewrite length_take. lia. }
      apply wp_bind. eapply wp_conseq; [exact Hold | | auto].
      intros o st' (-> & Ho & Holen). simpl.
      apply wp_bind, wp_new. intros l' Hl'. apply wp_ret.
      apply HQ; [auto | | lia |].
      * rewrite take_app_ge by lia. rewrite Holen, Ho.
        replace (S (len s) - len s) with 1 by lia. reflexivity.
      * rewrite length_app, Holen. simpl. rewrite length_replicate. lia.
  - unfold append. rewrite Hlen, Hcap. simpl.
    apply wp_bind, wp_ret, wp_bind, wp_new. intros l' Hl'. apply wp_ret.
    specialize (HQ l' (v :: replicate (Nat.max 1 (nextslicecap 1 0) - 1) zero)
                   (Nat.max 1 (nextslicecap 1 0))).
    rewrite Hlen in HQ. apply HQ; [auto | reflexivity | lia |].
    simpl. rewrite length_replicate. lia.
Qed.

(** [AddObject] puts the polygon at the end of [Objects]; it writes to the
    scene and to the array of [Objects] (or a new one), nowhere else. *)
Lemma wp_Space_AddObject s m polys p pts c st :
  scene_with (heap st) s m polys ->
  polygon_at (heap st) p pts c ->
  wp (Space_AddObject s p) st
     (fun _ st' =>
        scene_at (heap st') s m (polys ++ [(pts, c)]) /\
        calls st' = calls st /\
        (forall q qpts qc, polygon_at (heap st) q qpts qc ->
                           polygon_at (heap st') q qpts qc))
     (fun _ => False).
Proof.
  intros (ls & sp & ptrs & -> & Hls & Hm & Hobjs & Hpolys) Hp.
  unfold Space_AddObject.
  apply wp_bind. eapply wp_load_Space; [exact Hls|].
  apply wp_bind. eapply wp_append_lists; [exact Hobjs|].
  intros l' a' c' Hl' Htake Hc1 Hc2.
  assert (l' <> ls) as Hne.
  { destruct Hl' as [(a & _ & Ha) | Hfresh].
    - intros ->. rewrite Hls in Ha. simpl in Ha. discriminate.
    - intros ->. apply Hfresh, elem_of_dom. eauto. }
  assert (no_polygon_data (heap st) l') as Hno'.
  { destruct Hl' as [(a & _ & Ha) | Hfresh]; [|apply no_polygon_data_fresh, Hfresh].
    intros o Ho. right. exists a. rewrite Ha in Ho. injection Ho as <-. reflexivity. }
  assert (no_polygon_data (<[l' := OPtrs a']> (heap st)) ls) as Hno.
  { apply no_polygon_data_insert; [|congruence].
    intros o Ho. left. exists sp. congruence. }
  apply wp_bind. eapply wp_load_Space.
  { simpl. rewrite lookup_insert_ne by congruence. exact Hls. }
  eapply wp_write.
  { simpl. rewrite lookup_insert_ne by congruence. exact Hls. }
  simpl.
  assert (forall q qpts qc, polygon_at (heap st) q qpts qc ->
            polygon_at (<[ls := OSpace (Space.mk (Space.Matrix sp)
                                          (Slice (Some l') (S (len (Space.Objects sp))) c'))]>
                          (<[l' := OPtrs a']> (heap st))) q qpts qc) as Hkeep.
  { intros q qpts qc Hq. apply polygon_at_insert; [exact Hno|].
    apply polygon_at_insert; [exact Hno'|exact Hq]. }
  split; [|split; [reflexivity | exact Hkeep]].
  eexists ls, _, (ptrs ++ [p]). rewrite lookup_insert_eq.
  split; [reflexivity|]. split; [reflexivity|]. split; [exact Hm|]. simpl. split.
  - exists l', a'. simpl.
    rewrite lookup_insert_ne by congruence. rewrite lookup_insert_eq.
    repeat split; auto; lia.
  - apply Forall2_app.
    + eapply Forall2_impl; [exact Hpolys|]. intros q pc Hq. apply Hkeep, Hq.
    + constructor; [|constructor]. apply Hkeep, Hp.
Qed.

(** [Rotate] replaces the matrix of the scene and leaves the rest of the
    scene alone. *)
Lemma wp_Space_Rotate s m polys D st :
  scene_at (heap st) s m polys ->
  wp (Space_Rotate s D) st
     (fun _ st' => scene_at (heap st') s (matrixProduct m D) polys /\
                   calls st' = calls st)
     (fun _ => False).
Proof.
  intros (ls & sp & ptrs & -> & Hls & Hm & Hobjs & Hpolys).
  unfold wp. rewrite (Space_Rotate_run ls sp D st Hls). simpl.
  split; [|reflexivity].
  assert (no_polygon_data (heap st) ls) as Hno.
  { intros o Ho. left. exists sp. congruence. }
  eexists ls, _, ptrs. rewrite lookup_insert_eq.
  split; [reflexivity|]. split; [reflexivity|]. simpl.
  split; [rewrite Hm; reflexivity|]. split.
  - apply holds_insert_ne; [|exact Hobjs].
    destruct Hobjs as (l & a & Hb & Hl & _). rewrite Hb. intros [= ->].
    rewrite Hls in Hl. discriminate.
  - eapply Forall2_impl; [exact Hpolys|]. intros q pc Hq.
    apply polygon_at_insert; assumption.
Qed.

End SceneRules.

(** ** Building and drawing the scene of [run] *)

Lemma pushed_vertices c pts cur rest :
  pushed cur (flat_map (vertex_calls c) pts ++ rest)
  = map (fun p => (V (Point.X p) (Point.Y p), Some c)) pts
    ++ pushed (match pts with [] => cur | _ => Some c end) rest.
Proof.
  revert cur. induction pts as [|p pts IH]; intros cur; simpl; [reflexivity|].
  rewrite IH. destruct pts; reflexivity.
Qed.

(** The vertices of a frame, whatever color the context had before. *)
Lemma pushed_frame_calls m polys cur :
  pushed cur (frame_calls m polys) = flat_map (outline_vertices m) polys.
Proof.
  revert cur. induction polys as [|[pts c] polys IH]; intros cur; [reflexivity|].
  unfold frame_calls in *. simpl. unfold build_calls.
  rewrite <- !app_assoc, pushed_vertices. simpl. rewrite IH.
  unfold outline_vertices. simpl. reflexivity.
Qed.

Section RunRules.
Context `{GoRuntime}.

Lemma wp_literal {T} `{Elem T} (xs : list T) st (Q : slice -> state -> Prop) E :
  (forall l, l ∉ dom (heap st) ->
     Q (Slice (Some l) (length xs) (length xs))
       (State (<[l := inj xs]> (heap st)) (calls st))) ->
  wp (literal xs) st Q E.
Proof.
  intros HQ. unfold literal. apply wp_bind, wp_new. intros l Hl.
  apply wp_ret, HQ, Hl.
Qed.

Lemma wp_NewPolygon points color st (Q : ptr -> state -> Prop) E :
  3 <= len points ->
  (forall l, l ∉ dom (heap st) ->
     Q (Some l) (State (<[l := OPolygon (Polygon.mk points color)]> (heap st)) (calls st))) ->
  wp (NewPolygon points color) st Q E.
Proof.
  intros Hlen HQ. unfold NewPolygon.
  apply Nat.ltb_ge in Hlen as ->. apply wp_bind, wp_new. intros l Hl.
  apply wp_ret, HQ, Hl.
Qed.

(** One [space.AddObject(NewPolygon([]Point{...}, color))] of [run]. *)
Lemma wp_add_polygon s m polys pts c st :
  scene_with (heap st) s m polys ->
  3 <= length pts ->
  wp (points <- literal pts ;;
      polygon <- NewPolygon points c ;;
      Space_AddObject s polygon) st
     (fun _ st' => scene_with (heap st') s m (polys ++ [(pts, c)]) /\
                   calls st' = calls st)
     (fun _ => False).
Proof.
  intros Hscene Hlen.
  apply wp_bind, wp_literal. intros la Hla.
  apply wp_bind, wp_NewPolygon; [exact Hlen|]. intros lq Hlq. simpl in Hlq.
  rewrite dom_insert_L in Hlq.
  set (h1 := <[la := OPoints pts]> (heap st)).
  set (h2 := <[lq := OPolygon (Polygon.mk (Slice (Some la) (length pts) (length pts)) c)]> h1).
  assert (heap st ⊆ h2) as Hsub.
  { etrans; [apply insert_subseteq, not_elem_of_dom, Hla|].
    apply insert_subseteq, not_elem_of_dom. unfold h1. rewrite dom_insert_L. exact Hlq. }
  eapply wp_conseq;
    [apply (wp_Space_AddObject s m polys (Some lq) pts c) | | auto].
  - eapply scene_with_mono; [exact Hsub | exact Hscene].
  - eexists lq, _. simpl. fold h1. fold h2. unfold h2 at 1. rewrite lookup_insert_eq.
    split; [reflexivity|]. split; [reflexivity|]. split; [reflexivity|].
    exists la, pts. simpl. unfold h2, h1.
    rewrite lookup_insert_ne by set_solver. rewrite lookup_insert_eq.
    rewrite firstn_all. auto.
  - intros ? st' (Hs & Hc & _). split; [apply scene_at_with, Hs | exact Hc].
Qed.

Lemma wp_run_setup st :
  wp (run_setup None) st
     (fun space st' =>
        scene_at (heap st') space
                 (matrixProduct identityMatrix (rotationX (-0x1.51eb851eb851fp-2)))
                 run_polys /\
        calls st' = calls st)
     (fun _ => False).
Proof.
  unfold run_setup, NewSpace.
  apply wp_bind, wp_bind, wp_new. intros ls Hls. apply wp_ret.
  assert (scene_with (<[ls := OSpace (Space.mk identityMatrix nil_slice)]> (heap st))
                     (Some ls) identityMatrix []) as Hscene.
  { eexists ls, _, []. rewrite lookup_insert_eq.
    split; [reflexivity|]. split; [reflexivity|]. split; [reflexivity|].
    split; [right; auto | constructor]. }
  apply wp_bind, wp_ret. cbv zeta.
  assert (calls (State (<[ls := OSpace (Space.mk identityMatrix nil_slice)]> (heap st))
                       (calls st)) = calls st) as Hc by reflexivity.
  repeat (apply wp_bind;
          eapply wp_conseq;
            [eapply wp_add_polygon; [eassumption | simpl; lia] | | auto];
          clear Hscene; intros ? ? [Hscene Hc'];
          pose proof (eq_trans Hc' Hc) as Hc''; clear Hc Hc'; rename Hc'' into Hc;
          simpl app in Hscene).
  apply wp_bind. unfold Space_RotateX.
  destruct Hscene as (l & sp & ptrs & Hs & Hl & Hm & [Hobjs | (Hlen & _ & ->)] & Hpolys).
  2: { apply Forall2_length in Hpolys. simpl in Hpolys. discriminate. }
  eapply wp_conseq;
    [apply (wp_Space_Rotate (Some ls) identityMatrix run_polys); exists l, sp, ptrs; auto
    | | auto].
  intros ? stR [HsR HcR]. apply wp_ret. split; [exact HsR | congruence].
Qed.

(** One turn of the loop of [run]. *)
Lemma wp_run_frame s m polys st :
  (forall n, steps_in_range n (sort_Sort_steps n)) ->
  scene_at (heap st) s m polys ->
  Forall (fun pc => fst pc <> []) polys ->
  wp (run_frame s) st
     (fun _ st' =>
        scene_at (heap st') s (matrixProduct m (rotationY 0x1.0e5604189374cp-5)) polys /\
        calls st' = frame_calls m polys)
     (fun _ => False).
Proof.
  intros Hsort Hscene Hne. unfold run_frame.
  apply wp_bind. unfold wp at 1, imdraw_New.
  apply wp_bind.
  eapply wp_conseq;
    [apply (wp_Space_Draw s m polys); [exact Hsort | exact Hscene | exact Hne] | | auto].
  intros ? st1 [Hsub Hc]. simpl in Hsub, Hc.
  eapply wp_conseq;
    [apply (wp_Space_Rotate s m polys); eapply scene_at_mono; eauto | | auto].
  intros ? st2 [Hs2 Hc2]. split; [exact Hs2 | congruence].
Qed.

Lemma matrix_after_S turns m :
  matrix_after (S turns) m
  = matrix_after turns (matrixProduct m (rotationY 0x1.0e5604189374cp-5)).
Proof.
  unfold matrix_after.
  apply (Nat.iter_succ_r turns
           (fun m' => matrixProduct m' (rotationY 0x1.0e5604189374cp-5)) m).
Qed.

Lemma wp_run_frames turns s m polys st :
  (forall n, steps_in_range n (sort_Sort_steps n)) ->
  scene_at (heap st) s m polys ->
  Forall (fun pc => fst pc <> []) polys ->
  wp (run_frames turns s) st
     (fun _ st' =>
        scene_at (heap st') s (matrix_after turns m) polys /\
        match turns with
        | 0 => st' = st
        | S k => calls st' = frame_calls (matrix_after k m) polys
        end)
     (fun _ => False).
Proof.
  intros Hsort Hscene Hne. revert m st Hscene.
  induction turns as [|k IH]; intros m st Hscene; cbn [run_frames].
  - apply wp_ret. auto.
  - apply wp_bind.
    eapply wp_conseq; [apply (wp_run_frame s m polys); assumption | | auto].
    intros ? st1 [Hs1 Hc1].
    eapply wp_conseq; [apply IH, Hs1 | | auto].
    intros ? st2 [Hs2 Hc2]. cbv beta in Hs2, Hc2.
    rewrite matrix_after_S. split; [exact Hs2|].
    destruct k as [|k']; [subst st2; exact Hc1|].
    rewrite matrix_after_S. exact Hc2.
Qed.

(** [Draw] on a scene without objects. *)
Lemma wp_Space_Draw_empty l sp st :
  steps_in_range 0 (sort_Sort_steps 0) ->
  heap st !! l = Some (OSpace sp) ->
  len (Space.Objects sp) = 0 ->
  wp (Space_Draw (Some l)) st
     (fun _ st' => heap st ⊆ heap st' /\ calls st' = calls st)
     (fun _ => False).
Proof.
  intros Hsort Hl Hlen. unfold Space_Draw, depth_pass.
  apply wp_bind, wp_bind. eapply wp_load_Space; [exact Hl|].
  rewrite Hlen.
  apply wp_bind, wp_make. intros lp Hlp.
  assert (l <> lp) as Hne by (intros ->; apply Hlp, elem_of_dom; eauto).
  assert (<[lp := OSets []]> (heap st) !! l = Some (OSpace sp)) as Hl'
    by (rewrite lookup_insert_ne by congruence; exact Hl).
  apply wp_bind. eapply wp_load_Space; [exact Hl'|].
  apply wp_bind. unfold range, range_fold. rewrite Hlen. simpl. apply wp_ret.
  apply wp_bind. unfold sort_Sort, ByCentroidDistance_Len. apply wp_bind, wp_ret.
  simpl. destruct (sort_Sort_steps 0) as [|i j k|i j k]; simpl in Hsort; [|lia|lia].
  simpl. apply wp_ret, wp_ret.
  apply wp_bind. eapply wp_load_Space; [exact Hl'|].
  rewrite Hlen. simpl. apply wp_ret. simpl.
  split; [|reflexivity]. apply insert_subseteq, not_elem_of_dom, Hlp.
Qed.

End RunRules.

(** ** Runs that panic *)

Lemma panics_Panic {A} (m : M A) st E :
  panics m st E -> exists msg st', m st = Panic msg st' /\ E msg st'.
Proof. unfold panics. destruct (m st); [tauto | eauto]. Qed.

Lemma panics_bind {A B} (m : M A) (k : A -> M B) st E :
  wp m st (fun a st' => panics (k a) st' E) (fun _ => False) ->
  panics (bind m k) st E.
Proof. unfold wp, panics, bind. destruct (m st); [auto | tauto]. Qed.

Lemma panics_bind_here {A B} (m : M A) (k : A -> M B) st E :
  panics m st E -> panics (bind m k) st E.
Proof. unfold panics, bind. destruct (m st); [tauto | auto]. Qed.

Lemma for_fold_app {A B} (l1 l2 : list A) (b : B) (body : A -> B -> M B) st :
  for_fold (l1 ++ l2) b body st
  = (b' <- for_fold l1 b body ;; for_fold l2 b' body) st.
Proof.
  revert b st. induction l1 as [|x l1 IH]; intros b st; simpl; [reflexivity|].
  unfold bind in *. destruct (body x b st) as [b' st'|msg st']; [apply IH | reflexivity].
Qed.

(** A loop panics when, after the iterations over [pre], the next one
    does. *)
Lemma panics_for_fold {A B} (pre post : list A) (x : A) (b : B)
    (body : A -> B -> M B) st E :
  wp (for_fold pre b body) st (fun b' st' => panics (body x b') st' E) (fun _ => False) ->
  panics (for_fold (pre ++ x :: post) b body) st E.
Proof.
  intros Hpre. unfold panics. rewrite for_fold_app.
  change (panics (b' <- for_fold pre b body ;; for_fold (x :: post) b' body) st E).
  apply panics_bind. eapply wp_conseq; [exact Hpre | | auto].
  intros b' st' Hx. simpl. apply panics_bind_here, Hx.
Qed.

Section NilObject.
Context `{GoRuntime}.

(** The depth pass of [Draw] on a scene whose object [k] is nil, the ones
    before it being polygons: it panics at [obj.Points]. *)
Lemma panics_depth_pass l sp ptrs k polys st :
  heap st !! l = Some (OSpace sp) ->
  holds (heap st) (Space.Objects sp) ptrs ->
  ptrs !! k = Some None ->
  Forall2 (fun p pc => polygon_at (heap st) p (fst pc) (snd pc)) (take k ptrs) polys ->
  panics (depth_pass (Some l)) st
         (fun msg st' => msg = nil_deref /\ calls st' = calls st /\ heap st ⊆ heap st').
Proof.
  intros Hl Hobjs Hk Hpolys.
  pose proof (holds_length _ _ _ Hobjs) as Hlen.
  pose proof (lookup_lt_Some _ _ _ Hk) as Hkn.
  assert (k < len (Space.Objects sp)) as Hkn' by (rewrite <- Hlen; exact Hkn).
  assert (len (Space.Objects sp)
          = k + S (len (Space.Objects sp) - S k)) as Hsplit0 by lia.
  set (n := len (Space.Objects sp)) in *.
  unfold depth_pass.
  apply panics_bind. eapply wp_load_Space; [exact Hl|].
  apply panics_bind, wp_make. intros lp Hlp. fold n.
  set (h1 := <[lp := OSets (replicate n nil_slice)]> (heap st)).
  assert (heap st ⊆ h1) as Hsub1 by (apply insert_subseteq, not_elem_of_dom, Hlp).
  apply panics_bind. eapply wp_load_Space; [eapply lookup_weaken; eauto|].
  apply panics_bind_here. unfold range, range_fold. fold n.
  assert (seq 0 n = seq 0 k ++ k :: seq (S k) (n - S k)) as ->.
  { rewrite Hsplit0 at 1. rewrite seq_app. reflexivity. }
  apply panics_for_fold.
  set (I := fun (done : list nat) (_ : unit) (st' : state) =>
              heap st ⊆ heap st' /\ calls st' = calls st /\
              exists a, heap st' !! lp = Some (OSets a) /\ length a = n).
  eapply wp_conseq;
    [apply (wp_for_fold I (fun _ => False)) | | auto].
  - unfold I. simpl. split; [exact Hsub1|]. split; [reflexivity|].
    eexists. unfold h1. rewrite lookup_insert_eq. split; [reflexivity|].
    apply length_replicate.
  - intros pre i b st' [post Hsplit] (Hsub' & Hc & a & Ha & Hla).
    assert (i < k) as Hik.
    { assert (i ∈ seq 0 k) as Hin by (rewrite Hsplit; set_solver).
      apply elem_of_seq in Hin. lia. }
    destruct (lookup_lt_is_Some_2 ptrs i) as [obj Hobj]; [lia|].
    assert (take k ptrs !! i = Some obj) as Hobj'
      by (rewrite lookup_take_lt by exact Hik; exact Hobj).
    destruct (Forall2_lookup_l _ _ _ _ _ Hpolys Hobj') as ([pts c] & Hpc & Hpoly).
    destruct Hpoly as (lo & poly & -> & Hlo & Hcol & Hpts). simpl in *.
    apply wp_bind. eapply wp_index; [eapply holds_mono; eauto | exact Hobj |].
    apply wp_bind, wp_make. intros lq Hlq.
    set (h2 := <[lq := OPoints (replicate 3 zeroPoint)]> (heap st')).
    assert (heap st' ⊆ h2) as Hsub2.
    { apply insert_subseteq, not_elem_of_dom, Hlq. }
    apply wp_bind. eapply wp_load_Polygon.
    { simpl. eapply lookup_weaken; [|exact Hsub2]. eapply lookup_weaken; eauto. }
    apply wp_bind.
    eapply wp_conseq;
      [eapply (wp_append_transformed (heap st') l sp poly pts) with
         (ys := replicate 3 zeroPoint) | | auto].
    + eapply lookup_weaken; eauto.
    + eapply holds_mono; eauto.
    + exact Hsub2.
    + exists lq, (replicate 3 zeroPoint). simpl. unfold h2.
      rewrite lookup_insert_eq. repeat split; auto.
    + exists lq. auto.
    + intros points st'' (Hsub'' & Hc'' & Hpoints & _). simpl in Hc''.
      assert (heap st'' !! lp = Some (OSets a)) as Ha''
        by (eapply lookup_weaken; eauto).
      assert (lp ∉ dom (heap st)) as Hlp0 by exact Hlp.
      eapply wp_set_index with (l := lp) (a := a); [reflexivity | exact Ha'' | simpl; lia |].
      unfold I. simpl. split; [|split; [congruence|]].
      * apply insert_subseteq_r; [apply not_elem_of_dom, Hlp0|].
        etrans; [exact Hsub'|]. exact Hsub''.
      * exists (<[i := points]> a). rewrite lookup_insert_eq, length_insert. auto.
  - intros ? st' (Hsub' & Hc & a & Ha & Hla). simpl.
    apply panics_bind. eapply wp_index; [eapply holds_mono; eauto | exact Hk |].
    apply panics_bind, wp_make. intros lq Hlq.
    unfold panics, bind, load_Polygon, deref. simpl.
    split; [reflexivity|]. split; [exact Hc|].
    etrans; [exact Hsub'|]. apply insert_subseteq, not_elem_of_dom, Hlq.
Qed.

End NilObject.

Section Pointless.
Context `{GoRuntime}.

(** [build] on a polygon without points. *)
Lemma Polygon_build_pointless l poly st :
  heap st !! l = Some (OPolygon poly) ->
  len (Polygon.Points poly) = 0 ->
  Polygon_build (Some l) st
  = Panic out_of_range (State (heap st) (calls st ++ [SetColor (Polygon.Color poly)])).
Proof.
  intros Hl Hlen. destruct st as [h cs]. simpl in *.
  assert (forall cs', load_Polygon (Some l) (State h cs') = Done poly (State h cs'))
    as Hload.
  { intros cs'. unfold load_Polygon, bind, deref. simpl. rewrite Hl. reflexivity. }
  unfold Polygon_build, bind. rewrite Hload.
  unfold range, range_fold. rewrite Hlen. simpl. unfold ret. rewrite Hload.
  unfold emit. simpl. rewrite Hload. unfold index. rewrite Hlen. reflexivity.
Qed.

(** [Draw] on a scene whose polygon [k] has no points, the ones before it
    having some: the polygons before it are drawn, then [build] panics. *)
Lemma panics_Space_Draw s m polys k c st :
  (forall n, steps_in_range n (sort_Sort_steps n)) ->
  scene_at (heap st) s m polys ->
  polys !! k = Some ([], c) ->
  Forall (fun pc => fst pc <> []) (take k polys) ->
  panics (Space_Draw s) st
         (fun msg st' => msg = out_of_range /\
                         calls st' = calls st ++ frame_calls m (take k polys)
                                              ++ [SetColor c] /\
                         heap st ⊆ heap st').
Proof.
  intros Hsort Hscene Hk Hne. unfold Space_Draw.
  apply panics_bind.
  eapply wp_conseq;
    [apply (wp_depth_pass (heap st) s m polys); [exact Hsort | exact Hscene | reflexivity]
    | | auto].
  intros ps st1 (Hsub1 & Hc1 & _). simpl.
  destruct Hscene as (ls & sp & ptrs & -> & Hls & <- & Hobjs & Hpolys).
  pose proof (holds_length _ _ _ Hobjs) as Hlen.
  pose proof (Forall2_length _ _ _ Hpolys) as Hlen2.
  pose proof (lookup_lt_Some _ _ _ Hk) as Hkn.
  assert (len (Space.Objects sp)
          = k + S (len (Space.Objects sp) - S k)) as Hsplit0 by lia.
  apply panics_bind. eapply wp_load_Space; [eapply lookup_weaken; eauto|].
  unfold range, range_fold. rewrite Hsplit0 at 1. rewrite seq_app. simpl.
  apply panics_for_fold.
  set (I := fun (done : list nat) (_ : unit) (st' : state) =>
              heap st ⊆ heap st' /\
              calls st' = calls st
                          ++ frame_calls (Space.Matrix sp) (take (length done) polys)).
  assert (forall i obj pts c' stx,
            ptrs !! i = Some obj -> polys !! i = Some (pts, c') ->
            heap st ⊆ heap stx ->
            exists lq polyq stq,
              index (T:=ptr) (Space.Objects sp) i stx = Done obj stx /\
              load_Space (Some ls) stx = Done sp stx /\
              Polygon_Transform obj (Space.Matrix sp) stx = Done (Some lq) stq /\
              heap stq !! lq = Some (OPolygon polyq) /\
              Polygon.Color polyq = c' /\
              holds (heap stq) (Polygon.Points polyq)
                    (map (matrixMultiply (Space.Matrix sp)) pts) /\
              heap st ⊆ heap stq /\ calls stq = calls stx) as Hstep.
  { intros i obj pts c' stx Hobj Hpc Hsubx.
    destruct (Forall2_lookup_l _ _ _ _ _ Hpolys Hobj) as (pc & Hpc' & Hpoly).
    rewrite Hpc in Hpc'. injection Hpc' as <-.
    destruct Hpoly as (lo & poly & -> & Hlo & Hcol & Hpts). simpl in *.
    assert (holds (heap stx) (Space.Objects sp) ptrs) as Hobjsx
      by (eapply holds_mono; eauto).
    destruct (wp_Done _ _ _
                (wp_index (Space.Objects sp) ptrs i (Some lo) stx
                   (fun x st' => x = Some lo /\ st' = stx) (fun _ => False)
                   Hobjsx Hobj (conj eq_refl eq_refl)))
      as (x & stx' & Hidx & -> & ->).
    assert (heap stx !! ls = Some (OSpace sp)) as Hlsx by (eapply lookup_weaken; eauto).
    destruct (wp_Done _ _ _
                (wp_load_Space ls sp stx (fun x st' => x = sp /\ st' = stx)
                   (fun _ => False) Hlsx (conj eq_refl eq_refl)))
      as (x & stx' & Hload & -> & ->).
    destruct (wp_Done _ _ _
                (wp_Polygon_Transform lo poly pts (Space.Matrix sp) stx
                   ltac:(eapply lookup_weaken; eauto) ltac:(eapply holds_mono; eauto)))
      as (q & stq & Htr & ln & lq & -> & Hln & Hlq & Hnq & Hcq & Hhq).
    pose proof (transformed_heap (heap stx) ln lq
                  (map (matrixMultiply (Space.Matrix sp)) pts) (Polygon.Color poly)
                  Hln Hlq Hnq) as [Hsubq Hnew].
    simpl in Hsubq, Hnew. rewrite length_map in Hsubq, Hnew.
    rewrite <- Hhq in Hsubq, Hnew.
    destruct Hnew as (lq' & poly' & Heq & Hlq' & Hcol' & Hpts').
    assert (lq' = lq) as -> by congruence.
    exists lq, poly', stq.
    split; [exact Hidx|]. split; [exact Hload|]. split; [exact Htr|].
    split; [exact Hlq'|]. split; [congruence|]. split; [exact Hpts'|].
    split; [etrans; eauto | exact Hcq]. }
  eapply wp_conseq;
    [apply (wp_for_fold I (fun _ => False)) | | auto].
  - unfold I. simpl. rewrite app_nil_r. split; [exact Hsub1 | exact Hc1].
  - intros pre i b st' [post Hsplit] (Hsub' & Hc).
    assert (i = length pre /\ i < k) as [-> Hik].
    { apply seq_split_at in Hsplit. exact Hsplit. }
    destruct (lookup_lt_is_Some_2 ptrs (length pre)) as [obj Hobj]; [lia|].
    destruct (lookup_lt_is_Some_2 polys (length pre)) as [[pts c'] Hpc]; [lia|].
    assert (pts <> []) as Hpne.
    { rewrite Forall_lookup in Hne.
      apply (Hne (length pre) (pts, c')). rewrite lookup_take_lt by exact Hik. exact Hpc. }
    destruct (Hstep _ _ _ _ st' Hobj Hpc Hsub')
      as (lq & polyq & stq & Hidx & Hload & Htr & Hlq & Hcol & Hpts & Hsubq & Hcq).
    pose proof (wp_Polygon_build lq polyq _ stq Hlq Hpts
                  ltac:(destruct pts; [congruence | discriminate])) as Hb.
    unfold wp, bind in *. rewrite Hidx, Hload, Htr.
    destruct (Polygon_build (Some lq) stq) as [[] st3|]; [|tauto].
    destruct Hb as [Hh3 Hc3]. unfold I. split.
    + rewrite Hh3. exact Hsubq.
    + rewrite Hc3, Hcq, Hc, length_app. simpl. rewrite Nat.add_1_r.
      erewrite (take_S_r polys) by eauto.
      unfold frame_calls. rewrite flat_map_app. simpl.
      rewrite app_nil_r, <- app_assoc, Hcol. reflexivity.
  - intros ? st' (Hsub' & Hc). rewrite length_seq in Hc.
    destruct (lookup_lt_is_Some_2 ptrs k) as [obj Hobj]; [lia|].
    destruct (Hstep _ _ _ _ st' Hobj Hk Hsub')
      as (lq & polyq & stq & Hidx & Hload & Htr & Hlq & Hcol & Hpts & Hsubq & Hcq).
    pose proof (holds_length _ _ _ Hpts) as Hlenq. simpl in Hlenq.
    unfold panics, bind. rewrite Hidx, Hload, Htr.
    rewrite (Polygon_build_pointless lq polyq stq Hlq (eq_sym Hlenq)).
    split; [reflexivity|]. simpl. split; [|exact Hsubq].
    rewrite Hcq, Hc, Hcol, <- app_assoc. reflexivity.
Qed.

End Pointless.

(** * Part IV: the properties of the specification *)

(** C1 (the code departs from the claim): on the scene of two triangles
    with the identity matrix, the depth pass of [Draw] puts the near triangle
    first and the far one last, and each point set it sorts starts with
    three zero points that are not points of the polygon.  Sorting the
    transformed points by the distance of their own centroid, as the claim
    describes, puts the far triangle first: its centroid is the farther one
    from the reference point, while among the padded sets the near
    triangle's is. *)
Lemma depth_pass_sorts_padded_point_sets :
  returned (depth_order (Some 1%positive) scene_state)
  = Some [replicate 3 zeroPoint ++ map (matrixMultiply identityMatrix) near_triangle;
          replicate 3 zeroPoint ++ map (matrixMultiply identityMatrix) far_triangle] /\
  described_depth_order identityMatrix [far_triangle; near_triangle]
  = [map (matrixMultiply identityMatrix) far_triangle;
     map (matrixMultiply identityMatrix) near_triangle] /\
  (let distance pts := euclideanDistance (centroid_of pts) referencePoint in
   (distance (map (matrixMultiply identityMatrix) near_triangle)
    <? distance (map (matrixMultiply identityMatrix) far_triangle))%float = true /\
   (distance (padded identityMatrix far_triangle)
    <? distance (padded identityMatrix near_triangle))%float = true).
Proof. repeat split; vm_compute; reflexivity. Qed.

(** C2: [Draw] on a scene with matrix [m] makes, for the polygons of
    [Objects] in their order of insertion, the calls of [build] on the
    polygon's points transformed by [m]; the runtime -- [sort.Sort] and what
    the depth pass did with it -- has no influence on the calls. *)
Theorem Draw_renders_in_insertion_order (rt rt' : GoRuntime)
    (s : ptr) (m : Matrix.t) (polys : list (list Point.t * RGBA)) (st : state) :
  (forall n, steps_in_range n (sort_Sort_steps (GoRuntime:=rt) n)) ->
  (forall n, steps_in_range n (sort_Sort_steps (GoRuntime:=rt') n)) ->
  scene_at (heap st) s m polys ->
  Forall (fun pc => fst pc <> []) polys ->
  exists st1 st2,
    Space_Draw (H:=rt) s st = Done tt st1 /\
    Space_Draw (H:=rt') s st = Done tt st2 /\
    calls st1 = calls st ++
      flat_map (fun pc => build_calls (map (matrixMultiply m) (fst pc)) (snd pc)) polys /\
    calls st2 = calls st1.
Proof.
  intros Hrt Hrt' Hscene Hne.
  destruct (wp_Done _ _ _ (wp_Space_Draw (H:=rt) s m polys st Hrt Hscene Hne))
    as ([] & st1 & Hrun1 & _ & Hc1).
  destruct (wp_Done _ _ _ (wp_Space_Draw (H:=rt') s m polys st Hrt' Hscene Hne))
    as ([] & st2 & Hrun2 & _ & Hc2).
  exists st1, st2. repeat split; auto. congruence.
Qed.

(** C2, at the scene of two triangles, with the reference runtime and with
    the runtime whose [sort.Sort] swaps the first two elements. *)
Lemma Draw_renders_in_insertion_order_witness :
  exists st1 st2,
    Space_Draw (H:=reference_runtime) (Some 1%positive) scene_state = Done tt st1 /\
    Space_Draw (H:=swapping_runtime) (Some 1%positive) scene_state = Done tt st2 /\
    calls st1 = calls scene_state ++
      flat_map (fun pc => build_calls (map (matrixMultiply identityMatrix) (fst pc)) (snd pc))
               [(far_triangle, black); (near_triangle, red)] /\
    calls st2 = calls st1.
Proof.
  apply (Draw_renders_in_insertion_order reference_runtime swapping_runtime
           (Some 1%positive) identityMatrix
           [(far_triangle, black); (near_triangle, red)] scene_state).
  - exact reference_sort_in_range.
  - exact swapping_sort_in_range.
  - exact scene_state_scene.
  - repeat constructor; discriminate.
Defined.

(** C3: [NewPolygon(points, color)] panics exactly when fewer than 3 points
    are supplied (with the message "A polygon must have at least 3 points");
    with 3 or more it returns a pointer to a new polygon that stores the
    very slice it was given -- so the point sequence read through it is the
    input, unchanged -- and the given color. *)
Theorem NewPolygon_fails_iff_fewer_than_3 (points : slice) (color : RGBA) (st : state) :
  (len points < 3 <-> exists msg st', NewPolygon points color st = Panic msg st') /\
  (len points < 3 ->
     NewPolygon points color st = Panic "A polygon must have at least 3 points" st) /\
  (3 <= len points ->
     exists l st',
       NewPolygon points color st = Done (Some l) st' /\
       (l ∉ dom (heap st)) /\
       heap st' = <[l := OPolygon (Polygon.mk points color)]> (heap st) /\
       calls st' = calls st /\
       forall pts, holds (heap st) points pts ->
                   polygon_at (heap st') (Some l) pts color).
Proof.
  unfold NewPolygon. destruct (len points <? 3) eqn:Hlt.
  - apply Nat.ltb_lt in Hlt. split; [|split].
    + split; [eauto | auto].
    + reflexivity.
    + lia.
  - apply Nat.ltb_ge in Hlt. split; [|split].
    + split; [lia|]. intros (msg & st' & Hrun). discriminate.
    + lia.
    + intros _. eexists _, _. split; [reflexivity|]. simpl.
      pose proof (is_fresh (dom (heap st))) as Hfresh.
      split; [exact Hfresh|]. split; [reflexivity|]. split; [reflexivity|].
      intros pts Hpts. eexists _, _. rewrite lookup_insert_eq.
      split; [reflexivity|]. split; [reflexivity|]. split; [reflexivity|].
      simpl. eapply holds_mono; [|exact Hpts].
      apply insert_subseteq, not_elem_of_dom, Hfresh.
Qed.

(** C4: [Rotate(D)] on a scene whose matrix is [M] stores the product
    [M x D] in the row-vector convention -- row by row, the row of the
    current matrix times the delta matrix -- and changes nothing else. *)
Theorem Rotate_stores_product (l : loc) (sp : Space.t) (D : Matrix.t) (st : state) :
  heap st !! l = Some (OSpace sp) ->
  Space_Rotate (Some l) D st =
  Done tt (State (<[l := OSpace (Space.mk (matrixProduct (Space.Matrix sp) D)
                                          (Space.Objects sp))]> (heap st))
                 (calls st)).
Proof. apply Space_Rotate_run. Qed.

(** C4, at the scene of two triangles and a delta matrix that swaps two
    axes. *)
Lemma Rotate_stores_product_witness :
  heap scene_state !! 1%positive
  = Some (OSpace (Space.mk identityMatrix (Slice (Some 7%positive) 2 2))) /\
  Space_Rotate (Some 1%positive)
    (Matrix.mk (Vector.mk 0 1 0) (Vector.mk 1 0 0) (Vector.mk 0 0 1)) scene_state
  = Done tt
      (State (<[1%positive :=
                  OSpace (Space.mk
                            (matrixProduct identityMatrix
                               (Matrix.mk (Vector.mk 0 1 0) (Vector.mk 1 0 0)
                                          (Vector.mk 0 0 1)))
                            (Slice (Some 7%positive) 2 2))]> (heap scene_state))
             (calls scene_state)).
Proof.
  split; [reflexivity|].
  apply (Rotate_stores_product 1%positive
           (Space.mk identityMatrix (Slice (Some 7%positive) 2 2))).
  reflexivity.
Defined.

(** C5: for every angle, [RotateX], [RotateY] and [RotateZ] on a scene
    with matrix [M] build the matrix with the rows the specification lists
    and compose it into the scene through [Rotate]: the call is the call of
    [Rotate] on that matrix, and it stores [M x R] -- the product of the
    scene's matrix and the rotation matrix, in the row-vector convention --
    in the scene, keeping [Objects] and everything else. *)
Theorem RotateXYZ_build_axis_matrices `{GoRuntime} (l : loc) (sp : Space.t)
    (angle : float) (st : state) :
  heap st !! l = Some (OSpace sp) ->
  let c := math_Cos angle in
  let sn := math_Sin angle in
  let composed (run : outcome unit) (R : Matrix.t) :=
    run = Space_Rotate (Some l) R st /\
    run = Done tt (State (<[l := OSpace (Space.mk (matrixProduct (Space.Matrix sp) R)
                                                  (Space.Objects sp))]> (heap st))
                         (calls st)) in
  (exists RX, rows RX = [[1; 0; 0]; [0; c; sn]; [0; - sn; c]]%float /\
              composed (Space_RotateX (Some l) angle st) RX) /\
  (exists RY, rows RY = [[c; 0; - sn]; [0; 1; 0]; [sn; 0; c]]%float /\
              composed (Space_RotateY (Some l) angle st) RY) /\
  (exists RZ, rows RZ = [[c; sn; 0]; [- sn; c; 0]; [0; 0; 1]]%float /\
              composed (Space_RotateZ (Some l) angle st) RZ).
Proof.
  intros Hl c sn composed. unfold composed. split; [|split].
  - exists (Matrix.mk (Vector.mk 1 0 0) (Vector.mk 0 c sn) (Vector.mk 0 (- sn) c)).
    split; [reflexivity|]. split; [reflexivity|].
    exact (Space_Rotate_run l sp _ st Hl).
  - exists (Matrix.mk (Vector.mk c 0 (- sn)) (Vector.mk 0 1 0) (Vector.mk sn 0 c)).
    split; [reflexivity|]. split; [reflexivity|].
    exact (Space_Rotate_run l sp _ st Hl).
  - exists (Matrix.mk (Vector.mk c sn 0) (Vector.mk (- sn) c 0) (Vector.mk 0 0 1)).
    split; [reflexivity|]. split; [reflexivity|].
    exact (Space_Rotate_run l sp _ st Hl).
Qed.

(** C5, at the scene of two triangles and the angle [1], with the
    polynomials of the reference runtime for [math.Cos] and [math.Sin]. *)
Lemma RotateXYZ_build_axis_matrices_witness :
  heap scene_state !! 1%positive
  = Some (OSpace (Space.mk identityMatrix (Slice (Some 7%positive) 2 2))) /\
  let c := math_Cos (GoRuntime:=reference_runtime) 1 in
  let sn := math_Sin (GoRuntime:=reference_runtime) 1 in
  let composed (run : outcome unit) (R : Matrix.t) :=
    run = Space_Rotate (Some 1%positive) R scene_state /\
    run = Done tt (State (<[1%positive :=
                              OSpace (Space.mk (matrixProduct identityMatrix R)
                                               (Slice (Some 7%positive) 2 2))]>
                            (heap scene_state))
                         (calls scene_state)) in
  (exists RX, rows RX = [[1; 0; 0]; [0; c; sn]; [0; - sn; c]]%float /\
              composed (Space_RotateX (H:=reference_runtime) (Some 1%positive) 1
                          scene_state) RX) /\
  (exists RY, rows RY = [[c; 0; - sn]; [0; 1; 0]; [sn; 0; c]]%float /\
              composed (Space_RotateY (H:=reference_runtime) (Some 1%positive) 1
                          scene_state) RY) /\
  (exists RZ, rows RZ = [[c; sn; 0]; [- sn; c; 0]; [0; 0; 1]]%float /\
              composed (Space_RotateZ (H:=reference_runtime) (Some 1%positive) 1
                          scene_state) RZ).
Proof.
  split; [reflexivity|].
  exact (RotateXYZ_build_axis_matrices (H:=reference_runtime) 1%positive
           (Space.mk identityMatrix (Slice (Some 7%positive) 2 2)) 1 scene_state
           eq_refl).
Defined.

(** C6: [P.Transform(M)] returns a pointer to a newly allocated polygon
    whose points are, position by position, [P]'s points times [M] (row
    vector times matrix), stored in a newly allocated array, and whose color
    is [P]'s; the heap it started from -- [P], its points and its color
    included -- is left as it was. *)
Theorem Transform_new_polygon_receiver_untouched
    (p : ptr) (pts : list Point.t) (c : RGBA) (m : Matrix.t) (st : state) :
  polygon_at (heap st) p pts c ->
  exists lq st' poly,
    Polygon_Transform p m st = Done (Some lq) st' /\
    (lq ∉ dom (heap st)) /\
    heap st' !! lq = Some (OPolygon poly) /\
    local_to (heap st) (base (Polygon.Points poly)) /\
    polygon_at (heap st') (Some lq) (map (matrixMultiply m) pts) c /\
    heap st ⊆ heap st' /\
    polygon_at (heap st') p pts c /\
    calls st' = calls st.
Proof.
  intros (l & poly & -> & Hl & Hc & Hpts).
  destruct (wp_Done _ _ _ (wp_Polygon_Transform l poly pts m st Hl Hpts))
    as (q & st' & Hrun & ln & lq & -> & Hln & Hlq & Hne & Hcalls & Hheap).
  destruct (transformed_heap (heap st) ln lq (map (matrixMultiply m) pts)
              (Polygon.Color poly) Hln Hlq Hne) as [Hsub Hnew].
  rewrite length_map in Hsub, Hnew. rewrite <- Hheap in Hsub, Hnew.
  eexists lq, st', _. split; [exact Hrun|]. split; [exact Hlq|].
  split; [rewrite Hheap; apply lookup_insert_eq|].
  split; [intros l' [= <-]; exact Hln|].
  split; [rewrite <- Hc; exact Hnew|].
  split; [exact Hsub|]. split; [|exact Hcalls].
  apply polygon_at_mono with (h := heap st); [exact Hsub|].
  exists l, poly. auto.
Qed.

(** C6, at the far triangle of the scene and a matrix that doubles [X]. *)
Lemma Transform_witness :
  exists lq st' poly,
    Polygon_Transform (Some 3%positive)
      (Matrix.mk (Vector.mk 2 0 0) (Vector.mk 0 1 0) (Vector.mk 0 0 1)) scene_state
    = Done (Some lq) st' /\
    (lq ∉ dom (heap scene_state)) /\
    heap st' !! lq = Some (OPolygon poly) /\
    local_to (heap scene_state) (base (Polygon.Points poly)) /\
    polygon_at (heap st') (Some lq)
      (map (matrixMultiply
              (Matrix.mk (Vector.mk 2 0 0) (Vector.mk 0 1 0) (Vector.mk 0 0 1)))
           far_triangle) black /\
    heap scene_state ⊆ heap st' /\
    polygon_at (heap st') (Some 3%positive) far_triangle black /\
    calls st' = calls scene_state.
Proof.
  apply (Transform_new_polygon_receiver_untouched (Some 3%positive) far_triangle black).
  exact far_polygon_in_scene_state.
Defined.

(** C7: [build] on a polygon with points [pts] (at least one) and color [c]
    sets the color and pushes [(X, Y)] for each point in stored order, then
    for the first point once more, then calls [Polygon(1)] and [Draw]; the
    vertices pushed are the [len(points) + 1] points of that outline,
    without [Z], each with color [c]; the heap is not touched. *)
Theorem build_pushes_outline (l : loc) (poly : Polygon.t) (pts : list Point.t)
    (st : state) :
  heap st !! l = Some (OPolygon poly) ->
  holds (heap st) (Polygon.Points poly) pts ->
  pts <> [] ->
  let c := Polygon.Color poly in
  let outline := pts ++ [hd zeroPoint pts] in
  exists st',
    Polygon_build (Some l) st = Done tt st' /\
    heap st' = heap st /\
    calls st' = calls st ++ flat_map (vertex_calls c) outline
                         ++ [PolygonCall 1; DrawCall] /\
    (forall cur,
       pushed cur (flat_map (vertex_calls c) outline ++ [PolygonCall 1; DrawCall])
       = map (fun pt => (V (Point.X pt) (Point.Y pt), Some c)) outline) /\
    length outline = len (Polygon.Points poly) + 1.
Proof.
  intros Hl Hpts Hne c outline.
  destruct (wp_Done _ _ _ (wp_Polygon_build l poly pts st Hl Hpts Hne))
    as ([] & st' & Hrun & Hheap & Hcalls).
  exists st'. split; [exact Hrun|]. split; [exact Hheap|].
  split; [exact Hcalls|]. split; [intros cur; apply pushed_outline|].
  unfold outline. rewrite length_app, (holds_length _ _ _ Hpts). reflexivity.
Qed.

(** C7, at the far triangle of the scene. *)
Lemma build_pushes_outline_witness :
  exists st',
    Polygon_build (Some 3%positive) scene_state = Done tt st' /\
    heap st' = heap scene_state /\
    calls st' = calls scene_state
                ++ flat_map (vertex_calls black) (far_triangle ++ [Point.mk (-1) 0 400])
                ++ [PolygonCall 1; DrawCall] /\
    (forall cur,
       pushed cur (flat_map (vertex_calls black) (far_triangle ++ [Point.mk (-1) 0 400])
                   ++ [PolygonCall 1; DrawCall])
       = map (fun pt => (V (Point.X pt) (Point.Y pt), Some black))
             (far_triangle ++ [Point.mk (-1) 0 400])) /\
    length (far_triangle ++ [Point.mk (-1) 0 400]) = 3 + 1.
Proof.
  apply (build_pushes_outline 3%positive (Polygon.mk (Slice (Some 2%positive) 3 3) black)
           far_triangle scene_state).
  - reflexivity.
  - exact far_points_in_scene_state.
  - discriminate.
Defined.

(** C8 (corrected): on a scene whose matrix has only finite entries, and
    with [math.Cos(0) = 1] and [math.Sin(0) = 0], each of [RotateX(0)],
    [RotateY(0)] and [RotateZ(0)] stores a matrix whose every entry
    compares equal ([==]) to the entry it replaces, and leaves [Objects]
    alone. *)
Theorem zero_angle_rotation_keeps_finite_matrix `{GoRuntime}
    (l : loc) (sp : Space.t) (st : state) :
  math_Cos 0 = 1%float ->
  math_Sin 0 = 0%float ->
  heap st !! l = Some (OSpace sp) ->
  finiteMatrix (Space.Matrix sp) = true ->
  let kept (run : outcome unit) :=
    exists m', run = Done tt (State (<[l := OSpace (Space.mk m' (Space.Objects sp))]> (heap st))
                                    (calls st)) /\
               Matrix_eqb m' (Space.Matrix sp) = true in
  kept (Space_RotateX (Some l) 0 st) /\
  kept (Space_RotateY (Some l) 0 st) /\
  kept (Space_RotateZ (Some l) 0 st).
Proof.
  intros Hcos Hsin Hl Hfin kept. unfold kept.
  unfold Space_RotateX, Space_RotateY, Space_RotateZ. rewrite Hcos, Hsin.
  repeat split; eexists; (split; [apply Space_Rotate_run, Hl|]);
    apply product_unit_like; try exact Hfin;
    repeat split; reflexivity.
Qed.

(** C8, at the scene of two triangles, whose matrix is the identity. *)
Lemma zero_angle_rotation_witness :
  (math_Cos 0 = 1%float /\ math_Sin 0 = 0%float) /\
  exists m',
    Space_RotateX (Some 1%positive) 0 scene_state
    = Done tt (State (<[1%positive :=
                          OSpace (Space.mk m' (Slice (Some 7%positive) 2 2))]>
                        (heap scene_state))
                     (calls scene_state)) /\
    Matrix_eqb m' identityMatrix = true.
Proof.
  split; [split; reflexivity|].
  exact (proj1 (zero_angle_rotation_keeps_finite_matrix 1%positive
                  (Space.mk identityMatrix (Slice (Some 7%positive) 2 2)) scene_state
                  eq_refl eq_refl eq_refl eq_refl)).
Defined.

(** C8 as stated fails: when the matrix has the entry [+Inf], [RotateX(0)]
    multiplies it by [0] and stores NaN where [0] was. *)
Lemma zero_angle_rotation_changes_infinite_matrix :
  stored_matrix (Some 1%positive) infinite_scene = Some infinite_matrix /\
  stored_matrix (Some 1%positive)
                (final (Space_RotateX (Some 1%positive) 0 infinite_scene))
  = Some (Matrix.mk (Vector.mk infinity nan nan) (Vector.mk 0 1 0) (Vector.mk 0 0 1)) /\
  Matrix_eqb (Matrix.mk (Vector.mk infinity nan nan) (Vector.mk 0 1 0) (Vector.mk 0 0 1))
             infinite_matrix = false.
Proof. repeat split; vm_compute; reflexivity. Qed.

(** C9: whatever the scene, the heap and the runtime, and whether [Draw]
    returns or panics, every array and struct that was in the heap before
    the call is there unchanged after it: the scene's matrix, its [Objects],
    each polygon with its points and color.  All writes of the sorting pass
    -- those of [Swap] included -- go to arrays that [Draw] allocated
    itself. *)
Theorem Draw_leaves_heap_untouched `{GoRuntime} (s : ptr) (st : state) :
  let st' := final (Space_Draw s st) in
  heap st ⊆ heap st' /\
  (forall l o, heap st !! l = Some o -> heap st' !! l = Some o) /\
  (forall m polys, scene_at (heap st) s m polys -> scene_at (heap st') s m polys).
Proof.
  intros st'.
  assert (heap st ⊆ heap st') as Hsub.
  { pose proof (frames_Space_Draw (heap st) s st ltac:(reflexivity)) as Hwp.
    unfold st', wp in *. destruct (Space_Draw s st); simpl; tauto. }
  split; [exact Hsub|]. split.
  - intros l o Hl. eapply lookup_weaken; eauto.
  - intros m polys. apply scene_at_mono, Hsub.
Qed.

(** C10: a polygon that [NewPolygon] returned has at least 3 points, so the
    access [p.Points[0]] in [build] is in bounds and [build] runs to its end
    without a panic -- right after construction and in every later state in
    which the polygon still has the slice it was given and the array of
    that slice is still there, whatever else has happened to the heap since
    (the polygon was added to a scene, the scene was rotated, other
    polygons were made, points were given new values). *)
Theorem build_in_bounds_after_NewPolygon
    (points : slice) (color : RGBA) (st st1 st2 : state)
    (l : loc) (poly : Polygon.t) (pts : list Point.t) :
  NewPolygon points color st = Done (Some l) st1 ->
  heap st2 !! l = Some (OPolygon poly) ->
  Polygon.Points poly = points ->
  holds (heap st2) points pts ->
  3 <= len points /\
  (exists first, pts !! 0 = Some first /\
                 index (T:=Point.t) points 0 st2 = Done first st2) /\
  exists st3, Polygon_build (Some l) st2 = Done tt st3 /\
              heap st3 = heap st2 /\
              calls st3 = calls st2 ++ build_calls pts (Polygon.Color poly).
Proof.
  intros Hnew Hl Hpoints Hpts. unfold NewPolygon in Hnew.
  destruct (len points <? 3) eqn:Hlt; [discriminate|].
  apply Nat.ltb_ge in Hlt. clear Hnew.
  pose proof (holds_length _ _ _ Hpts) as Hlen.
  destruct pts as [|first rest]; [simpl in Hlen; lia|].
  split; [exact Hlt|]. split.
  - exists first. split; [reflexivity|].
    pose proof (wp_index points (first :: rest) 0 first st2
                  (fun x st' => x = first /\ st' = st2) (fun _ => False)
                  Hpts eq_refl (conj eq_refl eq_refl)) as Hidx.
    apply wp_Done in Hidx as (x & st' & Hrun & -> & ->). exact Hrun.
  - rewrite <- Hpoints in Hpts.
    destruct (wp_Done _ _ _ (wp_Polygon_build l poly (first :: rest) st2 Hl Hpts
                               ltac:(discriminate)))
      as ([] & st3 & Hrun & Hheap & Hcalls).
    exists st3. auto.
Qed.

(** C10, at the far triangle of the scene of two triangles: the polygon was
    made by [NewPolygon] before [AddObject] replaced the scene it was
    added to, so the state after construction is not part of the state in
    which [build] runs. *)
Lemma build_in_bounds_witness :
  (NewPolygon (Slice (Some 2%positive) 3 3) black far_points_state
   = Done (Some 3%positive) far_polygon_state /\
   heap far_polygon_state !! 1%positive <> heap scene_state !! 1%positive) /\
  3 <= 3 /\
  (exists first, far_triangle !! 0 = Some first /\
                 index (T:=Point.t) (Slice (Some 2%positive) 3 3) 0 scene_state
                 = Done first scene_state) /\
  exists st3, Polygon_build (Some 3%positive) scene_state = Done tt st3 /\
              heap st3 = heap scene_state /\
              calls st3 = calls scene_state ++ build_calls far_triangle black.
Proof.
  split; [split; [reflexivity | discriminate]|].
  exact (build_in_bounds_after_NewPolygon (Slice (Some 2%positive) 3 3) black
           far_points_state far_polygon_state scene_state 3%positive
           (Polygon.mk (Slice (Some 2%positive) 3 3) black) far_triangle
           eq_refl eq_refl eq_refl far_points_in_scene_state).
Defined.

(** * Part V: further properties of the code *)

(** ** The depth pass and the matrix product *)

(** The depth pass of [Draw] in general: on a scene with matrix [m], and
    with a [sort.Sort] that stays within the slice, the array of the local
    slice [polygons] ends up holding a rearrangement of one point set per
    polygon, and the set of a polygon with points [pts] holds three zero
    points followed by [pts] transformed by [m]. *)
Theorem depth_pass_point_sets `{GoRuntime}
    (s : ptr) (m : Matrix.t) (polys : list (list Point.t * RGBA)) (st : state) :
  (forall n, steps_in_range n (sort_Sort_steps n)) ->
  scene_at (heap st) s m polys ->
  exists lp sets arranged st',
    depth_pass s st = Done (Slice (Some lp) (length polys) (length polys)) st' /\
    Forall2 (fun sl pc => contents (heap st') sl
                          = replicate 3 zeroPoint ++ map (matrixMultiply m) (fst pc))
            sets polys /\
    arranged ≡ₚ sets /\
    heap st' !! lp = Some (OSets arranged).
Proof.
  intros Hsort Hscene.
  destruct (wp_Done _ _ _ (wp_depth_pass (heap st) s m polys st Hsort Hscene
                             ltac:(reflexivity)))
    as (ps & st' & Hrun & _ & _ & lp & sets & arranged & -> & Hsets & Hperm & Hlp).
  exists lp, sets, arranged, st'. repeat split; auto.
  eapply Forall2_impl; [exact Hsets|]. intros sl pc Hsl. simpl in Hsl.
  apply holds_contents in Hsl. exact Hsl.
Qed.

Lemma depth_pass_point_sets_witness :
  exists lp sets arranged st',
    depth_pass (Some 1%positive) scene_state = Done (Slice (Some lp) 2 2) st' /\
    Forall2 (fun sl pc => contents (heap st') sl
                          = replicate 3 zeroPoint
                            ++ map (matrixMultiply identityMatrix) (fst pc))
            sets [(far_triangle, black); (near_triangle, red)] /\
    arranged ≡ₚ sets /\
    heap st' !! lp = Some (OSets arranged).
Proof.
  apply (depth_pass_point_sets (Some 1%positive) identityMatrix
           [(far_triangle, black); (near_triangle, red)] scene_state).
  - exact reference_sort_in_range.
  - exact scene_state_scene.
Defined.

(** [matrixMultiply] with the identity matrix gives back a point whose
    coordinates compare equal ([==]) to those of the point it was given, as
    long as these are finite. *)
Theorem matrixMultiply_identity (p : Point.t) :
  finite64 (Point.X p) = true -> finite64 (Point.Y p) = true ->
  finite64 (Point.Z p) = true ->
  Point_eqb (matrixMultiply identityMatrix p) p = true.
Proof.
  intros Hx Hy Hz. unfold Point_eqb, matrixMultiply. simpl.
  rewrite one_hot_1, one_hot_2, one_hot_3 by (assumption || reflexivity).
  reflexivity.
Qed.

Lemma matrixMultiply_identity_witness :
  Point_eqb (matrixMultiply identityMatrix (Point.mk (-50) 0 50)) (Point.mk (-50) 0 50)
  = true.
Proof. apply (matrixMultiply_identity (Point.mk (-50) 0 50)); reflexivity. Defined.

(** ** [computeCentroid] and [euclideanDistance] *)

(** [computeCentroid] on a slice that holds the points [pts] returns the
    point whose coordinates are the sums of the [X], the [Y] and the [Z] of
    [pts], added up from [0] in slice order, each divided by the number of
    points; it changes neither the heap nor the drawing context. *)
Theorem computeCentroid_averages_held_points (points : slice) (pts : list Point.t)
    (st : state) :
  holds (heap st) points pts ->
  computeCentroid points st = Done (centroid_of pts) st.
Proof.
  intros Hpts.
  assert (wp (computeCentroid points) st
             (fun c st' => c = centroid_of pts /\ st' = st) (fun _ => False)) as Hwp.
  { eapply wp_computeCentroid; [exact Hpts|]. auto. }
  apply wp_Done in Hwp as (c & st' & Hrun & -> & ->). exact Hrun.
Qed.

Lemma computeCentroid_averages_held_points_witness :
  computeCentroid (Slice (Some 2%positive) 3 3) scene_state
  = Done (centroid_of far_triangle) scene_state.
Proof.
  apply (computeCentroid_averages_held_points (Slice (Some 2%positive) 3 3) far_triangle
           scene_state).
  exact far_points_in_scene_state.
Defined.

(** [computeCentroid] on a slice of length 0 -- the nil slice included --
    does not panic: it divides [0] by [0] and returns the point
    [(NaN, NaN, NaN)]. *)
Theorem computeCentroid_of_no_points_is_NaN (points : slice) (st : state) :
  len points = 0 ->
  computeCentroid points st = Done (Point.mk nan nan nan) st.
Proof.
  intros Hlen. unfold computeCentroid, range_fold. rewrite Hlen. reflexivity.
Qed.

Lemma computeCentroid_of_no_points_is_NaN_witness :
  computeCentroid nil_slice empty_state = Done (Point.mk nan nan nan) empty_state.
Proof.
  apply (computeCentroid_of_no_points_is_NaN nil_slice empty_state). reflexivity.
Defined.

(** [euclideanDistance] never returns a number below zero, whatever
    [math.Pow] returns: the result is a square root, so it is [>= 0] or
    NaN. *)
Theorem euclideanDistance_never_negative `{GoRuntime} (a b : Point.t) :
  (euclideanDistance a b <? 0)%float = false.
Proof. unfold euclideanDistance. apply sqrt_not_negative. Qed.

(** The distance from a point with finite coordinates to itself is [+0],
    given that [math.Pow(0, 2)] is [0]. *)
Theorem euclideanDistance_to_itself `{GoRuntime} (a : Point.t) :
  math_Pow 0 2 = 0%float ->
  finite64 (Point.X a) = true -> finite64 (Point.Y a) = true ->
  finite64 (Point.Z a) = true ->
  euclideanDistance a a = 0%float.
Proof.
  intros Hpow Hx Hy Hz. unfold euclideanDistance.
  rewrite !sub_self by assumption. rewrite Hpow. reflexivity.
Qed.

Lemma euclideanDistance_to_itself_witness :
  euclideanDistance (H:=reference_runtime) (Point.mk (-50) 100 50) (Point.mk (-50) 100 50)
  = 0%float.
Proof.
  apply (euclideanDistance_to_itself (H:=reference_runtime) (Point.mk (-50) 100 50));
    reflexivity.
Defined.

(** ** [ByCentroidDistance]: [Swap] and [Less] *)

(** [Swap(i, j)] with both indices below [Len()] returns; afterwards the
    slice [ps] holds at [i] what it held at [j], at [j] what it held at
    [i], and at every other index what it held there; the only address
    written is the array of [ps], and no call is made. *)
Theorem Swap_exchanges_two_elements (bd : ByCentroidDistance.t) (sets : list slice)
    (i j : nat) (st : state) :
  holds (heap st) (ByCentroidDistance.ps bd) sets ->
  i < len (ByCentroidDistance.ps bd) -> j < len (ByCentroidDistance.ps bd) ->
  exists l st',
    ByCentroidDistance_Swap bd i j st = Done tt st' /\
    base (ByCentroidDistance.ps bd) = Some l /\
    holds (heap st') (ByCentroidDistance.ps bd) (swapped i j sets) /\
    swapped i j sets !! i = sets !! j /\
    swapped i j sets !! j = sets !! i /\
    (forall k, k <> i -> k <> j -> swapped i j sets !! k = sets !! k) /\
    (forall l', l' <> l -> heap st' !! l' = heap st !! l') /\
    calls st' = calls st.
Proof.
  intros Hps Hi Hj.
  pose proof (holds_length _ _ _ Hps) as Hlen.
  destruct Hps as (l0 & arr0 & Hb0 & Hl0 & Htake0 & Hle0 & Hcap0).
  destruct (Swap_run bd sets i j st) as (l & arr & Hb & Hl & Htake & Hle & Hrun);
    [exists l0, arr0; auto | exact Hi | exact Hj |].
  assert (l0 = l) as -> by congruence.
  destruct (swapped_at i j sets) as (Hsi & Hsj & Hsk); [lia | lia |].
  eexists l, _. split; [exact Hrun|]. split; [exact Hb|]. simpl.
  split; [|split; [exact Hsi|split; [exact Hsj|split; [exact Hsk|split]]]].
  - exists l, (swapped i j arr). rewrite lookup_insert_eq.
    split; [exact Hb|]. split; [reflexivity|].
    split; [rewrite take_swapped by assumption; rewrite Htake; reflexivity|].
    split; [exact Hle0|]. rewrite swapped_length.
    rewrite Hl in Hl0. injection Hl0 as <-. exact Hcap0.
  - intros l' Hne. apply lookup_insert_ne. congruence.
  - reflexivity.
Qed.

Lemma Swap_exchanges_two_elements_witness :
  exists l st',
    ByCentroidDistance_Swap sets_bd 0 1 sets_state = Done tt st' /\
    base (ByCentroidDistance.ps sets_bd) = Some l /\
    holds (heap st') (ByCentroidDistance.ps sets_bd)
          (swapped 0 1 [Slice (Some 1%positive) 3 3; Slice (Some 2%positive) 3 3]) /\
    swapped 0 1 [Slice (Some 1%positive) 3 3; Slice (Some 2%positive) 3 3] !! 0
    = [Slice (Some 1%positive) 3 3; Slice (Some 2%positive) 3 3] !! 1 /\
    swapped 0 1 [Slice (Some 1%positive) 3 3; Slice (Some 2%positive) 3 3] !! 1
    = [Slice (Some 1%positive) 3 3; Slice (Some 2%positive) 3 3] !! 0 /\
    (forall k, k <> 0 -> k <> 1 ->
       swapped 0 1 [Slice (Some 1%positive) 3 3; Slice (Some 2%positive) 3 3] !! k
       = [Slice (Some 1%positive) 3 3; Slice (Some 2%positive) 3 3] !! k) /\
    (forall l', l' <> l -> heap st' !! l' = heap sets_state !! l') /\
    calls st' = calls sets_state.
Proof.
  apply (Swap_exchanges_two_elements sets_bd _ 0 1 sets_state sets_state_sets);
    simpl; lia.
Defined.

(** [Swap(i, j)] followed by [Swap(i, j)] gives back exactly the state it
    started from. *)
Theorem Swap_twice_restores_state (bd : ByCentroidDistance.t) (sets : list slice)
    (i j : nat) (st : state) :
  holds (heap st) (ByCentroidDistance.ps bd) sets ->
  i < len (ByCentroidDistance.ps bd) -> j < len (ByCentroidDistance.ps bd) ->
  (ByCentroidDistance_Swap bd i j ;; ByCentroidDistance_Swap bd i j) st = Done tt st.
Proof.
  intros Hps Hi Hj.
  destruct (Swap_run bd sets i j st Hps Hi Hj) as (l & arr & Hb & Hl & Htake & Hle & Hrun).
  unfold bind. rewrite Hrun.
  set (st1 := State (<[l := OSets (swapped i j arr)]> (heap st)) (calls st)).
  destruct (Swap_run bd (swapped i j sets) i j st1) as (l' & arr' & Hb' & Hl' & _ & _ & Hrun');
    [|exact Hi|exact Hj|].
  { destruct Hps as (l0 & arr0 & Hb0 & Hl0 & Htake0 & Hle0 & Hcap0).
    assert (l0 = l) as -> by congruence.
    rewrite Hl in Hl0. injection Hl0 as <-.
    exists l, (swapped i j arr). unfold st1. simpl. rewrite lookup_insert_eq.
    split; [exact Hb|]. split; [reflexivity|].
    split; [rewrite take_swapped by assumption; rewrite Htake; reflexivity|].
    split; [exact Hle0|]. rewrite swapped_length. exact Hcap0. }
  assert (l' = l) as -> by congruence.
  unfold st1 in Hl'. simpl in Hl'. rewrite lookup_insert_eq in Hl'.
  injection Hl' as <-.
  rewrite Hrun'. unfold st1. simpl.
  rewrite swapped_swapped, insert_insert_eq, insert_id by exact Hl.
  destruct st. reflexivity.
Qed.

Lemma Swap_twice_restores_state_witness :
  (ByCentroidDistance_Swap sets_bd 0 1 ;; ByCentroidDistance_Swap sets_bd 0 1) sets_state
  = Done tt sets_state.
Proof.
  apply (Swap_twice_restores_state sets_bd _ 0 1 sets_state sets_state_sets);
    simpl; lia.
Defined.

(** [Swap(i, j)] with [i] or [j] at or above [Len()] panics with an index
    out of range, and has written nothing when it does: both elements are
    read before either is written. *)
Theorem Swap_out_of_range_panics (bd : ByCentroidDistance.t) (sets : list slice)
    (i j : nat) (st : state) :
  holds (heap st) (ByCentroidDistance.ps bd) sets ->
  len (ByCentroidDistance.ps bd) <= i \/ len (ByCentroidDistance.ps bd) <= j ->
  ByCentroidDistance_Swap bd i j st = Panic out_of_range st.
Proof.
  intros (l & arr & Hb & Hl & Htake & Hle & Hcap) Hout.
  unfold ByCentroidDistance_Swap, bind, index.
  destruct (j <? len (ByCentroidDistance.ps bd)) eqn:Hj; [|reflexivity].
  apply Nat.ltb_lt in Hj.
  destruct (lookup_lt_is_Some_2 arr j) as [x Hx]; [lia|].
  unfold bind, array_of, bind, deref. rewrite Hb, Hl. simpl. unfold ret. rewrite Hx.
  destruct (i <? len (ByCentroidDistance.ps bd)) eqn:Hi; [|reflexivity].
  apply Nat.ltb_lt in Hi. lia.
Qed.

Lemma Swap_out_of_range_panics_witness :
  ByCentroidDistance_Swap sets_bd 2 0 sets_state = Panic out_of_range sets_state.
Proof.
  apply (Swap_out_of_range_panics sets_bd _ 2 0 sets_state sets_state_sets).
  left. simpl. lia.
Defined.

(** [Less(i, j)] on a slice of point sets returns whether the centroid of
    set [i] is strictly farther from the reference point than the centroid
    of set [j]; it changes neither the heap nor the drawing context. *)
Theorem Less_compares_centroid_distances `{GoRuntime} (bd : ByCentroidDistance.t)
    (sets : list slice) (psets : list (list Point.t)) (i j : nat)
    (xi xj : list Point.t) (st : state) :
  holds (heap st) (ByCentroidDistance.ps bd) sets ->
  Forall2 (fun sl pts => holds (heap st) sl pts) sets psets ->
  psets !! i = Some xi -> psets !! j = Some xj ->
  ByCentroidDistance_Less bd i j st
  = Done (euclideanDistance (centroid_of xj) (ByCentroidDistance.refPoint bd)
          <? euclideanDistance (centroid_of xi) (ByCentroidDistance.refPoint bd))%float
         st.
Proof. apply Less_run. Qed.

Lemma Less_compares_centroid_distances_witness :
  ByCentroidDistance_Less (H:=reference_runtime) sets_bd 0 1 sets_state
  = Done (euclideanDistance (centroid_of near_triangle) referencePoint
          <? euclideanDistance (centroid_of far_triangle) referencePoint)%float
         sets_state.
Proof.
  apply (Less_compares_centroid_distances sets_bd _ [far_triangle; near_triangle] 0 1
           far_triangle near_triangle sets_state sets_state_sets sets_state_points);
    reflexivity.
Defined.

(** [Less] is a strict order on the indices of a slice of point sets:
    [Less(i, i)] is false; when [Less(i, j)] is true, [Less(j, i)] is
    false; and when [Less(i, j)] and [Less(j, k)] are true, so is
    [Less(i, k)] -- also when a distance is NaN. *)
Theorem Less_is_a_strict_order `{GoRuntime} (bd : ByCentroidDistance.t)
    (sets : list slice) (psets : list (list Point.t)) (i j k : nat) (st : state) :
  holds (heap st) (ByCentroidDistance.ps bd) sets ->
  Forall2 (fun sl pts => holds (heap st) sl pts) sets psets ->
  i < len (ByCentroidDistance.ps bd) -> j < len (ByCentroidDistance.ps bd) ->
  k < len (ByCentroidDistance.ps bd) ->
  exists bij bji bjk bik,
    ByCentroidDistance_Less bd i j st = Done bij st /\
    ByCentroidDistance_Less bd j i st = Done bji st /\
    ByCentroidDistance_Less bd j k st = Done bjk st /\
    ByCentroidDistance_Less bd i k st = Done bik st /\
    ByCentroidDistance_Less bd i i st = Done false st /\
    (bij = true -> bji = false) /\
    (bij = true -> bjk = true -> bik = true).
Proof.
  intros Hps Hsets Hi Hj Hk.
  pose proof (holds_length _ _ _ Hps) as Hlen.
  pose proof (Forall2_length _ _ _ Hsets) as Hlen2.
  destruct (lookup_lt_is_Some_2 psets i) as [xi Hxi]; [lia|].
  destruct (lookup_lt_is_Some_2 psets j) as [xj Hxj]; [lia|].
  destruct (lookup_lt_is_Some_2 psets k) as [xk Hxk]; [lia|].
  eexists _, _, _, _.
  rewrite (Less_run bd sets psets i j xi xj st Hps Hsets Hxi Hxj).
  rewrite (Less_run bd sets psets j i xj xi st Hps Hsets Hxj Hxi).
  rewrite (Less_run bd sets psets j k xj xk st Hps Hsets Hxj Hxk).
  rewrite (Less_run bd sets psets i k xi xk st Hps Hsets Hxi Hxk).
  rewrite (Less_run bd sets psets i i xi xi st Hps Hsets Hxi Hxi).
  repeat (split; [reflexivity|]). split; [|split].
  - rewrite ltb_irrefl. reflexivity.
  - apply ltb_asym.
  - intros Hij Hjk. exact (ltb_trans _ _ _ Hjk Hij).
Qed.

Lemma Less_is_a_strict_order_witness :
  exists bij bji bjk bik,
    ByCentroidDistance_Less (H:=reference_runtime) sets_bd 0 1 sets_state
    = Done bij sets_state /\
    ByCentroidDistance_Less (H:=reference_runtime) sets_bd 1 0 sets_state
    = Done bji sets_state /\
    ByCentroidDistance_Less (H:=reference_runtime) sets_bd 1 1 sets_state
    = Done bjk sets_state /\
    ByCentroidDistance_Less (H:=reference_runtime) sets_bd 0 1 sets_state
    = Done bik sets_state /\
    ByCentroidDistance_Less (H:=reference_runtime) sets_bd 0 0 sets_state
    = Done false sets_state /\
    (bij = true -> bji = false) /\
    (bij = true -> bjk = true -> bik = true).
Proof.
  apply (Less_is_a_strict_order sets_bd _ [far_triangle; near_triangle] 0 1 1 sets_state
           sets_state_sets sets_state_points); simpl; lia.
Defined.

(** ** [NewPolygon] and [build] at the edges *)

(** [NewPolygon] makes no copy of the points: the polygon it returns reads
    its points from the array of the slice it was given, so a later
    [points[i] = v] by the caller changes point [i] of the polygon. *)
Theorem NewPolygon_shares_the_callers_array (points : slice) (color : RGBA)
    (pts : list Point.t) (i : nat) (v : Point.t) (st : state) :
  holds (heap st) points pts ->
  3 <= len points -> i < len points ->
  exists l st',
    (p <- NewPolygon points color ;; set_index points i v ;; ret p) st
    = Done (Some l) st' /\
    polygon_at (heap st') (Some l) (<[i := v]> pts) color.
Proof.
  intros (la & a & Hb & Hla & Htake & Hle & Hcap) Hlen Hi.
  assert (wp (p <- NewPolygon points color ;; set_index points i v ;; ret p) st
             (fun p st' => exists l, p = Some l /\
                polygon_at (heap st') (Some l) (<[i := v]> pts) color)
             (fun _ => False)) as Hwp.
  { apply wp_bind, wp_NewPolygon; [exact Hlen|]. intros lq Hlq.
    assert (la <> lq) as Hne by (intros ->; apply Hlq, elem_of_dom; eauto).
    apply wp_bind.
    eapply wp_set_index with (l := la) (a := a); [exact Hb | | exact Hi |].
    { simpl. rewrite lookup_insert_ne by congruence. exact Hla. }
    apply wp_ret. exists lq. split; [reflexivity|]. simpl.
    eexists lq, _. split; [reflexivity|].
    split; [rewrite lookup_insert_ne by congruence; apply lookup_insert_eq|].
    split; [reflexivity|]. simpl.
    exists la, (<[i := v]> a). rewrite lookup_insert_eq, length_insert.
    split; [exact Hb|]. split; [reflexivity|].
    split; [rewrite take_insert_lt by exact Hi; rewrite Htake; reflexivity|]. auto. }
  apply wp_Done in Hwp as (p & st' & Hrun & l & -> & Hp). eauto.
Qed.

Lemma NewPolygon_shares_the_callers_array_witness :
  exists l st',
    (p <- NewPolygon (Slice (Some 1%positive) 3 3) black ;;
     set_index (Slice (Some 1%positive) 3 3) 2 zeroPoint ;; ret p) literal_state
    = Done (Some l) st' /\
    polygon_at (heap st') (Some l) (<[2 := zeroPoint]> far_triangle) black.
Proof.
  apply (NewPolygon_shares_the_callers_array (Slice (Some 1%positive) 3 3) black
           far_triangle 2 zeroPoint literal_state).
  - exists 1%positive, far_triangle. repeat split; simpl; lia.
  - simpl. lia.
  - simpl. lia.
Defined.

(** [build] on a polygon without points -- one made without [NewPolygon]
    -- sets the color and then panics at [p.Points[0]] with an index out of
    range: nothing was pushed, and [Polygon] and [Draw] are not reached. *)
Theorem build_without_points_panics (l : loc) (poly : Polygon.t) (st : state) :
  heap st !! l = Some (OPolygon poly) ->
  len (Polygon.Points poly) = 0 ->
  Polygon_build (Some l) st
  = Panic out_of_range (State (heap st) (calls st ++ [SetColor (Polygon.Color poly)])).
Proof. apply Polygon_build_pointless. Qed.

Lemma build_without_points_panics_witness :
  Polygon_build (Some 1%positive) pointless_state
  = Panic out_of_range (State (heap pointless_state) [SetColor black]).
Proof.
  apply (build_without_points_panics 1%positive (Polygon.mk nil_slice black)
           pointless_state); reflexivity.
Defined.

(** ** The scene: [AddObject], [Rotate] and [Draw] together *)

(** [AddObject(p)] on a scene -- a new one, whose [Objects] is still nil,
    included -- returns, and afterwards the scene lists the polygons it
    listed before, in the same order, followed by [p]; the matrix is the
    same, every polygon in the heap has the points and color it had, and no
    call is made. *)
Theorem AddObject_appends_polygon `{GoRuntime} (s p : ptr) (m : Matrix.t)
    (polys : list (list Point.t * RGBA)) (pts : list Point.t) (c : RGBA) (st : state) :
  scene_with (heap st) s m polys ->
  polygon_at (heap st) p pts c ->
  exists st',
    Space_AddObject s p st = Done tt st' /\
    scene_at (heap st') s m (polys ++ [(pts, c)]) /\
    calls st' = calls st /\
    (forall q qpts qc, polygon_at (heap st) q qpts qc -> polygon_at (heap st') q qpts qc).
Proof.
  intros Hscene Hp.
  destruct (wp_Done _ _ _ (wp_Space_AddObject s m polys p pts c st Hscene Hp))
    as ([] & st' & Hrun & Hrest).
  exists st'. split; [exact Hrun | exact Hrest].
Qed.

Lemma AddObject_appends_polygon_witness :
  exists st',
    Space_AddObject (H:=reference_runtime) (Some 1%positive) (Some 6%positive) scene_state
    = Done tt st' /\
    scene_at (heap st') (Some 1%positive) identityMatrix
             ([(far_triangle, black); (near_triangle, red)] ++ [(near_triangle, red)]) /\
    calls st' = calls scene_state /\
    (forall q qpts qc, polygon_at (heap scene_state) q qpts qc ->
                       polygon_at (heap st') q qpts qc).
Proof.
  apply (AddObject_appends_polygon (H:=reference_runtime) (Some 1%positive) (Some 6%positive)
           identityMatrix [(far_triangle, black); (near_triangle, red)] near_triangle red
           scene_state).
  - apply scene_at_with. exact scene_state_scene.
  - exact near_polygon_in_scene_state.
Defined.

(** [Rotate(A)] followed by [Rotate(B)] stores [(M x A) x B], where [M]
    is the matrix before; [Objects] is kept. *)
Theorem Rotate_twice_composes (l : loc) (sp : Space.t) (A B : Matrix.t) (st : state) :
  heap st !! l = Some (OSpace sp) ->
  (Space_Rotate (Some l) A ;; Space_Rotate (Some l) B) st
  = Done tt
      (State (<[l := OSpace (Space.mk (matrixProduct (matrixProduct (Space.Matrix sp) A) B)
                                      (Space.Objects sp))]> (heap st))
             (calls st)).
Proof.
  intros Hl. unfold bind. rewrite (Space_Rotate_run l sp A st Hl).
  erewrite Space_Rotate_run by (simpl; apply lookup_insert_eq).
  simpl. rewrite insert_insert_eq. reflexivity.
Qed.

Lemma Rotate_twice_composes_witness :
  (Space_Rotate (Some 1%positive) (rotationX (H:=reference_runtime) 1) ;;
   Space_Rotate (Some 1%positive) (rotationY (H:=reference_runtime) 1)) scene_state
  = Done tt
      (State (<[1%positive :=
                  OSpace (Space.mk
                            (matrixProduct
                               (matrixProduct identityMatrix
                                              (rotationX (H:=reference_runtime) 1))
                               (rotationY (H:=reference_runtime) 1))
                            (Slice (Some 7%positive) 2 2))]> (heap scene_state))
             (calls scene_state)).
Proof.
  apply (Rotate_twice_composes 1%positive
           (Space.mk identityMatrix (Slice (Some 7%positive) 2 2))).
  reflexivity.
Defined.

(** [Rotate(D)] followed by [Draw] renders the scene under [M x D]: the
    calls are those of [build] on every polygon's points times [M x D], in
    the order of [Objects]. *)
Theorem Rotate_then_Draw_renders_rotated `{GoRuntime} (s : ptr) (m D : Matrix.t)
    (polys : list (list Point.t * RGBA)) (st : state) :
  (forall n, steps_in_range n (sort_Sort_steps n)) ->
  scene_at (heap st) s m polys ->
  Forall (fun pc => fst pc <> []) polys ->
  exists st',
    (Space_Rotate s D ;; Space_Draw s) st = Done tt st' /\
    calls st' = calls st ++ frame_calls (matrixProduct m D) polys /\
    scene_at (heap st') s (matrixProduct m D) polys.
Proof.
  intros Hsort Hscene Hne.
  assert (wp (Space_Rotate s D ;; Space_Draw s) st
             (fun _ st' => calls st' = calls st ++ frame_calls (matrixProduct m D) polys /\
                           scene_at (heap st') s (matrixProduct m D) polys)
             (fun _ => False)) as Hwp.
  { apply wp_bind.
    eapply wp_conseq; [apply (wp_Space_Rotate s m polys D st Hscene) | | auto].
    intros ? st1 [Hs1 Hc1].
    eapply wp_conseq; [apply (wp_Space_Draw s _ polys st1 Hsort Hs1 Hne) | | auto].
    intros ? st2 [Hsub Hc2]. split; [congruence|].
    eapply scene_at_mono; eauto. }
  apply wp_Done in Hwp as ([] & st' & Hrun & Hrest). eauto.
Qed.

Lemma Rotate_then_Draw_renders_rotated_witness :
  exists st',
    (Space_Rotate (Some 1%positive) (rotationY (H:=reference_runtime) 1) ;;
     Space_Draw (H:=reference_runtime) (Some 1%positive)) scene_state = Done tt st' /\
    calls st' = calls scene_state
                ++ frame_calls (matrixProduct identityMatrix
                                              (rotationY (H:=reference_runtime) 1))
                               [(far_triangle, black); (near_triangle, red)] /\
    scene_at (heap st') (Some 1%positive)
             (matrixProduct identityMatrix (rotationY (H:=reference_runtime) 1))
             [(far_triangle, black); (near_triangle, red)].
Proof.
  apply (Rotate_then_Draw_renders_rotated (H:=reference_runtime) (Some 1%positive)
           identityMatrix (rotationY (H:=reference_runtime) 1)
           [(far_triangle, black); (near_triangle, red)] scene_state).
  - exact reference_sort_in_range.
  - exact scene_state_scene.
  - repeat constructor; discriminate.
Defined.

(** What [Draw] puts on the screen: the vertices it pushes are, polygon
    after polygon in the order of [Objects], the polygon's points times the
    scene's matrix followed by the first of them once more, each as
    [(X, Y)] and in the polygon's color -- whatever color the drawing
    context had before. *)
Theorem Draw_pushes_transformed_outlines `{GoRuntime} (s : ptr) (m : Matrix.t)
    (polys : list (list Point.t * RGBA)) (st : state) :
  (forall n, steps_in_range n (sort_Sort_steps n)) ->
  scene_at (heap st) s m polys ->
  Forall (fun pc => fst pc <> []) polys ->
  exists st' made,
    Space_Draw s st = Done tt st' /\
    calls st' = calls st ++ made /\
    forall cur, pushed cur made = flat_map (outline_vertices m) polys.
Proof.
  intros Hsort Hscene Hne.
  destruct (wp_Done _ _ _ (wp_Space_Draw s m polys st Hsort Hscene Hne))
    as ([] & st' & Hrun & _ & Hc).
  exists st', (frame_calls m polys). split; [exact Hrun|]. split; [exact Hc|].
  intros cur. apply pushed_frame_calls.
Qed.

Lemma Draw_pushes_transformed_outlines_witness :
  exists st' made,
    Space_Draw (H:=reference_runtime) (Some 1%positive) scene_state = Done tt st' /\
    calls st' = calls scene_state ++ made /\
    forall cur, pushed cur made
                = flat_map (outline_vertices identityMatrix)
                           [(far_triangle, black); (near_triangle, red)].
Proof.
  apply (Draw_pushes_transformed_outlines (H:=reference_runtime) (Some 1%positive)
           identityMatrix [(far_triangle, black); (near_triangle, red)] scene_state).
  - exact reference_sort_in_range.
  - exact scene_state_scene.
  - repeat constructor; discriminate.
Defined.

(** [Draw] twice in a row makes the same calls twice: the arrays the first
    [Draw] allocated and sorted have no influence on the second. *)
Theorem Draw_twice_repeats_the_calls `{GoRuntime} (s : ptr) (m : Matrix.t)
    (polys : list (list Point.t * RGBA)) (st : state) :
  (forall n, steps_in_range n (sort_Sort_steps n)) ->
  scene_at (heap st) s m polys ->
  Forall (fun pc => fst pc <> []) polys ->
  exists st',
    (Space_Draw s ;; Space_Draw s) st = Done tt st' /\
    calls st' = calls st ++ frame_calls m polys ++ frame_calls m polys.
Proof.
  intros Hsort Hscene Hne.
  assert (wp (Space_Draw s ;; Space_Draw s) st
             (fun _ st' => calls st' = calls st ++ frame_calls m polys ++ frame_calls m polys)
             (fun _ => False)) as Hwp.
  { apply wp_bind.
    eapply wp_conseq; [apply (wp_Space_Draw s m polys st Hsort Hscene Hne) | | auto].
    intros ? st1 [Hsub1 Hc1].
    eapply wp_conseq;
      [apply (wp_Space_Draw s m polys st1 Hsort); [eapply scene_at_mono; eauto | exact Hne]
      | | auto].
    intros ? st2 [_ Hc2]. simpl in Hc2. rewrite Hc2, Hc1, <- app_assoc. reflexivity. }
  apply wp_Done in Hwp as ([] & st' & Hrun & Hrest). eauto.
Qed.

Lemma Draw_twice_repeats_the_calls_witness :
  exists st',
    (Space_Draw (H:=reference_runtime) (Some 1%positive) ;;
     Space_Draw (H:=reference_runtime) (Some 1%positive)) scene_state = Done tt st' /\
    calls st' = calls scene_state
                ++ frame_calls identityMatrix [(far_triangle, black); (near_triangle, red)]
                ++ frame_calls identityMatrix [(far_triangle, black); (near_triangle, red)].
Proof.
  apply (Draw_twice_repeats_the_calls (H:=reference_runtime) (Some 1%positive)
           identityMatrix [(far_triangle, black); (near_triangle, red)] scene_state).
  - exact reference_sort_in_range.
  - exact scene_state_scene.
  - repeat constructor; discriminate.
Defined.

(** [Draw] on a scene without objects -- the scene [NewSpace] returns, whose
    [Objects] is nil, included -- returns without a call on the drawing
    context and leaves the heap it found as it was, given that [sort.Sort]
    on a collection of length 0 calls neither [Less] nor [Swap]. *)
Theorem Draw_on_empty_scene_makes_no_call `{GoRuntime} (l : loc) (sp : Space.t)
    (st : state) :
  steps_in_range 0 (sort_Sort_steps 0) ->
  heap st !! l = Some (OSpace sp) ->
  len (Space.Objects sp) = 0 ->
  exists st',
    Space_Draw (Some l) st = Done tt st' /\
    calls st' = calls st /\
    heap st ⊆ heap st'.
Proof.
  intros Hsort Hl Hlen.
  destruct (wp_Done _ _ _ (wp_Space_Draw_empty l sp st Hsort Hl Hlen))
    as ([] & st' & Hrun & Hsub & Hc).
  eauto.
Qed.

Lemma Draw_on_empty_scene_makes_no_call_witness :
  exists st',
    Space_Draw (H:=reference_runtime) (Some 1%positive) new_space_state = Done tt st' /\
    calls st' = calls new_space_state /\
    heap new_space_state ⊆ heap st'.
Proof.
  apply (Draw_on_empty_scene_makes_no_call (H:=reference_runtime) 1%positive
           (Space.mk identityMatrix nil_slice) new_space_state).
  - exact (reference_sort_in_range 0).
  - reflexivity.
  - reflexivity.
Defined.

(** ** [run] *)

(** The set-up of [run].  When [pixelgl.NewWindow] gives no error, it
    returns -- whatever capacities [append] picks -- a scene that lists the
    eight polygons of [run_polys] in the order they were added, with the
    matrix [identity x RotateX(-0.33)], and makes no call on a drawing
    context; when [NewWindow] gives the error [e], it panics with [e]. *)
Theorem run_setup_builds_the_scene `{GoRuntime} (st : state) :
  (exists space st',
     run_setup None st = Done space st' /\
     scene_at (heap st') space
              (matrixProduct identityMatrix (rotationX (-0x1.51eb851eb851fp-2)))
              run_polys /\
     calls st' = calls st) /\
  (forall e, exists st', run_setup (Some e) st = Panic e st' /\ calls st' = calls st).
Proof.
  split.
  - destruct (wp_Done _ _ _ (wp_run_setup st)) as (space & st' & Hrun & Hrest).
    eauto.
  - intros e. eexists. split; reflexivity.
Qed.

(** The loop of [run], from a scene with matrix [m] whose polygons have
    points: every turn returns; after [turns] turns the scene lists the same
    polygons and its matrix is [m] times the matrix of [RotateY(0.033)],
    [turns] times over; and the drawing context of the last turn holds
    exactly the calls of one frame, made with the matrix the scene had when
    that turn began. *)
Theorem run_frames_render_and_turn `{GoRuntime} (turns : nat) (s : ptr) (m : Matrix.t)
    (polys : list (list Point.t * RGBA)) (st : state) :
  (forall n, steps_in_range n (sort_Sort_steps n)) ->
  scene_at (heap st) s m polys ->
  Forall (fun pc => fst pc <> []) polys ->
  exists st',
    run_frames turns s st = Done tt st' /\
    scene_at (heap st') s (matrix_after turns m) polys /\
    forall k, turns = S k -> calls st' = frame_calls (matrix_after k m) polys.
Proof.
  intros Hsort Hscene Hne.
  destruct (wp_Done _ _ _ (wp_run_frames turns s m polys st Hsort Hscene Hne))
    as ([] & st' & Hrun & Hs & Hc).
  exists st'. split; [exact Hrun|]. split; [exact Hs|].
  intros k ->. exact Hc.
Qed.

Lemma run_frames_render_and_turn_witness :
  exists st',
    run_frames (H:=reference_runtime) 2 (Some 1%positive) scene_state = Done tt st' /\
    scene_at (heap st') (Some 1%positive)
             (matrix_after (H:=reference_runtime) 2 identityMatrix)
             [(far_triangle, black); (near_triangle, red)] /\
    forall k, 2 = S k ->
      calls st' = frame_calls (matrix_after (H:=reference_runtime) k identityMatrix)
                              [(far_triangle, black); (near_triangle, red)].
Proof.
  apply (run_frames_render_and_turn (H:=reference_runtime) 2 (Some 1%positive)
           identityMatrix [(far_triangle, black); (near_triangle, red)] scene_state).
  - exact reference_sort_in_range.
  - exact scene_state_scene.
  - repeat constructor; discriminate.
Defined.

(** [run] as a whole, when the window was created and is closed after
    [turns] turns: it returns, from any state, whatever capacities [append]
    picks and whatever values [math.Cos], [math.Sin] and [math.Pow] return,
    as long as [sort.Sort] only names indices below [Len()].  The drawing
    context of the last turn holds the frame of the eight polygons under
    the matrix [identity x RotateX(-0.33)] turned by [RotateY(0.033)] once
    for every turn before; the vertices pushed are the points of each
    polygon times that matrix, and the first one again, without [Z]. *)
Theorem run_returns_after_every_turn `{GoRuntime} (turns : nat) (st : state) :
  (forall n, steps_in_range n (sort_Sort_steps n)) ->
  exists st',
    run None turns st = Done tt st' /\
    forall k, turns = S k ->
      let shown := matrix_after k (matrixProduct identityMatrix
                                     (rotationX (-0x1.51eb851eb851fp-2))) in
      calls st' = frame_calls shown run_polys /\
      forall cur, pushed cur (calls st') = flat_map (outline_vertices shown) run_polys.
Proof.
  intros Hsort.
  assert (wp (run None turns) st
             (fun _ st' =>
                forall k, turns = S k ->
                  calls st' = frame_calls
                                (matrix_after k (matrixProduct identityMatrix
                                                   (rotationX (-0x1.51eb851eb851fp-2))))
                                run_polys)
             (fun _ => False)) as Hwp.
  { unfold run. apply wp_bind.
    eapply wp_conseq; [apply wp_run_setup | | auto].
    intros space st1 [Hs1 _].
    eapply wp_conseq; [apply (wp_run_frames turns space _ run_polys st1 Hsort Hs1) | | auto].
    - repeat constructor; discriminate.
    - intros ? st2 [_ Hc] k ->. exact Hc. }
  apply wp_Done in Hwp as ([] & st' & Hrun & Hrest).
  exists st'. split; [exact Hrun|]. intros k Hk shown.
  specialize (Hrest k Hk). fold shown in Hrest. split; [exact Hrest|].
  intros cur. rewrite Hrest. apply pushed_frame_calls.
Qed.

Lemma run_returns_after_every_turn_witness :
  exists st',
    run (H:=reference_runtime) None 3 empty_state = Done tt st' /\
    forall k, 3 = S k ->
      let shown := matrix_after (H:=reference_runtime) k
                     (matrixProduct identityMatrix
                        (rotationX (H:=reference_runtime) (-0x1.51eb851eb851fp-2))) in
      calls st' = frame_calls shown run_polys /\
      forall cur, pushed cur (calls st') = flat_map (outline_vertices shown) run_polys.
Proof.
  apply (run_returns_after_every_turn (H:=reference_runtime) 3 empty_state).
  exact reference_sort_in_range.
Defined.

(** ** More on the scene *)

(** [AddObject(p)] followed by [Draw] draws the polygons the scene had, in
    their order, and [p] last. *)
Theorem AddObject_then_Draw_draws_it_last `{GoRuntime} (s p : ptr) (m : Matrix.t)
    (polys : list (list Point.t * RGBA)) (pts : list Point.t) (c : RGBA) (st : state) :
  (forall n, steps_in_range n (sort_Sort_steps n)) ->
  scene_with (heap st) s m polys ->
  Forall (fun pc => fst pc <> []) polys ->
  polygon_at (heap st) p pts c ->
  pts <> [] ->
  exists st',
    (Space_AddObject s p ;; Space_Draw s) st = Done tt st' /\
    calls st' = calls st ++ frame_calls m polys
                         ++ build_calls (map (matrixMultiply m) pts) c.
Proof.
  intros Hsort Hscene Hne Hp Hpts.
  assert (wp (Space_AddObject s p ;; Space_Draw s) st
             (fun _ st' => calls st' = calls st ++ frame_calls m polys
                                       ++ build_calls (map (matrixMultiply m) pts) c)
             (fun _ => False)) as Hwp.
  { apply wp_bind.
    eapply wp_conseq; [apply (wp_Space_AddObject s m polys p pts c st Hscene Hp) | | auto].
    intros ? st1 (Hs1 & Hc1 & _).
    eapply wp_conseq; [apply (wp_Space_Draw s m _ st1 Hsort Hs1) | | auto].
    - apply Forall_app. split; [exact Hne|]. repeat constructor. exact Hpts.
    - intros ? st2 [_ Hc2]. simpl in Hc2. rewrite Hc2, Hc1.
      unfold frame_calls. rewrite flat_map_app. simpl. rewrite app_nil_r. reflexivity. }
  apply wp_Done in Hwp as ([] & st' & Hrun & Hrest). eauto.
Qed.

Lemma AddObject_then_Draw_draws_it_last_witness :
  exists st',
    (Space_AddObject (H:=reference_runtime) (Some 1%positive) (Some 3%positive) ;;
     Space_Draw (H:=reference_runtime) (Some 1%positive)) scene_state = Done tt st' /\
    calls st' = calls scene_state
                ++ frame_calls identityMatrix [(far_triangle, black); (near_triangle, red)]
                ++ build_calls (map (matrixMultiply identityMatrix) far_triangle) black.
Proof.
  apply (AddObject_then_Draw_draws_it_last (H:=reference_runtime) (Some 1%positive)
           (Some 3%positive) identityMatrix [(far_triangle, black); (near_triangle, red)]
           far_triangle black scene_state).
  - exact reference_sort_in_range.
  - apply scene_at_with. exact scene_state_scene.
  - repeat constructor; discriminate.
  - exact far_polygon_in_scene_state.
  - discriminate.
Defined.

(** [Draw] on a scene with a nil object -- object [k] of [Objects], those
    before it being polygons -- panics with a nil pointer dereference while
    it still collects the points to sort: no call has been made on the
    drawing context, not even for the polygons before the nil one, and the
    heap it found is as it was. *)
Theorem Draw_panics_on_nil_object `{GoRuntime} (l : loc) (sp : Space.t)
    (ptrs : list ptr) (k : nat) (polys : list (list Point.t * RGBA)) (st : state) :
  heap st !! l = Some (OSpace sp) ->
  holds (heap st) (Space.Objects sp) ptrs ->
  ptrs !! k = Some None ->
  Forall2 (fun p pc => polygon_at (heap st) p (fst pc) (snd pc)) (take k ptrs) polys ->
  exists st',
    Space_Draw (Some l) st = Panic nil_deref st' /\
    calls st' = calls st /\
    heap st ⊆ heap st'.
Proof.
  intros Hl Hobjs Hk Hpolys.
  assert (panics (Space_Draw (Some l)) st
                 (fun msg st' => msg = nil_deref /\ calls st' = calls st /\
                                 heap st ⊆ heap st')) as Hp.
  { unfold Space_Draw. apply panics_bind_here.
    eapply panics_depth_pass; eauto. }
  apply panics_Panic in Hp as (msg & st' & Hrun & -> & Hc & Hsub). eauto.
Qed.

Lemma Draw_panics_on_nil_object_witness :
  exists st',
    Space_Draw (H:=reference_runtime) (Some 1%positive) nil_object_state
    = Panic nil_deref st' /\
    calls st' = calls nil_object_state /\
    heap nil_object_state ⊆ heap st'.
Proof.
  apply (Draw_panics_on_nil_object (H:=reference_runtime) 1%positive
           (Space.mk identityMatrix (Slice (Some 8%positive) 3 4))
           [Some 3%positive; Some 6%positive; None] 2
           [(far_triangle, black); (near_triangle, red)] nil_object_state).
  - reflexivity.
  - exists 8%positive, [Some 3%positive; Some 6%positive; None; None].
    repeat split; simpl; lia.
  - reflexivity.
  - constructor; [|constructor; [|constructor]].
    + exists 3%positive, (Polygon.mk (Slice (Some 2%positive) 3 3) black).
      split; [reflexivity|]. split; [reflexivity|]. split; [reflexivity|].
      exists 2%positive, far_triangle. repeat split; simpl; lia.
    + exists 6%positive, (Polygon.mk (Slice (Some 5%positive) 3 3) red).
      split; [reflexivity|]. split; [reflexivity|]. split; [reflexivity|].
      exists 5%positive, near_triangle. repeat split; simpl; lia.
Defined.

(** The first [Rotate(D)] on a new scene stores [D] itself, as far as [==]
    can tell, when [D] has only finite entries: the identity matrix
    [NewSpace] starts with is neutral on the left. *)
Theorem first_Rotate_stores_the_rotation (D : Matrix.t) (st : state) :
  finiteMatrix D = true ->
  exists l st' m',
    (s <- NewSpace ;; Space_Rotate s D ;; ret s) st = Done (Some l) st' /\
    stored_matrix (Some l) st' = Some m' /\
    Matrix_eqb m' D = true.
Proof.
  intros HD. unfold NewSpace, bind, new, ret. simpl.
  erewrite Space_Rotate_run by (simpl; apply lookup_insert_eq).
  eexists _, _, _. split; [reflexivity|]. simpl. rewrite lookup_insert_eq.
  split; [reflexivity|]. simpl. apply identity_product, HD.
Qed.

Lemma first_Rotate_stores_the_rotation_witness :
  exists l st' m',
    (s <- NewSpace ;; Space_Rotate s (rotationY (H:=reference_runtime) 1) ;; ret s)
      empty_state = Done (Some l) st' /\
    stored_matrix (Some l) st' = Some m' /\
    Matrix_eqb m' (rotationY (H:=reference_runtime) 1) = true.
Proof.
  apply (first_Rotate_stores_the_rotation (rotationY (H:=reference_runtime) 1) empty_state).
  reflexivity.
Defined.

(** [Draw] on a scene whose polygon [k] has no points, those before it
    having some, panics with an index out of range in the middle of the
    frame: the polygons before [k] have been drawn in full, and for polygon
    [k] only the color has been set. *)
Theorem Draw_stops_at_polygon_without_points `{GoRuntime} (s : ptr) (m : Matrix.t)
    (polys : list (list Point.t * RGBA)) (k : nat) (c : RGBA) (st : state) :
  (forall n, steps_in_range n (sort_Sort_steps n)) ->
  scene_at (heap st) s m polys ->
  polys !! k = Some ([], c) ->
  Forall (fun pc => fst pc <> []) (take k polys) ->
  exists st',
    Space_Draw s st = Panic out_of_range st' /\
    calls st' = calls st ++ frame_calls m (take k polys) ++ [SetColor c] /\
    heap st ⊆ heap st'.
Proof.
  intros Hsort Hscene Hk Hne.
  destruct (panics_Panic _ _ _ (panics_Space_Draw s m polys k c st Hsort Hscene Hk Hne))
    as (msg & st' & Hrun & -> & Hc & Hsub).
  eauto.
Qed.

Lemma Draw_stops_at_polygon_without_points_witness :
  exists st',
    Space_Draw (H:=reference_runtime) (Some 1%positive) pointless_scene_state
    = Panic out_of_range st' /\
    calls st' = calls pointless_scene_state
                ++ frame_calls identityMatrix
                     (take 2 [(far_triangle, black); (near_triangle, red); ([], red)])
                ++ [SetColor red] /\
    heap pointless_scene_state ⊆ heap st'.
Proof.
  apply (Draw_stops_at_polygon_without_points (H:=reference_runtime) (Some 1%positive)
           identityMatrix [(far_triangle, black); (near_triangle, red); ([], red)] 2 red
           pointless_scene_state).
  - exact reference_sort_in_range.
  - exists 1%positive, (Space.mk identityMatrix (Slice (Some 10%positive) 3 4)),
           [Some 3%positive; Some 6%positive; Some 9%positive].
    split; [reflexivity|]. split; [reflexivity|]. split; [reflexivity|]. split.
    + exists 10%positive, [Some 3%positive; Some 6%positive; Some 9%positive; None].
      repeat split; simpl; lia.
    + constructor; [|constructor; [|constructor; [|constructor]]].
      * exists 3%positive, (Polygon.mk (Slice (Some 2%positive) 3 3) black).
        split; [reflexivity|]. split; [reflexivity|]. split; [reflexivity|].
        exists 2%positive, far_triangle. repeat split; simpl; lia.
      * exists 6%positive, (Polygon.mk (Slice (Some 5%positive) 3 3) red).
        split; [reflexivity|]. split; [reflexivity|]. split; [reflexivity|].
        exists 5%positive, near_triangle. repeat split; simpl; lia.
      * exists 9%positive, (Polygon.mk (Slice (Some 8%positive) 0 0) red).
        split; [reflexivity|]. split; [reflexivity|]. split; [reflexivity|].
        exists 8%positive, []. repeat split; simpl; lia.
  - reflexivity.
  - repeat constructor; discriminate.
Defined.

(** ** [Transform], twice *)

(** [p.Transform(A).Transform(B)] returns a new polygon whose points are
    those of [p] times [A] and then times [B], position by position, with
    the color of [p]; [p] and everything else in the heap before the calls
    is left as it was. *)
Theorem Transform_twice_composes (p : ptr) (pts : list Point.t) (c : RGBA)
    (A B : Matrix.t) (st : state) :
  polygon_at (heap st) p pts c ->
  exists r st',
    (q <- Polygon_Transform p A ;; Polygon_Transform q B) st = Done r st' /\
    polygon_at (heap st') r (map (matrixMultiply B) (map (matrixMultiply A) pts)) c /\
    polygon_at (heap st') p pts c /\
    heap st ⊆ heap st' /\
    calls st' = calls st.
Proof.
  intros (l & poly & -> & Hl & Hc & Hpts).
  assert (wp (q <- Polygon_Transform (Some l) A ;; Polygon_Transform q B) st
             (fun r st' =>
                polygon_at (heap st') r
                           (map (matrixMultiply B) (map (matrixMultiply A) pts)) c /\
                heap st ⊆ heap st' /\ calls st' = calls st)
             (fun _ => False)) as Hwp.
  { apply wp_bind.
    eapply wp_conseq; [apply (wp_Polygon_Transform l poly pts A st Hl Hpts) | | auto].
    intros q st1 (ln & lq & -> & Hln & Hlq & Hne & Hc1 & Hh1).
    destruct (transformed_heap (heap st) ln lq (map (matrixMultiply A) pts)
                (Polygon.Color poly) Hln Hlq Hne) as [Hsub1 Hnew1].
    rewrite length_map in Hsub1, Hnew1. rewrite <- Hh1 in Hsub1, Hnew1.
    destruct Hnew1 as (lq' & poly1 & Heq & Hlq1 & Hcol1 & Hpts1).
    assert (lq' = lq) as -> by congruence.
    eapply wp_conseq; [apply (wp_Polygon_Transform lq poly1 _ B st1 Hlq1 Hpts1) | | auto].
    intros r st2 (ln2 & lr & -> & Hln2 & Hlr & Hne2 & Hc2 & Hh2).
    destruct (transformed_heap (heap st1) ln2 lr
                (map (matrixMultiply B) (map (matrixMultiply A) pts))
                (Polygon.Color poly1) Hln2 Hlr Hne2) as [Hsub2 Hnew2].
    rewrite !length_map in Hsub2, Hnew2. rewrite !length_map in Hh2.
    rewrite <- Hh2 in Hsub2, Hnew2.
    split; [rewrite <- Hc, <- Hcol1; exact Hnew2|].
    split; [etrans; eauto | congruence]. }
  apply wp_Done in Hwp as (r & st' & Hrun & Hr & Hsub & Hcalls).
  exists r, st'. split; [exact Hrun|]. split; [exact Hr|].
  split; [|split; [exact Hsub | exact Hcalls]].
  apply polygon_at_mono with (h := heap st); [exact Hsub|].
  exists l, poly. auto.
Qed.

Lemma Transform_twice_composes_witness :
  exists r st',
    (q <- Polygon_Transform (Some 3%positive) (rotationX (H:=reference_runtime) 1) ;;
     Polygon_Transform q (rotationY (H:=reference_runtime) 1)) scene_state = Done r st' /\
    polygon_at (heap st') r
               (map (matrixMultiply (rotationY (H:=reference_runtime) 1))
                    (map (matrixMultiply (rotationX (H:=reference_runtime) 1)) far_triangle))
               black /\
    polygon_at (heap st') (Some 3%positive) far_triangle black /\
    heap scene_state ⊆ heap st' /\
    calls st' = calls scene_state.
Proof.
  apply (Transform_twice_composes (Some 3%positive) far_triangle black).
  exact far_polygon_in_scene_state.
Defined.
